(** * pyLIQTR, QSP/qsp_select_v.py: the SelectV oracle synthesis

    A shallow embedding of the address codec ([constructBooleanTree],
    [incrementBooleanTree]), of the controlled primitive ([toffoli]), of the
    QROM walk ([applyAndWalk] and its inner [qrom]), of the tree traversal
    ([walkDown], [stepRight], [applyAndStep]) and of the conversion of
    Hamiltonian terms to controlled Pauli operators, together with a
    simulation of the emitted circuits on computational basis states. *)

From Stdlib Require Import ZArith List Bool Lia Arith Ascii String.
Import ListNotations.

Local Open Scope Z_scope.

(** ** Python outcomes *)

Inductive exn : Type := IndexError | ValueError | TypeError.

Inductive result (A : Type) : Type :=
| Ok (a : A)
| Raise (e : exn).

Arguments Ok {A} a.
Arguments Raise {A} e.

Definition bind {A B : Type} (r : result A) (k : A -> result B) : result B :=
  match r with
  | Ok a => k a
  | Raise e => Raise e
  end.

Notation "x <- r ;; k" := (bind r (fun x => k))
  (at level 61, r at next level, right associativity).

(** ** AddressCodec *)

Module Codec.

(** [bin(n)] of Python: a sign, the prefix 0b and the binary digits, most
    significant first. *)
Fixpoint bin_pos (p : positive) : string :=
  match p with
  | xH => "1"
  | xO q => bin_pos q ++ "0"
  | xI q => bin_pos q ++ "1"
  end%string.

Definition bin (n : Z) : string :=
  match n with
  | Z0 => "0b0"
  | Zpos p => "0b" ++ bin_pos p
  | Zneg p => "-0b" ++ bin_pos p
  end%string.

(** [s[k:]] on a string. *)
Fixpoint string_drop (k : nat) (s : string) : string :=
  match k, s with
  | O, _ => s
  | S k', EmptyString => EmptyString
  | S k', String _ t => string_drop k' t
  end.

(** [''.join(['0' for __ in range(k)])]; [range] of a negative number is
    empty. *)
Definition zeros (k : Z) : string :=
  string_of_list_ascii (repeat "0"%char (Z.to_nat k)).

Definition is_one (c : ascii) : bool := Ascii.eqb c "1"%char.

(** def constructBooleanTree(n,m) *)
Definition constructBooleanTree (n m : Z) : result (list bool) :=
  let n' := string_drop 2 (bin n) in
  let value := (zeros (m - Z.of_nat (String.length n')) ++ n')%string in
  Ok (map is_one (list_ascii_of_string value)).

(** The digits of [bin(p)] as booleans, as the list comprehension of
    [constructBooleanTree] reads them. *)
Definition digits (p : positive) : list bool :=
  map is_one (list_ascii_of_string (bin_pos p)).

(** The inner [incBT]: [m[0]] raises IndexError on the empty list. *)
Fixpoint incBT (m : list bool) : result (list bool) :=
  match m with
  | [] => Raise IndexError
  | h :: m' =>
      if Bool.eqb h false then Ok (true :: m')
      else r <- incBT m' ;; Ok (false :: r)
  end.

(** def incrementBooleanTree(n), on the value of the list *)
Definition incrementBooleanTree (n : list bool) : result (list bool) :=
  r <- incBT (rev n) ;; Ok (rev r).

(** The same function on a store of list objects: [n.copy()] allocates,
    [n.reverse()] works in place, [incBT] builds a new list from slices. *)
Definition store := list (list bool).
Definition ref := nat.

Definition deref (s : store) (r : ref) : result (list bool) :=
  match nth_error s r with
  | Some l => Ok l
  | None => Raise TypeError
  end.

Definition alloc (l : list bool) (s : store) : ref * store :=
  (List.length s, s ++ [l]).

Fixpoint set_nth (r : ref) (l : list bool) (s : store) : store :=
  match s, r with
  | [], _ => []
  | _ :: t, O => l :: t
  | x :: t, S r' => x :: set_nth r' l t
  end.

Definition list_copy (r : ref) (s : store) : result (ref * store) :=
  l <- deref s r ;; Ok (alloc l s).

Definition list_reverse (r : ref) (s : store) : result store :=
  l <- deref s r ;; Ok (set_nth r (rev l) s).

Definition incrementBooleanTree_obj (n : ref) (s : store)
  : result (ref * store) :=
  c <- list_copy n s ;;
  let '(n1, s1) := c in
  s2 <- list_reverse n1 s1 ;;
  m <- deref s2 n1 ;;
  v <- incBT m ;;
  let '(n2, s3) := alloc v s2 in
  s4 <- list_reverse n2 s3 ;;
  Ok (n2, s4).

(** [h_distance] of stepRight: [zip] stops at the shorter list. *)
Fixpoint h_distance (val1 val2 : list bool) : nat :=
  match val1, val2 with
  | v1 :: t1, v2 :: t2 =>
      ((if Bool.eqb v1 v2 then 0 else 1) + h_distance t1 t2)%nat
  | _, _ => O
  end.

(** The width-[w] encoding of [k], most significant bit first. *)
Definition encode_bits (w : nat) (k : Z) : list bool :=
  map (fun i => Z.testbit k (Z.of_nat i)) (rev (seq 0 w)).

(** Bit [i] of that encoding, counted from the most significant end. *)
Definition msb_bit (w : nat) (k : Z) (i : nat) : bool :=
  Z.testbit k (Z.of_nat (w - 1 - i)).

(** Decoding of a bit vector, most significant bit first. *)
Fixpoint decode (l : list bool) : Z :=
  match l with
  | [] => 0
  | b :: t => Z.b2z b * 2 ^ Z.of_nat (List.length t) + decode t
  end.

(** Length of the run of [true] at the end of a path. *)
Fixpoint leading_ones (l : list bool) : nat :=
  match l with
  | true :: t => S (leading_ones t)
  | _ => O
  end.

Definition trailing_ones (l : list bool) : nat := leading_ones (rev l).

End Codec.

(** ** Qubits, gates and circuits *)

(** The four registers handed to [SelVBase]: the phase (global select)
    qubit, the control (address) qubits, the ancilla qubits and the target
    qubits; the index is the position in the list the caller supplies. *)
Inductive qubit : Type :=
| Phs
| Ctl (i : nat)
| Anc (i : nat)
| Tgt (i : nat).

Definition qubit_eqb (p q : qubit) : bool :=
  match p, q with
  | Phs, Phs => true
  | Ctl i, Ctl j => Nat.eqb i j
  | Anc i, Anc j => Nat.eqb i j
  | Tgt i, Tgt j => Nat.eqb i j
  | _, _ => false
  end.

(** The cirq operations the module emits. *)
Inductive gate : Type :=
| X_on (q : qubit)
| CX_on (c t : qubit)
| CCX_on (c0 c1 t : qubit)
| Z_on (q : qubit)
| CZ_on (c t : qubit)
| S_on (q : qubit)
| S_inv_on (q : qubit).

(** An entry of a circuit: an elementary gate, or the gate sequence that one
    call [operators[k](ctrl, targets)] returned, kept together with the
    activation qubit it was called on. *)
Inductive instr : Type :=
| Gate (g : gate)
| Payload (ctrl : qubit) (body : list gate).

(** A circuit, as the sequence of the operations appended to it, in the
    order of the [append] calls ([cirq.Circuit.append] moves an operation
    to an earlier moment only past operations on other qubits). *)
Definition circuit := list instr.

(** A payload-operation generator: [lambda ctrl, qubits: ...]. *)
Definition generator := qubit -> list qubit -> list gate.

(** ** Python sequences *)

(** [l[i]] with Python's negative indices. *)
Definition py_index {A : Type} (l : list A) (i : Z) : result A :=
  let len := Z.of_nat (List.length l) in
  let j := if i <? 0 then len + i else i in
  if (0 <=? j) && (j <? len) then
    match nth_error l (Z.to_nat j) with
    | Some a => Ok a
    | None => Raise IndexError
    end
  else Raise IndexError.

(** [l[i::]] with Python's negative start. *)
Definition py_slice_from {A : Type} (l : list A) (i : Z) : list A :=
  let len := Z.of_nat (List.length l) in
  let j := if i <? 0 then Z.max 0 (len + i) else i in
  skipn (Z.to_nat j) l.

(** [[ii+pos1 for ii in range(pos2-pos1)]] *)
Definition key_range (pos1 pos2 : Z) : list Z :=
  map (fun ii => Z.of_nat ii + pos1) (seq 0 (Z.to_nat (pos2 - pos1))).

(** [(key >> i) % 2 == 1] *)
Definition ctl_sense (key : Z) (i : nat) : bool :=
  (Z.shiftr key (Z.of_nat i)) mod 2 =? 1.

(** ** ConditionalPrimitive *)

(** def toffoli(b0,b1,ctl0,ctl1,trgt) *)
Definition toffoli (b0 b1 : bool) (ctl0 ctl1 trgt : qubit) : list gate :=
  let basis_change :=
    (if negb b0 then [X_on ctl0] else []) ++
    (if negb b1 then [X_on ctl1] else []) in
  basis_change ++ [CCX_on ctl0 ctl1 trgt] ++ rev basis_change.

Definition gates (gs : list gate) : circuit := map Gate gs.

(** ** WalkSynthesizer *)

Module Walk.

(** One step of the chain: the toffoli on ancilla [ci], controlled on the
    next higher ancilla, or on the select qubit at the top. *)
Definition chain_toffoli (width : nat) (selQubit : qubit)
    (addrQubits ancQubits : list qubit) (key : Z) (ci : nat)
  : result (list gate) :=
  let ctlSense := ctl_sense key ci in
  if Nat.eqb (ci + 1) width then
    a <- py_index addrQubits (Z.of_nat ci) ;;
    b <- py_index ancQubits (Z.of_nat ci) ;;
    Ok (toffoli true ctlSense selQubit a b)
  else
    c <- py_index ancQubits (Z.of_nat (ci + 1)) ;;
    a <- py_index addrQubits (Z.of_nat ci) ;;
    b <- py_index ancQubits (Z.of_nat ci) ;;
    Ok (toffoli true ctlSense c a b).

(** [for ci in cis: circuit.append(toffoli(...))] *)
Fixpoint chain_loop (width : nat) (selQubit : qubit)
    (addrQubits ancQubits : list qubit) (key : Z) (cis : list nat)
    (circ : circuit) : result circuit :=
  match cis with
  | [] => Ok circ
  | ci :: rest =>
      g <- chain_toffoli width selQubit addrQubits ancQubits key ci ;;
      chain_loop width selQubit addrQubits ancQubits key rest
        (circ ++ gates g)
  end.

(** The clearing loop
    [while not (prev_key_val >> (ci+1)) == (key_val >> (ci+1))].
    Every iteration reads [ancQubits[ci + 1]], which raises once [ci + 1]
    leaves the register, so the loop runs at most [len(ancQubits)] times
    and [fuel] above that is never used up. *)
Fixpoint clear_loop (fuel : nat) (addrQubits ancQubits : list qubit)
    (prev_key_val key_val : Z) (ci : nat) (circ : circuit)
  : result (nat * circuit) :=
  if Z.shiftr prev_key_val (Z.of_nat (ci + 1))
       =? Z.shiftr key_val (Z.of_nat (ci + 1))
  then Ok (ci, circ)
  else
    let ctlSense := ctl_sense prev_key_val ci in
    c <- py_index ancQubits (Z.of_nat (ci + 1)) ;;
    a <- py_index addrQubits (Z.of_nat ci) ;;
    b <- py_index ancQubits (Z.of_nat ci) ;;
    match fuel with
    | O => Raise IndexError
    | S fuel' =>
        clear_loop fuel' addrQubits ancQubits prev_key_val key_val (S ci)
          (circ ++ gates (toffoli true ctlSense c a b))
    end.

(** [if (ci + 1) == width: CX(selQubit, anc[ci]) else CX(anc[ci+1], anc[ci])] *)
Definition flip_gate (width : nat) (selQubit : qubit)
    (ancQubits : list qubit) (ci : nat) : result gate :=
  if Nat.eqb (ci + 1) width then
    b <- py_index ancQubits (Z.of_nat ci) ;;
    Ok (CX_on selQubit b)
  else
    c <- py_index ancQubits (Z.of_nat (ci + 1)) ;;
    b <- py_index ancQubits (Z.of_nat ci) ;;
    Ok (CX_on c b).

(** The rebuilding loop [while ci > 0]. *)
Fixpoint rebuild_loop (addrQubits ancQubits : list qubit) (key_val : Z)
    (ci : nat) (circ : circuit) : result circuit :=
  match ci with
  | O => Ok circ
  | S ci' =>
      let ctlSense := ctl_sense key_val ci' in
      c <- py_index ancQubits (Z.of_nat (S ci')) ;;
      a <- py_index addrQubits (Z.of_nat ci') ;;
      b <- py_index ancQubits (Z.of_nat ci') ;;
      rebuild_loop addrQubits ancQubits key_val ci'
        (circ ++ gates (toffoli true ctlSense c a b))
  end.

(** The [else] branch of the loop over the keys: move from the previous
    key value to the new one. *)
Definition transition (width : nat) (selQubit : qubit)
    (addrQubits ancQubits : list qubit) (prev_key_val key_val : Z)
    (circ : circuit) : result circuit :=
  r <- clear_loop (List.length ancQubits) addrQubits ancQubits
         prev_key_val key_val 0 circ ;;
  let '(ci, circ1) := r in
  f <- flip_gate width selQubit ancQubits ci ;;
  rebuild_loop addrQubits ancQubits key_val ci (circ1 ++ [Gate f]).

(** The body of [for key_val in key_vals], threading [prev_key_val] and
    the circuit. *)
Fixpoint key_loop (width : nat) (selQubit : qubit)
    (addrQubits ancQubits trgtQubits : list qubit)
    (operators : list generator) (key_vals : list Z)
    (prev_key_val : Z) (circ : circuit) : result (Z * circuit) :=
  match key_vals with
  | [] => Ok (prev_key_val, circ)
  | key_val :: rest =>
      circ1 <-
        (if prev_key_val =? -1 then
           chain_loop width selQubit addrQubits ancQubits key_val
             (rev (seq 0 width)) circ
         else
           transition width selQubit addrQubits ancQubits
             prev_key_val key_val circ) ;;
      op <- py_index operators key_val ;;
      b0 <- py_index ancQubits 0 ;;
      key_loop width selQubit addrQubits ancQubits trgtQubits operators
        rest key_val (circ1 ++ [Payload b0 (op b0 trgtQubits)])
  end.

(** def qrom(qubit_dict, width, key_vals, operators), with the four
    entries of [qubit_dict] as arguments *)
Definition qrom (a b : list qubit) (s : qubit) (t : list qubit)
    (width : nat) (key_vals : list Z) (operators : list generator)
  : result circuit :=
  let addrQubits := rev a in
  let ancQubits := rev b in
  r <- key_loop width s addrQubits ancQubits t operators key_vals (-1) [] ;;
  let '(prev_key_val, circ) := r in
  if negb (prev_key_val =? -1) then
    chain_loop width s addrQubits ancQubits prev_key_val (seq 0 width) circ
  else Ok circ.

(** def applyAndWalk(operators, pos1, pos2, ctl_q, sel_q, anc_q, tgt_q) *)
Definition applyAndWalk (operators : list generator) (pos1 pos2 : Z)
    (ctl_q : list qubit) (sel_q : qubit) (anc_q tgt_q : list qubit)
  : result circuit :=
  qrom ctl_q anc_q sel_q tgt_q (List.length ctl_q)
    (key_range pos1 pos2) operators.

End Walk.

(** ** TreeSynthesizer *)

Module Tree.

Import Codec.

(** The inner [walkDown_helper(myc,bt,qbt,anc)] *)
Fixpoint walkDown_helper (myc : circuit) (bt : list bool)
    (qbt anc : list qubit) : result circuit :=
  match bt with
  | [] => Ok myc
  | b :: bt' =>
      q0 <- py_index qbt 0 ;;
      a0 <- py_index anc 0 ;;
      a1 <- py_index anc 1 ;;
      walkDown_helper (myc ++ gates (toffoli b true q0 a0 a1)) bt'
        (skipn 1 qbt) (skipn 1 anc)
  end.

(** def walkDown(bTree, qubits, ancilla) *)
Definition walkDown (bTree : list bool) (qubits ancilla : list qubit)
  : result circuit :=
  b0 <- py_index bTree 0 ;;
  b1 <- py_index bTree 1 ;;
  q0 <- py_index qubits 0 ;;
  q1 <- py_index qubits 1 ;;
  a0 <- py_index ancilla 0 ;;
  walkDown_helper (gates (toffoli b0 b1 q0 q1 a0)) (skipn 2 bTree)
    (skipn 2 qubits) ancilla.

(** [nth2last(n)] *)
Definition nth2last (n : Z) : Z := - (n + 1).

(** def stepRight(circuit, bTree, qubits, ancilla).  The recursive call is
    on [bTree[0:-1]], and it is reached only when the distance is at least
    3, so [fuel] at the length of [bTree] is never used up. *)
Fixpoint stepRight_rec (fuel : nat) (circ : circuit) (bTree : list bool)
    (qubits ancilla : list qubit) : result circuit :=
  inc <- incrementBooleanTree bTree ;;
  let distance := h_distance bTree inc in
  let n_anc := List.length ancilla in
  match distance with
  | O => Ok circ
  | 1%nat =>
      if Nat.eqb n_anc 1 then
        q0 <- py_index ancilla (nth2last 0) ;;
        Ok (circ ++ [Gate (X_on q0)])
      else
        q0 <- py_index ancilla (nth2last 0) ;;
        q1 <- py_index ancilla (nth2last 1) ;;
        Ok (circ ++ [Gate (CX_on q1 q0)])
  | 2%nat =>
      if Nat.eqb n_anc 2 then
        q0 <- py_index ancilla (nth2last 0) ;;
        q1 <- py_index ancilla (nth2last 1) ;;
        x0 <- py_index qubits (nth2last 0) ;;
        Ok (circ ++ [Gate (CX_on q1 q0); Gate (CX_on x0 q0);
                     Gate (X_on q1); Gate (X_on q0)])
      else
        q0 <- py_index ancilla (nth2last 0) ;;
        q1 <- py_index ancilla (nth2last 1) ;;
        q2 <- py_index ancilla (nth2last 2) ;;
        x0 <- py_index qubits (nth2last 0) ;;
        Ok (circ ++ [Gate (CX_on q1 q0)]
                 ++ gates (toffoli true false q2 x0 q0)
                 ++ [Gate (CX_on q2 q1)])
  | _ =>
      x0 <- py_index qubits (nth2last 0) ;;
      q0 <- py_index ancilla (nth2last 0) ;;
      q1 <- py_index ancilla (nth2last 1) ;;
      let qubits2 := removelast qubits in
      let ancilla2 := removelast ancilla in
      let m_bTree := removelast bTree in
      match fuel with
      | O => Raise IndexError
      | S fuel' =>
          circ' <- stepRight_rec fuel'
                     (circ ++ gates (toffoli true true q1 x0 q0))
                     m_bTree qubits2 ancilla2 ;;
          Ok (circ' ++ gates (toffoli true false q1 x0 q0))
      end
  end.

Definition stepRight (circ : circuit) (bTree : list bool)
    (qubits ancilla : list qubit) : result circuit :=
  stepRight_rec (List.length bTree) circ bTree qubits ancilla.

Definition list_bool_eqb (a b : list bool) : bool :=
  if list_eq_dec Bool.bool_dec a b then true else false.

(** The inner [applyAndStep_helper(myc, ops, sbT, ebT, qbs, anc, tgt)]; both
    branches start with [ops[0]], and the recursive call is on [ops[1::]]. *)
Fixpoint applyAndStep_helper (myc : circuit) (ops : list generator)
    (sbT ebT : list bool) (qbs anc tgt : list qubit) : result circuit :=
  match ops with
  | [] => Raise IndexError
  | op :: ops' =>
      a <- py_index anc (-1) ;;
      let myc1 := myc ++ [Payload a (op a tgt)] in
      if list_bool_eqb sbT ebT then Ok myc1
      else
        myc2 <- stepRight myc1 sbT qbs anc ;;
        sbT' <- incrementBooleanTree sbT ;;
        applyAndStep_helper myc2 ops' sbT' ebT qbs anc tgt
  end.

(** def applyAndStep(operators, start_bTree, end_bTree, controls, ancilla,
    target) *)
Definition applyAndStep (operators : list generator)
    (start_bTree end_bTree : list bool) (controls ancilla target : list qubit)
  : result circuit :=
  applyAndStep_helper [] operators start_bTree end_bTree controls ancilla
    target.

(** [cirq.inverse] on a gate and on a circuit. *)
Definition inverse_gate (g : gate) : gate :=
  match g with
  | S_on q => S_inv_on q
  | S_inv_on q => S_on q
  | _ => g
  end.

Definition inverse_instr (i : instr) : instr :=
  match i with
  | Gate g => Gate (inverse_gate g)
  | Payload c body => Payload c (rev (map inverse_gate body))
  end.

Definition inverse (c : circuit) : circuit := rev (map inverse_instr c).

(** The [else] branch of [SelVBase._decompose_]: the three circuits it
    yields, one after the other. *)
Definition decompose_tree (ham_as_ops_all : list generator) (pos1 pos2 : Z)
    (ctl_q : list qubit) (phs_q : qubit) (anc_q tgt_q : list qubit)
  : result circuit :=
  let ham_as_ops := py_slice_from ham_as_ops_all pos1 in
  let width := Z.of_nat (List.length ctl_q) in
  s <- constructBooleanTree pos1 width ;;
  let start_node := true :: s in
  e <- constructBooleanTree (pos2 - 1) width ;;
  let end_node := true :: e in
  downCircuit <- walkDown start_node (phs_q :: ctl_q) anc_q ;;
  applyCircuit <- applyAndStep ham_as_ops start_node end_node ctl_q
                    (phs_q :: anc_q) tgt_q ;;
  up <- walkDown end_node (phs_q :: ctl_q) anc_q ;;
  Ok (downCircuit ++ applyCircuit ++ inverse up).

End Tree.

(** ** OracleAssembler: Hamiltonian terms to operators *)

Module Assembler.

(** A term of the Hamiltonian: the Pauli string and the sign of the
    coefficient ([term[1] < 0] is the only use of the coefficient here; the
    coefficient is kept as an integer numerator over a positive
    denominator). *)
Record term : Type := { pauli : string; coeff_num : Z; coeff_den : positive }.

Definition coeff_negative (t : term) : bool := coeff_num t <? 0.

(** The inner [controlled_pauli_gate(pauliString, ctrl, targets)] *)
Fixpoint controlled_pauli_gate (pauliString : list ascii) (ctrl : qubit)
    (targets : list qubit) : list gate :=
  match pauliString, targets with
  | p :: ps, tq :: tqs =>
      (if Ascii.eqb p "I" then []
       else if Ascii.eqb p "X" then [CX_on ctrl tq]
       else if Ascii.eqb p "Y" then [S_inv_on tq; CX_on ctrl tq; S_on tq]
       else if Ascii.eqb p "Z" then [CZ_on ctrl tq]
       else [])
      ++ controlled_pauli_gate ps ctrl tqs
  | _, _ => []
  end.

(** The generator built for one term. *)
Definition term_to_generator (t : term) : generator :=
  if coeff_negative t then
    fun ctrl qubits =>
      [Z_on ctrl]
      ++ controlled_pauli_gate (list_ascii_of_string (pauli t)) ctrl qubits
  else
    fun ctrl qubits =>
      controlled_pauli_gate (list_ascii_of_string (pauli t)) ctrl qubits.

(** def convert_hamiltonian_terms_to_operators(self) *)
Definition convert_hamiltonian_terms_to_operators (terms : list term)
  : list generator :=
  map term_to_generator terms.

End Assembler.

(** A small Hamiltonian, used to instantiate the statements below. *)
Definition demo_ops : list generator :=
  Assembler.convert_hamiltonian_terms_to_operators
    [ {| Assembler.pauli := "XI"; Assembler.coeff_num := 1;
         Assembler.coeff_den := 2 |};
      {| Assembler.pauli := "ZY"; Assembler.coeff_num := -1;
         Assembler.coeff_den := 4 |};
      {| Assembler.pauli := "YX"; Assembler.coeff_num := 3;
         Assembler.coeff_den := 1 |} ].

(** ** Simulation on computational basis states *)

Module Sim.

Definition state := qubit -> bool.

Definition upd (st : state) (q : qubit) (v : bool) : state :=
  fun q' => if qubit_eqb q q' then v else st q'.

(** The action of a gate on a basis state; the phase gates are diagonal
    and leave the basis state as it is. *)
Definition apply_gate (g : gate) (st : state) : state :=
  match g with
  | X_on q => upd st q (negb (st q))
  | CX_on c t => upd st t (xorb (st t) (st c))
  | CCX_on c0 c1 t => upd st t (xorb (st t) (st c0 && st c1))
  | Z_on _ | CZ_on _ _ | S_on _ | S_inv_on _ => st
  end.

Definition run_gates (gs : list gate) (st : state) : state :=
  fold_left (fun s g => apply_gate g s) gs st.

(** A configuration: the basis state and the payload operators that fired
    so far, oldest first.  A payload fires when its activation qubit is 1
    at the time it is reached. *)
Definition config := (state * list (list gate))%type.

Definition step (i : instr) (c : config) : config :=
  let '(st, fired) := c in
  match i with
  | Gate g => (apply_gate g st, fired)
  | Payload ctrl body =>
      (run_gates body st, if st ctrl then fired ++ [body] else fired)
  end.

Definition run (circ : circuit) (c : config) : config :=
  fold_left (fun s i => step i s) circ c.

(** The registers of a [SelVBase] of address width [w] with [k] targets. *)
Definition ctl_reg (w : nat) : list qubit := map Ctl (seq 0 w).
Definition anc_reg (w : nat) : list qubit := map Anc (seq 0 w).
Definition tgt_reg (k : nat) : list qubit := map Tgt (seq 0 k).

(** The address held by the control register: [ctl_q[0]] is the most
    significant bit. *)
Definition address (w : nat) (st : state) : Z :=
  Codec.decode (map st (ctl_reg w)).

(** A basis state with the given enable bit, address and target bits and
    all ancilla at 0. *)
Definition init_state (w : nat) (enable : bool) (addr : Z)
    (tgt : nat -> bool) : state :=
  fun q =>
    match q with
    | Phs => enable
    | Ctl i => Z.testbit addr (Z.of_nat (w - 1 - i))
    | Anc _ => false
    | Tgt i => tgt i
    end.

Definition same_state (s1 s2 : state) : Prop := forall q, s1 q = s2 q.

(** [qrom] reverses both registers: position [i] of [addrQubits] and of
    [ancQubits], counted from the least significant bit. *)
Definition aq (w i : nat) : qubit := Ctl (w - 1 - i).
Definition bq (w i : nat) : qubit := Anc (w - 1 - i).

(** The prefix-match chain: bit [i] of the chain for [key] is the enable
    bit and the agreement of the address with [key] on the bits from [i]
    up. *)
Definition bit_match (w : nat) (st : state) (key : Z) (j : nat) : bool :=
  Bool.eqb (st (aq w j)) (Z.testbit key (Z.of_nat j)).

Definition pre (w : nat) (st : state) (key : Z) (i : nat) : bool :=
  st Phs && forallb (bit_match w st key) (seq i (w - i)).

(** The state [st] with the ancilla register holding the chain for [key]
    on the positions from [i] up, and 0 below. *)
Definition set_chain (w : nat) (st : state) (key : Z) (i : nat) : state :=
  fun q =>
    match q with
    | Anc n =>
        if (n <? w)%nat then
          if (i <=? w - 1 - n)%nat then pre w st key (w - 1 - n) else false
        else st q
    | _ => st q
    end.

(** The control of the chain step at position [ci], and the step itself,
    as [qrom] emits it for [key]. *)
Definition chain_ctl (w ci : nat) : qubit :=
  if Nat.eqb (ci + 1) w then Phs else bq w (ci + 1).

Definition chain_step (w : nat) (key : Z) (ci : nat) : list gate :=
  toffoli true (Z.testbit key (Z.of_nat ci)) (chain_ctl w ci) (aq w ci)
    (bq w ci).

(** The ancilla register at a key boundary of [qrom]: clear before the
    first key, the complete chain of the previous key afterwards. *)
Definition boundary (w : nat) (prev : Z) (b : state) : state :=
  if prev =? -1 then set_chain w b 0 w else set_chain w b prev 0.

(** The reference behaviour of the oracle on a list of keys: at each key
    the chain is complete, the payload of the key runs, and it fires when
    the lowest chain bit is 1; at the end the ancilla register is 0. *)
Fixpoint oracle_keys (w : nat) (body : Z -> list gate) (keys : list Z)
    (c : config) : config :=
  match keys with
  | [] => c
  | k :: rest =>
      let '(st, fired) := c in
      let st1 := set_chain w st k 0 in
      oracle_keys w body rest
        (run_gates (body k) st1,
         if st1 (bq w 0) then fired ++ [body k] else fired)
  end.

Definition oracle (w : nat) (body : Z -> list gate) (keys : list Z)
    (c : config) : config :=
  let '(st, fired) := oracle_keys w body keys c in
  (set_chain w st 0 w, fired).

(** The qubits a gate writes. *)
Definition writes (g : gate) : list qubit :=
  match g with
  | X_on q => [q]
  | CX_on _ t => [t]
  | CCX_on _ _ t => [t]
  | Z_on _ | CZ_on _ _ | S_on _ | S_inv_on _ => []
  end.

Definition is_tgt (q : qubit) : bool :=
  match q with Tgt _ => true | _ => false end.

(** A payload that writes target qubits only. *)
Definition targets_only (gs : list gate) : bool :=
  forallb (fun g => forallb is_tgt (writes g)) gs.

(** The payload [operators[k](ancQubits[0], trgtQubits)] of key [k]. *)
Definition payload_body (w : nat) (tgts : list qubit)
    (operators : list generator) (k : Z) : list gate :=
  match py_index operators k with
  | Ok op => op (bq w 0) tgts
  | Raise _ => []
  end.

(** Keys strictly increasing, above [lo] and below [2^w]. *)
Fixpoint increasing_from (w : nat) (lo : Z) (keys : list Z) : bool :=
  match keys with
  | [] => true
  | k :: rest =>
      (lo <? k) && (k <? 2 ^ Z.of_nat w) && increasing_from w k rest
  end.

(** Every key has an operator in the table, and its payload writes target
    qubits only. *)
Definition ops_ok (w : nat) (tgts : list qubit) (operators : list generator)
    (keys : list Z) : bool :=
  forallb (fun k =>
             (0 <=? k) && (k <? Z.of_nat (List.length operators))
             && targets_only (payload_body w tgts operators k)) keys.

(** The ancilla register is all 0. *)
Definition ancilla_clear (w : nat) (st : state) : Prop :=
  forall i, (i < w)%nat -> st (Anc i) = false.

(** A gate whose target is not one of its controls. *)
Definition gate_wf (g : gate) : bool :=
  match g with
  | CX_on c t => negb (qubit_eqb c t)
  | CCX_on c0 c1 t => negb (qubit_eqb c0 t) && negb (qubit_eqb c1 t)
  | _ => true
  end.

(** Two gate sequences with the same action on every basis state, and two
    circuits that, from every configuration, end in the same basis state
    and have fired the same payloads. *)
Definition gates_equiv (g1 g2 : list gate) : Prop :=
  forall st, same_state (run_gates g1 st) (run_gates g2 st).

Definition circuit_equiv (c1 c2 : circuit) : Prop :=
  forall st fired,
    same_state (fst (run c1 (st, fired))) (fst (run c2 (st, fired))) /\
    snd (run c1 (st, fired)) = snd (run c2 (st, fired)).

(** The gates [qrom] emits to move from a key whose bits are 1 on the
    positions [d .. c-1] and 0 at [c] to the next key: the chain steps on
    [d .. c-1] for the bit 1, the controlled NOT on ancilla [c], and the
    chain steps on [c-1 .. d] for the bit 0. *)
Definition carry_gates (w d c : nat) : list gate :=
  flat_map (fun i => toffoli true true (chain_ctl w i) (aq w i) (bq w i))
    (seq d (c - d))
  ++ [CX_on (chain_ctl w c) (bq w c)]
  ++ flat_map (fun i => toffoli true false (chain_ctl w i) (aq w i) (bq w i))
       (rev (seq d (c - d))).

End Sim.

(** ** SelVBase: the active range and the decomposition *)

Module SelV.

Import Assembler.

(** [np.all([p=="I" for p in term[0]]) or term[1]==0] *)
Definition term_is_identity (t : term) : bool :=
  forallb (fun p => Ascii.eqb p "I") (list_ascii_of_string (pauli t))
  || (coeff_num t =? 0).

Definition ham_ps_is_identity (terms : list term) : list bool :=
  map term_is_identity terms.

(** The inner [find_first_non_identity_term(check)]; the loop falls through
    to an implicit [return None] when every entry is true. *)
Fixpoint find_from (idx : nat) (check : list bool) : option nat :=
  match check with
  | [] => None
  | k :: rest => if negb k then Some idx else find_from (S idx) rest
  end.

Definition find_first_non_identity_term (check : list bool) : option nat :=
  find_from 0 check.

(** [pos1] and [pos2] of [_decompose_].  Modelled from the spec:
    [len(self.__hamiltonian)] is the number of terms (the Hamiltonian class
    is not part of these files).  [len(...) - None] raises TypeError. *)
Definition active_range (terms : list term) : result (option Z * Z) :=
  let check := ham_ps_is_identity terms in
  let pos1 := find_first_non_identity_term check in
  match find_first_non_identity_term (rev check) with
  | None => Raise TypeError
  | Some r =>
      Ok (option_map Z.of_nat pos1,
          Z.of_nat (List.length terms) - Z.of_nat r)
  end.

(** def _decompose_(self, qubits), the branch taken ([if True]);
    [range(pos2 - None)] raises TypeError. *)
Definition decompose (terms : list term) (phs_q : qubit)
    (ctl_q anc_q tgt_q : list qubit) : result circuit :=
  r <- active_range terms ;;
  let '(pos1, pos2) := r in
  let ham_as_ops := convert_hamiltonian_terms_to_operators terms in
  match pos1 with
  | None => Raise TypeError
  | Some p1 => Walk.applyAndWalk ham_as_ops p1 pos2 ctl_q phs_q anc_q tgt_q
  end.

(** def _num_qubits_(self) and def _circuit_diagram_info_(self, args) *)
Definition num_qubits (tgt_q ctl_q anc_q : list qubit) : nat :=
  (List.length tgt_q + List.length ctl_q + 1 + List.length anc_q)%nat.

Definition circuit_diagram_info (tgt_q ctl_q anc_q : list qubit)
  : list string :=
  repeat "SelVBase"%string (num_qubits tgt_q ctl_q anc_q).

(** Whether the label at position [i] of a Pauli string makes
    [controlled_pauli_gate] emit a controlled flip on target [i]. *)
Definition pauli_flips (ps : list ascii) (i : nat) : bool :=
  match nth_error ps i with
  | Some p => Ascii.eqb p "X" || Ascii.eqb p "Y"
  | None => false
  end.

(** Whether the term at index [k] has a flipping label for target [i],
    among [n_tgt] targets. *)
Definition term_flips (terms : list term) (n_tgt : nat) (k : Z) (i : nat)
  : bool :=
  match nth_error terms (Z.to_nat k) with
  | Some t =>
      (i <? n_tgt)%nat && pauli_flips (list_ascii_of_string (pauli t)) i
  | None => false
  end.

(** A Hamiltonian with an identity term, a negative term and a term of
    coefficient 0, used to instantiate the statements below. *)
Definition demo_terms : list term :=
  [ {| pauli := "II"; coeff_num := 3; coeff_den := 1 |};
    {| pauli := "XZ"; coeff_num := -1; coeff_den := 2 |};
    {| pauli := "ZY"; coeff_num := 1; coeff_den := 1 |};
    {| pauli := "YY"; coeff_num := 0; coeff_den := 1 |} ].

End SelV.

(** ** utils/utils.py *)

Module Utils.

Definition qasm_convert_one_qubit_gates : list (string * string) :=
  [("H", "h"); ("X", "x")]%string.

Definition qasm_convert_rotation_gates : list (string * string) :=
  [("Rx", "rx"); ("Ry", "ry"); ("Rz", "rz")]%string.

Definition qasm_convert_two_qubit_gates : list (string * string) :=
  [("CNOT", "cx")]%string.

(** [d[k]] and [k in d] on a dictionary literal. *)
Fixpoint dict_get (d : list (string * string)) (k : string) : option string :=
  match d with
  | [] => None
  | (k', v) :: rest => if String.eqb k k' then Some v else dict_get rest k
  end.

(** [s.split(' ')]: one field per single space, never an empty list. *)
Fixpoint split_space (s : string) : list string :=
  match s with
  | EmptyString => [EmptyString]
  | String c t =>
      if Ascii.eqb c " " then EmptyString :: split_space t
      else match split_space t with
           | h :: r => String c h :: r
           | [] => [String c EmptyString]
           end
  end.

Definition nl : string := String "010"%char EmptyString.
Definition dquote : string := String "034"%char EmptyString.

(** [[f(x) for x in l]], stopping at the first exception. *)
Fixpoint map_result {A B : Type} (f : A -> result B) (l : list A)
  : result (list B) :=
  match l with
  | [] => Ok []
  | x :: rest => y <- f x ;; ys <- map_result f rest ;; Ok (y :: ys)
  end.

Section Qasm.

(** The builtins the function calls: [int(s)], the text of an integer in
    an f-string, and the text of [float(s)/np.pi] in an f-string. *)
Variable py_int : string -> result Z.
Variable str_int : Z -> string.
Variable rotation_text : string -> result string.

Definition heading (n_qubits : Z) (reg_name : string) : string :=
  ("// Generated from Cirq, Openfermion, and MIT LL" ++ nl ++ nl
   ++ "OPENQASM 2.0;" ++ nl
   ++ "include " ++ dquote ++ "qelib1.inc" ++ dquote ++ ";" ++ nl ++ nl
   ++ "qreg " ++ reg_name ++ "[" ++ str_int n_qubits ++ "];" ++ nl ++ nl
  )%string.

(** The body of the loop for one [moment_str]: the text added to
    [str_out] and the lines printed. *)
Definition convert_line (reg_name moment_str : string)
  : result (string * list string) :=
  let fields := split_space moment_str in
  gate <- py_index fields 0 ;;
  match dict_get qasm_convert_one_qubit_gates gate with
  | Some g =>
      q <- py_index fields (-1) ;;
      qubit_id <- py_int q ;;
      Ok ((g ++ " " ++ reg_name ++ "[" ++ str_int qubit_id ++ "];" ++ nl)
          %string, [])
  | None =>
      match dict_get qasm_convert_two_qubit_gates gate with
      | Some g =>
          qubit_ids <- map_result py_int (skipn 1 fields) ;;
          q0 <- py_index qubit_ids 0 ;;
          q1 <- py_index qubit_ids 1 ;;
          Ok ((g ++ " " ++ reg_name ++ "[" ++ str_int q0 ++ "],"
                 ++ reg_name ++ "[" ++ str_int q1 ++ "];" ++ nl)%string, [])
      | None =>
          match dict_get qasm_convert_rotation_gates gate with
          | Some g =>
              a <- py_index fields 1 ;;
              rotation <- rotation_text a ;;
              q <- py_index fields (-1) ;;
              qubit_id <- py_int q ;;
              Ok ((g ++ "(pi*" ++ rotation ++ ") " ++ reg_name ++ "["
                     ++ str_int qubit_id ++ "];" ++ nl)%string, [])
          | None =>
              Ok (EmptyString,
                  [("> Gate = " ++ gate ++ " not in gate tables")%string])
          end
      end
  end.

(** The loop [for moment_str in ofq_str], from a given [str_out] and the
    lines printed so far. *)
Fixpoint convert_lines (reg_name : string) (ofq_str : list string)
    (str_out : string) (printed : list string)
  : result (string * list string) :=
  match ofq_str with
  | [] => Ok (str_out, printed)
  | moment_str :: rest =>
      r <- convert_line reg_name moment_str ;;
      let '(piece, msgs) := r in
      convert_lines reg_name rest (str_out ++ piece)%string (printed ++ msgs)
  end.

(** def open_fermion_to_qasm(n_qubits, ofq_str, reg_name, include_heading) *)
Definition open_fermion_to_qasm (n_qubits : Z) (ofq_str : list string)
    (reg_name : string) (include_heading : bool)
  : result (string * list string) :=
  let str_out :=
    if include_heading then heading n_qubits reg_name else EmptyString in
  convert_lines reg_name ofq_str str_out [].

End Qasm.

Section CountT.

(** The operations of a circuit are seen through [str(op)] only. *)
Variable op : Type.
Variable str : op -> string.

(** [s.startswith('T')] *)
Definition starts_with_T (s : string) : bool :=
  match s with
  | String c _ => Ascii.eqb c "T"
  | EmptyString => false
  end.

(** def count_T_gates(circuit): the circuit as its list of moments. *)
Definition count_T_gates (circuit : list (list op)) : nat :=
  fold_left
    (fun counter moment =>
       fold_left
         (fun c o => if starts_with_T (str o) then S c else c)
         moment counter)
    circuit O.

End CountT.

End Utils.
(** * Facts about the address codec *)

Module CodecFacts.

Import Codec.

Section Decode.

Lemma decode_snoc (l : list bool) (b : bool) :
  decode (l ++ [b]) = 2 * decode l + Z.b2z b.
Proof.
  induction l as [|a t IH]; cbn [app decode].
  - destruct b; reflexivity.
  - rewrite IH, length_app. cbn [List.length].
    replace (Z.of_nat (List.length t + 1)) with (Z.succ (Z.of_nat (List.length t))) by lia.
    rewrite Z.pow_succ_r by lia. ring.
Qed.

Lemma decode_bound (l : list bool) :
  0 <= decode l < 2 ^ Z.of_nat (List.length l).
Proof.
  induction l as [|a t IH]; simpl List.length; simpl decode.
  - simpl. lia.
  - rewrite Nat2Z.inj_succ, Z.pow_succ_r by lia.
    destruct a; simpl Z.b2z; lia.
Qed.

Lemma decode_repeat_false (n : nat) (l : list bool) :
  decode (repeat false n ++ l) = decode l.
Proof.
  induction n as [|n IH]; simpl; [reflexivity | exact IH].
Qed.

Lemma encode_bits_length (w : nat) (k : Z) : List.length (encode_bits w k) = w.
Proof.
  unfold encode_bits. now rewrite length_map, length_rev, length_seq.
Qed.

Lemma encode_bits_succ (w : nat) (k : Z) :
  encode_bits (S w) k = Z.testbit k (Z.of_nat w) :: encode_bits w k.
Proof.
  unfold encode_bits. rewrite seq_S, rev_app_distr. reflexivity.
Qed.

Lemma encode_bits_ext (w : nat) (k k' : Z) :
  (forall i, 0 <= i < Z.of_nat w -> Z.testbit k i = Z.testbit k' i) ->
  encode_bits w k = encode_bits w k'.
Proof.
  intros H. unfold encode_bits. apply map_ext_in.
  intros i Hi. apply in_rev, in_seq in Hi. apply H. lia.
Qed.

Lemma testbit_top (b : bool) (d : Z) (n : nat) :
  0 <= d < 2 ^ Z.of_nat n ->
  Z.testbit (Z.b2z b * 2 ^ Z.of_nat n + d) (Z.of_nat n) = b.
Proof.
  intros Hd.
  rewrite Z.testbit_odd, Z.shiftr_div_pow2 by lia.
  rewrite Z.add_comm, Z.div_add by lia.
  rewrite Z.div_small by lia. destruct b; reflexivity.
Qed.

Lemma testbit_below (b : bool) (d : Z) (n : nat) (i : Z) :
  0 <= i < Z.of_nat n ->
  Z.testbit (Z.b2z b * 2 ^ Z.of_nat n + d) i = Z.testbit d i.
Proof.
  intros Hi.
  rewrite <- (Z.mod_pow2_bits_low _ (Z.of_nat n)) by lia.
  rewrite Z.add_comm, Z.mod_add by lia.
  apply Z.mod_pow2_bits_low. lia.
Qed.

(** Encoding is a left inverse of decoding at the length of the vector. *)
Lemma encode_decode (l : list bool) :
  encode_bits (List.length l) (decode l) = l.
Proof.
  induction l as [|b t IH]; [reflexivity|].
  simpl List.length. rewrite encode_bits_succ. simpl decode.
  rewrite testbit_top by apply decode_bound.
  f_equal. etransitivity; [|exact IH].
  apply encode_bits_ext. intros i Hi. now apply testbit_below.
Qed.

Lemma encode_bits_nth (w : nat) (k : Z) (i : nat) :
  (i < w)%nat ->
  nth_error (encode_bits w k) i = Some (Z.testbit k (Z.of_nat (w - 1 - i))).
Proof.
  intros Hi. unfold encode_bits.
  rewrite nth_error_map, nth_error_rev, length_seq.
  replace (i <? w)%nat with true by (symmetry; apply Nat.ltb_lt; lia).
  rewrite nth_error_seq.
  replace (w - S i <? w)%nat with true by (symmetry; apply Nat.ltb_lt; lia).
  simpl. do 3 f_equal. lia.
Qed.

Lemma decode_encode (w : nat) (k : Z) :
  decode (encode_bits w k) = k mod 2 ^ Z.of_nat w.
Proof.
  induction w as [|w IH].
  - simpl. now rewrite Z.mod_1_r.
  - rewrite encode_bits_succ. simpl decode.
    rewrite encode_bits_length, IH.
    rewrite Nat2Z.inj_succ, Z.pow_succ_r by lia.
    rewrite (Z.mul_comm 2), Z.rem_mul_r by lia.
    rewrite Z.testbit_odd, Z.shiftr_div_pow2 by lia.
    rewrite <- Z.bit0_mod, Z.bit0_odd. ring.
Qed.

Lemma decode_encode_small (w : nat) (k : Z) :
  0 <= k < 2 ^ Z.of_nat w -> decode (encode_bits w k) = k.
Proof.
  intros H. rewrite decode_encode. now apply Z.mod_small.
Qed.

(** A vector is determined by its length and its value. *)
Lemma decode_unique (l : list bool) (w : nat) (k : Z) :
  List.length l = w -> decode l = k -> l = encode_bits w k.
Proof.
  intros <- <-. symmetry. apply encode_decode.
Qed.

End Decode.

Section Bin.

Lemma list_ascii_app (s t : string) :
  list_ascii_of_string (s ++ t) =
  (list_ascii_of_string s ++ list_ascii_of_string t)%list.
Proof.
  induction s as [|c s IH]; simpl; [reflexivity | now rewrite IH].
Qed.

Lemma string_length_list (s : string) :
  String.length s = List.length (list_ascii_of_string s).
Proof.
  induction s as [|c s IH]; simpl; [reflexivity | now rewrite IH].
Qed.

Lemma digits_xO (p : positive) : digits p~0 = (digits p ++ [false])%list.
Proof.
  unfold digits. simpl bin_pos. now rewrite list_ascii_app, map_app.
Qed.

Lemma digits_xI (p : positive) : digits p~1 = (digits p ++ [true])%list.
Proof.
  unfold digits. simpl bin_pos. now rewrite list_ascii_app, map_app.
Qed.

Lemma decode_digits (p : positive) : decode (digits p) = Zpos p.
Proof.
  induction p as [p IH|p IH|].
  - rewrite digits_xI, decode_snoc, IH. simpl Z.b2z. lia.
  - rewrite digits_xO, decode_snoc, IH. simpl Z.b2z. lia.
  - reflexivity.
Qed.

Lemma digits_length_le (p : positive) (w : nat) :
  Zpos p < 2 ^ Z.of_nat w -> (List.length (digits p) <= w)%nat.
Proof.
  revert w. induction p as [p IH|p IH|]; intros w Hw.
  - destruct w as [|w]; [simpl in Hw; lia|].
    rewrite Nat2Z.inj_succ, Z.pow_succ_r in Hw by lia.
    rewrite digits_xI, length_app. simpl.
    specialize (IH w). lia.
  - destruct w as [|w]; [simpl in Hw; lia|].
    rewrite Nat2Z.inj_succ, Z.pow_succ_r in Hw by lia.
    rewrite digits_xO, length_app. simpl.
    specialize (IH w). lia.
  - destruct w as [|w]; [simpl in Hw; lia|]. simpl. lia.
Qed.

Lemma digits_length_gt (p : positive) (w : nat) :
  2 ^ Z.of_nat w <= Zpos p -> (w < List.length (digits p))%nat.
Proof.
  revert w. induction p as [p IH|p IH|]; intros w Hw.
  - rewrite digits_xI, length_app. simpl.
    destruct w as [|w]; [lia|].
    rewrite Nat2Z.inj_succ, Z.pow_succ_r in Hw by lia.
    specialize (IH w). lia.
  - rewrite digits_xO, length_app. simpl.
    destruct w as [|w]; [lia|].
    rewrite Nat2Z.inj_succ, Z.pow_succ_r in Hw by lia.
    specialize (IH w). lia.
  - destruct w as [|w]; [simpl; lia|].
    rewrite Nat2Z.inj_succ, Z.pow_succ_r in Hw by lia.
    assert (0 < 2 ^ Z.of_nat w) by (apply Z.pow_pos_nonneg; lia). lia.
Qed.

Lemma map_is_one_zeros (k : Z) :
  map is_one (list_ascii_of_string (zeros k)) = repeat false (Z.to_nat k).
Proof.
  unfold zeros. rewrite list_ascii_of_string_of_list_ascii.
  induction (Z.to_nat k) as [|n IH]; simpl; [reflexivity | now rewrite IH].
Qed.

(** The value [constructBooleanTree] returns on a positive key. *)
Lemma constructBooleanTree_pos (p : positive) (m : Z) :
  constructBooleanTree (Zpos p) m =
  Ok (repeat false (Z.to_nat (m - Z.of_nat (List.length (digits p))))
      ++ digits p)%list.
Proof.
  unfold constructBooleanTree. simpl string_drop.
  rewrite list_ascii_app, map_app, map_is_one_zeros.
  rewrite string_length_list. unfold digits. now rewrite length_map.
Qed.

Lemma constructBooleanTree_zero (m : Z) :
  constructBooleanTree 0 m = Ok (repeat false (Z.to_nat (m - 1)) ++ [false])%list.
Proof.
  unfold constructBooleanTree. simpl string_drop.
  rewrite list_ascii_app, map_app, map_is_one_zeros. reflexivity.
Qed.

(** In range, [constructBooleanTree] is the width-[w] encoding. *)
Lemma constructBooleanTree_encode (w : nat) (key : Z) :
  (1 <= w)%nat -> 0 <= key < 2 ^ Z.of_nat w ->
  constructBooleanTree key (Z.of_nat w) = Ok (encode_bits w key).
Proof.
  intros Hw Hk. destruct key as [|p|p]; [| |lia].
  - rewrite constructBooleanTree_zero. f_equal.
    apply decode_unique.
    + rewrite length_app, repeat_length. simpl. lia.
    + now rewrite decode_repeat_false.
  - rewrite constructBooleanTree_pos. f_equal.
    pose proof (digits_length_le p w (proj2 Hk)) as Hl.
    apply decode_unique.
    + rewrite length_app, repeat_length. lia.
    + rewrite decode_repeat_false. apply decode_digits.
Qed.

End Bin.

Section Increment.

Lemma all_true_dec (l : list bool) : {In false l} + {~ In false l}.
Proof. apply in_dec, Bool.bool_dec. Qed.

Lemma incBT_all_true (l : list bool) :
  ~ In false l -> incBT l = Raise IndexError.
Proof.
  induction l as [|h m IH]; intros Hn; [reflexivity|].
  destruct h; simpl.
  - rewrite IH; [reflexivity|]. intros H. apply Hn. now right.
  - exfalso. apply Hn. now left.
Qed.

Lemma incBT_defined (l : list bool) :
  In false l ->
  exists r, incBT l = Ok r /\ List.length r = List.length l /\
            decode (rev r) = decode (rev l) + 1 /\
            h_distance l r = S (leading_ones l).
Proof.
  induction l as [|h m IH]; intros Hin; [destruct Hin|].
  destruct h; simpl incBT.
  - destruct Hin as [Hin|Hin]; [discriminate|].
    destruct (IH Hin) as (r & -> & Hlen & Hdec & Hd).
    exists (false :: r). simpl. repeat split.
    + now rewrite Hlen.
    + rewrite !decode_snoc, Hdec. simpl Z.b2z. ring.
    + now rewrite Hd.
  - exists (true :: m). simpl. repeat split.
    + rewrite !decode_snoc. simpl Z.b2z. ring.
    + f_equal. clear. induction m as [|a m IH]; [reflexivity|].
      simpl. rewrite Bool.eqb_reflx. exact IH.
Qed.

Lemma incBT_raises_only_IndexError (l : list bool) (e : exn) :
  incBT l = Raise e -> e = IndexError /\ ~ In false l.
Proof.
  intros H. destruct (all_true_dec l) as [Hin|Hn].
  - destruct (incBT_defined l Hin) as (r & Hr & _). congruence.
  - rewrite (incBT_all_true l Hn) in H. split; [congruence | exact Hn].
Qed.

Lemma h_distance_snoc (a b : list bool) (x y : bool) :
  List.length a = List.length b ->
  h_distance (a ++ [x]) (b ++ [y]) =
  (h_distance a b + (if Bool.eqb x y then 0 else 1))%nat.
Proof.
  revert b. induction a as [|u a IH]; intros [|v b] Hlen;
    try discriminate; simpl.
  - lia.
  - rewrite IH by (simpl in Hlen; lia). lia.
Qed.

Lemma h_distance_rev (a b : list bool) :
  List.length a = List.length b ->
  h_distance (rev a) (rev b) = h_distance a b.
Proof.
  revert b. induction a as [|u a IH]; intros [|v b] Hlen;
    try discriminate; [reflexivity|].
  simpl rev. rewrite h_distance_snoc by (rewrite !length_rev; simpl in Hlen; lia).
  rewrite IH by (simpl in Hlen; lia). simpl. lia.
Qed.

Lemma in_false_rev (l : list bool) : In false l <-> In false (rev l).
Proof. apply in_rev. Qed.

(** What [incrementBooleanTree] returns on a path with a [False] bit. *)
Lemma incrementBooleanTree_defined (n : list bool) :
  In false n ->
  exists inc, incrementBooleanTree n = Ok inc /\
              List.length inc = List.length n /\
              decode inc = decode n + 1 /\
              h_distance n inc = S (trailing_ones n).
Proof.
  intros Hin. apply in_false_rev in Hin.
  destruct (incBT_defined _ Hin) as (r & Hr & Hlen & Hdec & Hd).
  exists (rev r). unfold incrementBooleanTree. rewrite Hr. simpl.
  rewrite rev_involutive in Hdec. rewrite length_rev in *.
  repeat split; try assumption.
  rewrite <- (rev_involutive n) at 1.
  rewrite h_distance_rev by (rewrite length_rev; lia). exact Hd.
Qed.

Lemma incrementBooleanTree_all_true (n : list bool) :
  ~ In false n -> incrementBooleanTree n = Raise IndexError.
Proof.
  intros Hn. unfold incrementBooleanTree.
  rewrite incBT_all_true; [reflexivity|].
  intros H. apply Hn. now apply in_false_rev.
Qed.

Lemma decode_all_true (l : list bool) :
  ~ In false l -> decode l = 2 ^ Z.of_nat (List.length l) - 1.
Proof.
  induction l as [|b t IH]; intros Hn; [reflexivity|].
  destruct b; [|exfalso; apply Hn; now left].
  cbn [decode List.length]. rewrite IH by (intros H; apply Hn; now right).
  rewrite Nat2Z.inj_succ, Z.pow_succ_r by lia. simpl Z.b2z. lia.
Qed.

(** The increment of the encoding of [k] is the encoding of [k + 1]. *)
Lemma increment_encode (w : nat) (k : Z) :
  0 <= k < 2 ^ Z.of_nat w - 1 ->
  incrementBooleanTree (encode_bits w k) = Ok (encode_bits w (k + 1)).
Proof.
  intros Hk.
  assert (Hd : decode (encode_bits w k) = k) by (apply decode_encode_small; lia).
  destruct (all_true_dec (encode_bits w k)) as [Hin|Hn].
  - destruct (incrementBooleanTree_defined _ Hin) as (inc & -> & Hlen & Hdec & _).
    f_equal. apply decode_unique.
    + now rewrite Hlen, encode_bits_length.
    + now rewrite Hdec, Hd.
  - apply decode_all_true in Hn. rewrite encode_bits_length in Hn. lia.
Qed.

End Increment.

Section Store.

Lemma set_nth_last (s : store) (x l : list bool) :
  set_nth (List.length s) l (s ++ [x]) = (s ++ [l])%list.
Proof.
  induction s as [|y s IH]; simpl; [reflexivity | now rewrite IH].
Qed.

Lemma deref_last (s : store) (x : list bool) :
  deref (s ++ [x]) (List.length s) = Ok x.
Proof.
  unfold deref. rewrite nth_error_app2 by lia.
  now rewrite Nat.sub_diag.
Qed.

(** The object-level function allocates two lists after the end of the
    store and returns the second one. *)
Lemma incrementBooleanTree_obj_eq (s : store) (n : ref) (l : list bool) :
  nth_error s n = Some l ->
  incrementBooleanTree_obj n s =
  (r <- incBT (rev l) ;;
   Ok (S (List.length s), ((s ++ [rev l]) ++ [rev r])%list)).
Proof.
  intros Hn. unfold incrementBooleanTree_obj, list_copy, list_reverse, alloc.
  unfold deref at 1. rewrite Hn. cbn [bind].
  rewrite deref_last. cbn [bind]. rewrite set_nth_last, deref_last. cbn [bind].
  destruct (incBT (rev l)) as [v|e]; cbn [bind]; [|reflexivity].
  replace (List.length (s ++ [rev l])) with (S (List.length s))
    by (rewrite length_app; simpl; lia).
  replace (S (List.length s)) with (List.length (s ++ [rev l]))
    by (rewrite length_app; simpl; lia).
  rewrite deref_last. cbn [bind]. now rewrite set_nth_last.
Qed.

End Store.

(** C5: for every [k] in [[0, 2^W - 1)], incrementing the W-bit encoding of
    [k] built by [constructBooleanTree] gives the encoding of [k + 1], and
    the incremented vector decodes to [k + 1]. *)
Theorem C5_increment_of_encoding (w : nat) (k : Z) :
  0 <= k < 2 ^ Z.of_nat w - 1 ->
  exists e e',
    constructBooleanTree k (Z.of_nat w) = Ok e /\
    constructBooleanTree (k + 1) (Z.of_nat w) = Ok e' /\
    incrementBooleanTree e = Ok e' /\
    decode e' = k + 1.
Proof.
  intros Hk.
  assert (Hw : (1 <= w)%nat).
  { destruct w; [simpl in Hk; lia | lia]. }
  exists (encode_bits w k), (encode_bits w (k + 1)).
  repeat split.
  - apply constructBooleanTree_encode; [exact Hw | lia].
  - apply constructBooleanTree_encode; [exact Hw | lia].
  - now apply increment_encode.
  - apply decode_encode_small. lia.
Qed.

Lemma C5_increment_of_encoding_witness :
  exists e e',
    constructBooleanTree 5 (Z.of_nat 3) = Ok e /\
    constructBooleanTree (5 + 1) (Z.of_nat 3) = Ok e' /\
    incrementBooleanTree e = Ok e' /\
    decode e' = 5 + 1.
Proof. apply (C5_increment_of_encoding 3 5). simpl. lia. Defined.


(** C6, as stated, fails: on a key that does not fit the width the function
    raises nothing and returns the digits of the key, more than [width] of
    them. *)
Lemma C6_no_ValueError_counterexample :
  2 ^ 2 <= 4 /\
  constructBooleanTree 4 2 = Ok [true; false; false] /\
  constructBooleanTree 4 2 <> Raise ValueError.
Proof.
  split; [simpl; lia|]. split; [reflexivity | discriminate].
Qed.

(** C6 (amended): for a width of at least 1 and a key in [[0, 2^width)],
    [constructBooleanTree] returns the width-bit encoding of the key, most
    significant bit first and padded with zeros; for a key at or above
    [2^width] it raises nothing and returns the digits of the key without
    padding, which are more than [width] bits. *)
Theorem C6_constructBooleanTree_encoding (w : nat) (key : Z) :
  ((1 <= w)%nat -> 0 <= key < 2 ^ Z.of_nat w ->
   constructBooleanTree key (Z.of_nat w) = Ok (encode_bits w key) /\
   List.length (encode_bits w key) = w /\
   forall i, (i < w)%nat ->
     nth_error (encode_bits w key) i =
     Some (Z.testbit key (Z.of_nat (w - 1 - i)))) /\
  (2 ^ Z.of_nat w <= key ->
   exists l, constructBooleanTree key (Z.of_nat w) = Ok l /\
             (w < List.length l)%nat /\ decode l = key).
Proof.
  split.
  - intros Hw Hk. split; [now apply constructBooleanTree_encode|].
    split; [apply encode_bits_length|].
    intros i Hi. now apply encode_bits_nth.
  - intros Hk.
    assert (0 < 2 ^ Z.of_nat w) by (apply Z.pow_pos_nonneg; lia).
    destruct key as [|p|p]; try lia.
    rewrite constructBooleanTree_pos.
    pose proof (digits_length_gt p w Hk) as Hl.
    replace (Z.to_nat (Z.of_nat w - Z.of_nat (List.length (digits p))))
      with O by lia.
    exists (digits p). simpl. repeat split; [exact Hl | apply decode_digits].
Qed.

Lemma C6_constructBooleanTree_encoding_witness :
  constructBooleanTree 5 (Z.of_nat 4) = Ok (encode_bits 4 5) /\
  exists l, constructBooleanTree 9 (Z.of_nat 3) = Ok l /\
            (3 < List.length l)%nat /\ decode l = 9.
Proof.
  split.
  - apply (proj1 (C6_constructBooleanTree_encoding 4 5)); simpl; lia.
  - apply (proj2 (C6_constructBooleanTree_encoding 3 9)); simpl; lia.
Defined.

(** C9: [incrementBooleanTree] raises exactly when its input holds no
    [False] (an IndexError, from the head of an empty list); on an input
    with a [False] it returns a new list of the same length and leaves the
    input list, and every other list of the store, as it was. *)
Theorem C9_increment_raises_iff_all_true
    (s : store) (n : ref) (l : list bool) :
  nth_error s n = Some l ->
  ((exists e, incrementBooleanTree_obj n s = Raise e) <-> ~ In false l) /\
  (forall e, incrementBooleanTree_obj n s = Raise e -> e = IndexError) /\
  (In false l ->
   exists n' s' l',
     incrementBooleanTree_obj n s = Ok (n', s') /\
     nth_error s' n' = Some l' /\
     incrementBooleanTree l = Ok l' /\
     List.length l' = List.length l /\
     n' <> n /\
     forall r, (r < List.length s)%nat -> nth_error s' r = nth_error s r).
Proof.
  intros Hn. rewrite (incrementBooleanTree_obj_eq s n l Hn).
  assert (Hlt : (n < List.length s)%nat).
  { apply nth_error_Some. congruence. }
  split; [|split].
  - split.
    + intros [e He] Hin. apply in_false_rev in Hin.
      destruct (incBT_defined _ Hin) as (r & Hr & _).
      rewrite Hr in He. discriminate.
    + intros Hall. exists IndexError.
      rewrite incBT_all_true; [reflexivity|].
      intros H. apply Hall. now apply in_false_rev.
  - intros e He. destruct (incBT (rev l)) as [v|e'] eqn:Hv; [discriminate|].
    simpl in He. apply incBT_raises_only_IndexError in Hv. destruct Hv. congruence.
  - intros Hin.
    destruct (incrementBooleanTree_defined l Hin) as (inc & Hinc & Hlen & _).
    unfold incrementBooleanTree in Hinc.
    destruct (incBT (rev l)) as [v|e'] eqn:Hv; [|discriminate].
    simpl in Hinc. injection Hinc as <-.
    exists (S (List.length s)), ((s ++ [rev l]) ++ [rev v])%list, (rev v).
    cbn [bind]. repeat split.
    + rewrite nth_error_app2 by (rewrite length_app; simpl; lia).
      rewrite length_app. cbn [List.length].
      replace (S (List.length s) - (List.length s + 1))%nat with O by lia.
      reflexivity.
    + unfold incrementBooleanTree. now rewrite Hv.
    + exact Hlen.
    + lia.
    + intros r Hr. rewrite <- app_assoc. now apply nth_error_app1.
Qed.

Lemma C9_increment_raises_iff_all_true_witness :
  exists n' s' l',
    incrementBooleanTree_obj 0%nat [[true; false; true]] = Ok (n', s') /\
    nth_error s' n' = Some l' /\
    incrementBooleanTree [true; false; true] = Ok l' /\
    List.length l' = 3%nat /\
    n' <> 0%nat /\
    forall r, (r < 1)%nat -> nth_error s' r = nth_error [[true; false; true]] r.
Proof.
  apply (C9_increment_raises_iff_all_true [[true; false; true]] 0%nat
           [true; false; true] eq_refl).
  simpl. right. now left.
Defined.

End CodecFacts.

(** * Facts about the simulation *)

Module SimFacts.

Import Sim.

Lemma qubit_eqb_spec (p q : qubit) : reflect (p = q) (qubit_eqb p q).
Proof.
  destruct p as [|i|i|i], q as [|j|j|j]; simpl;
    try (constructor; congruence);
    destruct (Nat.eqb_spec i j); constructor; congruence.
Qed.

Lemma qubit_eqb_refl (q : qubit) : qubit_eqb q q = true.
Proof. destruct (qubit_eqb_spec q q); congruence. Qed.

Lemma qubit_eqb_neq (p q : qubit) : p <> q -> qubit_eqb p q = false.
Proof. destruct (qubit_eqb_spec p q); congruence. Qed.

Lemma upd_same (st : state) (q : qubit) (v : bool) : upd st q v q = v.
Proof. unfold upd. now rewrite qubit_eqb_refl. Qed.

Lemma upd_other (st : state) (q q' : qubit) (v : bool) :
  q <> q' -> upd st q v q' = st q'.
Proof. intros H. unfold upd. now rewrite qubit_eqb_neq. Qed.

(** Case analysis on every comparison of qubits in the goal, then on the
    bits read from the state. *)
Ltac qubit_cases :=
  repeat match goal with
         | |- context [qubit_eqb ?a ?b] =>
             destruct (qubit_eqb_spec a b); subst; try congruence
         end.

Ltac bool_cases s :=
  repeat match goal with
         | |- context [s ?x] => destruct (s x)
         end;
  try reflexivity.

(** [same_state] is an equivalence that every gate respects. *)
Lemma same_state_refl (s : state) : same_state s s.
Proof. intros q. reflexivity. Qed.

Lemma same_state_sym (s t : state) : same_state s t -> same_state t s.
Proof. intros H q. symmetry. apply H. Qed.

Lemma same_state_trans (s t u : state) :
  same_state s t -> same_state t u -> same_state s u.
Proof. intros H1 H2 q. now rewrite H1. Qed.

Lemma upd_ext (s t : state) (q : qubit) (v w : bool) :
  same_state s t -> v = w -> same_state (upd s q v) (upd t q w).
Proof.
  intros H -> q'. unfold upd. destruct (qubit_eqb q q'); [reflexivity | apply H].
Qed.

Lemma apply_gate_ext (g : gate) (s t : state) :
  same_state s t -> same_state (apply_gate g s) (apply_gate g t).
Proof.
  intros H. destruct g; simpl; try assumption;
    apply upd_ext; try assumption; now rewrite ?H.
Qed.

Lemma run_gates_ext (gs : list gate) (s t : state) :
  same_state s t -> same_state (run_gates gs s) (run_gates gs t).
Proof.
  revert s t. induction gs as [|g gs IH]; intros s t H; simpl; [exact H|].
  apply IH. now apply apply_gate_ext.
Qed.

Lemma run_gates_app (g1 g2 : list gate) (s : state) :
  run_gates (g1 ++ g2) s = run_gates g2 (run_gates g1 s).
Proof. unfold run_gates. apply fold_left_app. Qed.

Lemma run_gates_single (g : gate) (s : state) :
  run_gates [g] s = apply_gate g s.
Proof. reflexivity. Qed.

Lemma run_app (c1 c2 : circuit) (c : config) :
  run (c1 ++ c2) c = run c2 (run c1 c).
Proof. unfold run. apply fold_left_app. Qed.

Lemma run_gates_circuit (gs : list gate) (s : state) (f : list (list gate)) :
  run (gates gs) (s, f) = (run_gates gs s, f).
Proof.
  revert s. induction gs as [|g gs IH]; intros s; simpl; [reflexivity|].
  apply IH.
Qed.

Lemma run_ext (c : circuit) (s t : state) (f : list (list gate)) :
  same_state s t ->
  same_state (fst (run c (s, f))) (fst (run c (t, f))) /\
  snd (run c (s, f)) = snd (run c (t, f)).
Proof.
  revert s t f. induction c as [|i c IH]; intros s t f H; simpl.
  - split; [exact H | reflexivity].
  - destruct i as [g|ctrl body]; simpl.
    + apply IH. now apply apply_gate_ext.
    + rewrite (H ctrl). apply IH. now apply run_gates_ext.
Qed.

(** A gate changes only the qubits it writes. *)
Lemma apply_gate_frame (g : gate) (s : state) (q : qubit) :
  ~ In q (writes g) -> apply_gate g s q = s q.
Proof.
  destruct g; simpl; intros H; try reflexivity;
    apply upd_other; intros ->; apply H; now left.
Qed.

Lemma run_gates_frame (gs : list gate) (s : state) (q : qubit) :
  (forall g, In g gs -> ~ In q (writes g)) -> run_gates gs s q = s q.
Proof.
  revert s. induction gs as [|g gs IH]; intros s H; simpl; [reflexivity|].
  rewrite IH by (intros g' Hg'; apply H; now right).
  apply apply_gate_frame. apply H. now left.
Qed.

Lemma targets_only_frame (gs : list gate) (s : state) (q : qubit) :
  targets_only gs = true -> is_tgt q = false -> run_gates gs s q = s q.
Proof.
  intros Ht Hq. apply run_gates_frame. intros g Hg Hin.
  unfold targets_only in Ht. rewrite forallb_forall in Ht.
  specialize (Ht g Hg). rewrite forallb_forall in Ht.
  specialize (Ht q Hin). congruence.
Qed.

(** The conditional primitive flips its target exactly when both controls
    have the required polarity. *)
Lemma toffoli_sem (b0 b1 : bool) (c0 c1 t : qubit) (s : state) :
  c0 <> t -> c1 <> t -> c0 <> c1 ->
  same_state (run_gates (toffoli b0 b1 c0 c1 t) s)
    (upd s t (xorb (s t) (Bool.eqb (s c0) b0 && Bool.eqb (s c1) b1))).
Proof.
  intros H0 H1 H01 q.
  destruct b0, b1; unfold toffoli, run_gates; simpl; unfold upd;
    qubit_cases; bool_cases s.
Qed.


Lemma forallb_ext_in {A : Type} (f g : A -> bool) (l : list A) :
  (forall x, In x l -> f x = g x) -> forallb f l = forallb g l.
Proof.
  induction l as [|a l IH]; intros H; simpl; [reflexivity|].
  rewrite (H a) by now left. rewrite IH; [reflexivity|].
  intros x Hx. apply H. now right.
Qed.

Section Chain.

Variable w : nat.

Lemma pre_top (st : state) (k : Z) (i : nat) :
  (w <= i)%nat -> pre w st k i = st Phs.
Proof.
  intros H. unfold pre. replace (w - i)%nat with O by lia.
  simpl. apply andb_true_r.
Qed.

Lemma pre_step (st : state) (k : Z) (i : nat) :
  (i < w)%nat -> pre w st k i = pre w st k (S i) && bit_match w st k i.
Proof.
  intros H. unfold pre.
  replace (w - i)%nat with (S (w - S i)) by lia. simpl.
  now rewrite (andb_comm (bit_match w st k i)), andb_assoc.
Qed.

Lemma pre_ext_state (s t : state) (k : Z) (i : nat) :
  s Phs = t Phs -> (forall j, s (Ctl j) = t (Ctl j)) ->
  pre w s k i = pre w t k i.
Proof.
  intros Hp Hc. unfold pre. rewrite Hp. f_equal.
  apply forallb_ext_in. intros j _. unfold bit_match, aq. now rewrite Hc.
Qed.

Lemma pre_ext_key (st : state) (k k' : Z) (i : nat) :
  (forall j, (i <= j < w)%nat ->
     Z.testbit k (Z.of_nat j) = Z.testbit k' (Z.of_nat j)) ->
  pre w st k i = pre w st k' i.
Proof.
  intros H. unfold pre. f_equal.
  apply forallb_ext_in. intros j Hj. apply in_seq in Hj.
  unfold bit_match. rewrite H by lia. reflexivity.
Qed.

Lemma bq_index (j : nat) : (j < w)%nat -> (w - 1 - (w - 1 - j))%nat = j.
Proof. lia. Qed.

Lemma set_chain_bq (st : state) (k : Z) (i j : nat) :
  (j < w)%nat ->
  set_chain w st k i (bq w j) = if (i <=? j)%nat then pre w st k j else false.
Proof.
  intros H. unfold set_chain, bq.
  replace (w - 1 - j <? w)%nat with true by (symmetry; apply Nat.ltb_lt; lia).
  now rewrite bq_index.
Qed.

Lemma set_chain_phs (st : state) (k : Z) (i : nat) :
  set_chain w st k i Phs = st Phs.
Proof. reflexivity. Qed.

Lemma set_chain_ctl (st : state) (k : Z) (i j : nat) :
  set_chain w st k i (Ctl j) = st (Ctl j).
Proof. reflexivity. Qed.

Lemma set_chain_tgt (st : state) (k : Z) (i j : nat) :
  set_chain w st k i (Tgt j) = st (Tgt j).
Proof. reflexivity. Qed.

Lemma set_chain_ext_key (st : state) (k k' : Z) (i : nat) :
  (forall j, (i <= j < w)%nat ->
     Z.testbit k (Z.of_nat j) = Z.testbit k' (Z.of_nat j)) ->
  same_state (set_chain w st k i) (set_chain w st k' i).
Proof.
  intros H [|n|n|n]; try reflexivity. simpl.
  destruct (Nat.ltb_spec n w); [|reflexivity].
  destruct (Nat.leb_spec i (w - 1 - n)); [|reflexivity].
  apply pre_ext_key. intros j Hj. apply H. lia.
Qed.

Lemma set_chain_ext_state (s t : state) (k : Z) (i : nat) :
  same_state s t -> same_state (set_chain w s k i) (set_chain w t k i).
Proof.
  intros H [|n|n|n]; simpl; try apply H.
  destruct (Nat.ltb_spec n w); [|apply H].
  destruct (Nat.leb_spec i (w - 1 - n)); [|reflexivity].
  apply pre_ext_state; intros; apply H.
Qed.


Lemma set_chain_succ_other (st : state) (k : Z) (i : nat) (q : qubit) :
  q <> bq w i -> set_chain w st k (S i) q = set_chain w st k i q.
Proof.
  intros Hq. destruct q as [|n|n|n]; try reflexivity. unfold set_chain.
  destruct (Nat.ltb_spec n w); [|reflexivity].
  destruct (Nat.leb_spec (S i) (w - 1 - n)), (Nat.leb_spec i (w - 1 - n));
    try reflexivity; try (exfalso; lia).
  exfalso. apply Hq. unfold bq. f_equal. lia.
Qed.

Lemma chain_ctl_value (st : state) (k : Z) (i j : nat) :
  (i < w)%nat -> (j <= S i)%nat ->
  set_chain w st k j (chain_ctl w i) = pre w st k (S i).
Proof.
  intros Hi Hj. unfold chain_ctl.
  destruct (Nat.eqb_spec (i + 1) w) as [E|E].
  - rewrite set_chain_phs. symmetry. apply pre_top. lia.
  - rewrite set_chain_bq by lia.
    replace (j <=? i + 1)%nat with true by (symmetry; apply Nat.leb_le; lia).
    f_equal. lia.
Qed.

Lemma chain_ctl_neq_bq (i : nat) : (i < w)%nat -> chain_ctl w i <> bq w i.
Proof.
  intros Hi. unfold chain_ctl, bq.
  destruct (Nat.eqb_spec (i + 1) w); [discriminate|].
  intros H. injection H. lia.
Qed.

Lemma chain_ctl_neq_aq (i : nat) : chain_ctl w i <> aq w i.
Proof.
  unfold chain_ctl, aq, bq. destruct (Nat.eqb (i + 1) w); discriminate.
Qed.

Lemma aq_neq_bq (i j : nat) : aq w i <> bq w j.
Proof. discriminate. Qed.

(** The chain step at position [i] extends a chain built down to [i + 1]. *)
Lemma chain_step_build (b : state) (k : Z) (i : nat) (st : state) :
  (i < w)%nat ->
  same_state st (set_chain w b k (S i)) ->
  same_state (run_gates (chain_step w k i) st) (set_chain w b k i).
Proof.
  intros Hi H q. unfold chain_step.
  rewrite toffoli_sem
    by (auto using chain_ctl_neq_bq, chain_ctl_neq_aq, aq_neq_bq).
  unfold upd. destruct (qubit_eqb_spec (bq w i) q) as [<-|Hq].
  - rewrite !H, chain_ctl_value, !set_chain_bq by lia.
    replace (S i <=? i)%nat with false by (symmetry; apply Nat.leb_gt; lia).
    rewrite Nat.leb_refl, (pre_step b k i Hi). unfold bit_match.
    unfold aq. rewrite set_chain_ctl.
    destruct (pre w b k (S i)); reflexivity.
  - rewrite H. apply set_chain_succ_other. congruence.
Qed.

(** The same step takes the chain built down to [i] back to [i + 1]. *)
Lemma chain_step_unbuild (b : state) (k : Z) (i : nat) (st : state) :
  (i < w)%nat ->
  same_state st (set_chain w b k i) ->
  same_state (run_gates (chain_step w k i) st) (set_chain w b k (S i)).
Proof.
  intros Hi H q. unfold chain_step.
  rewrite toffoli_sem
    by (auto using chain_ctl_neq_bq, chain_ctl_neq_aq, aq_neq_bq).
  unfold upd. destruct (qubit_eqb_spec (bq w i) q) as [<-|Hq].
  - rewrite !H, chain_ctl_value, !set_chain_bq by lia.
    replace (S i <=? i)%nat with false by (symmetry; apply Nat.leb_gt; lia).
    rewrite Nat.leb_refl, (pre_step b k i Hi). unfold bit_match.
    unfold aq. rewrite set_chain_ctl.
    destruct (pre w b k (S i)), (Bool.eqb _ _); reflexivity.
  - rewrite H. symmetry. apply set_chain_succ_other. congruence.
Qed.

(** Building the chain from position [i + n] down to [i]. *)
Lemma build_sem (b : state) (k : Z) (n i : nat) (st : state) :
  (i + n <= w)%nat ->
  same_state st (set_chain w b k (i + n)) ->
  same_state (run_gates (flat_map (chain_step w k) (rev (seq i n))) st)
    (set_chain w b k i).
Proof.
  revert i st. induction n as [|n IH]; intros i st Hn H.
  - simpl. now rewrite Nat.add_0_r in H.
  - simpl seq. simpl rev. rewrite flat_map_app, run_gates_app. simpl flat_map.
    rewrite app_nil_r. apply chain_step_build; [lia|].
    apply IH; [lia|]. now replace (S i + n)%nat with (i + S n)%nat by lia.
Qed.

(** Unwinding the chain from position [i] up to [i + n]. *)
Lemma unbuild_sem (b : state) (k : Z) (n i : nat) (st : state) :
  (i + n <= w)%nat ->
  same_state st (set_chain w b k i) ->
  same_state (run_gates (flat_map (chain_step w k) (seq i n)) st)
    (set_chain w b k (i + n)).
Proof.
  revert i st. induction n as [|n IH]; intros i st Hn H.
  - simpl. now rewrite Nat.add_0_r.
  - simpl seq. simpl flat_map. rewrite run_gates_app.
    replace (i + S n)%nat with (S i + n)%nat by lia.
    apply IH; [lia|]. now apply chain_step_unbuild; [lia|].
Qed.

(** The controlled NOT at the highest position [c] where two keys differ
    turns the chain of the first key, built down to [c], into the chain of
    the second. *)
Lemma flip_sem (b : state) (prev next : Z) (c : nat) (st : state) :
  (c < w)%nat ->
  (forall j, (c < j < w)%nat ->
     Z.testbit prev (Z.of_nat j) = Z.testbit next (Z.of_nat j)) ->
  Z.testbit prev (Z.of_nat c) <> Z.testbit next (Z.of_nat c) ->
  same_state st (set_chain w b prev c) ->
  same_state (apply_gate (CX_on (chain_ctl w c) (bq w c)) st)
    (set_chain w b next c).
Proof.
  intros Hc Hhi Hd H q. simpl. unfold upd.
  assert (Hpre : pre w b prev (S c) = pre w b next (S c)).
  { apply pre_ext_key. intros j Hj. apply Hhi. lia. }
  destruct (qubit_eqb_spec (bq w c) q) as [<-|Hq].
  - rewrite !H, chain_ctl_value, !set_chain_bq by lia.
    rewrite Nat.leb_refl, !(pre_step b _ c Hc), Hpre. unfold bit_match.
    destruct (Z.testbit prev (Z.of_nat c)), (Z.testbit next (Z.of_nat c));
      try congruence;
      destruct (pre w b next (S c)), (b (aq w c)); reflexivity.
  - rewrite H. destruct q as [|n|n|n]; try reflexivity. simpl.
    destruct (Nat.ltb_spec n w); [|reflexivity].
    destruct (Nat.leb_spec c (w - 1 - n)); [|reflexivity].
    apply pre_ext_key. intros j Hj. apply Hhi.
    assert (w - 1 - n <> c)%nat.
    { intros E. apply Hq. unfold bq. f_equal. lia. }
    lia.
Qed.

End Chain.

End SimFacts.

(** * Facts about the walk *)

Module WalkFacts.

Import Sim SimFacts Walk.

Lemma py_index_nth_error {A : Type} (l : list A) (i : nat) (a : A) :
  nth_error l i = Some a -> py_index l (Z.of_nat i) = Ok a.
Proof.
  intros H. unfold py_index.
  assert (Hlt : (i < List.length l)%nat) by (apply nth_error_Some; congruence).
  replace (Z.of_nat i <? 0) with false by (symmetry; apply Z.ltb_ge; lia).
  replace (0 <=? Z.of_nat i) with true by (symmetry; apply Z.leb_le; lia).
  replace (Z.of_nat i <? Z.of_nat (List.length l)) with true
    by (symmetry; apply Z.ltb_lt; lia).
  simpl. now rewrite Nat2Z.id, H.
Qed.

Lemma nth_error_rev_reg (f : nat -> qubit) (w i : nat) :
  (i < w)%nat -> nth_error (rev (map f (seq 0 w))) i = Some (f (w - 1 - i)%nat).
Proof.
  intros H. rewrite nth_error_rev, length_map, length_seq.
  replace (i <? w)%nat with true by (symmetry; apply Nat.ltb_lt; lia).
  rewrite nth_error_map, nth_error_seq.
  replace (w - S i <? w)%nat with true by (symmetry; apply Nat.ltb_lt; lia).
  simpl. do 2 f_equal. lia.
Qed.

Lemma ctl_sense_testbit (key : Z) (i : nat) :
  ctl_sense key i = Z.testbit key (Z.of_nat i).
Proof.
  unfold ctl_sense. rewrite Z.testbit_odd, Zmod_odd.
  destruct (Z.odd _); reflexivity.
Qed.

Section Emit.

Variable w : nat.

Local Abbreviation addrQubits := (rev (ctl_reg w)).
Local Abbreviation ancQubits := (rev (anc_reg w)).

Lemma addr_index (i : nat) :
  (i < w)%nat -> py_index addrQubits (Z.of_nat i) = Ok (aq w i).
Proof. intros H. apply py_index_nth_error. now apply nth_error_rev_reg. Qed.

Lemma anc_index (i : nat) :
  (i < w)%nat -> py_index ancQubits (Z.of_nat i) = Ok (bq w i).
Proof. intros H. apply py_index_nth_error. now apply nth_error_rev_reg. Qed.

Lemma anc_length : List.length ancQubits = w.
Proof.
  unfold anc_reg. now rewrite length_rev, length_map, length_seq.
Qed.

Lemma chain_toffoli_eq (key : Z) (ci : nat) :
  (ci < w)%nat ->
  chain_toffoli w Phs addrQubits ancQubits key ci = Ok (chain_step w key ci).
Proof.
  intros H. unfold chain_toffoli, chain_step, chain_ctl.
  rewrite ctl_sense_testbit.
  destruct (Nat.eqb_spec (ci + 1) w) as [E|E].
  - now rewrite addr_index, anc_index by lia.
  - now rewrite !anc_index, addr_index by lia.
Qed.

Lemma chain_loop_eq (key : Z) (cis : list nat) (circ : circuit) :
  Forall (fun ci => (ci < w)%nat) cis ->
  chain_loop w Phs addrQubits ancQubits key cis circ =
  Ok (circ ++ gates (flat_map (chain_step w key) cis)).
Proof.
  intros H. revert circ. induction H as [|ci cis Hci _ IH]; intros circ; simpl.
  - now rewrite app_nil_r.
  - rewrite chain_toffoli_eq by exact Hci. simpl. rewrite IH.
    unfold gates. now rewrite map_app, app_assoc.
Qed.

Lemma chain_ctl_below (ci : nat) :
  (ci + 1 < w)%nat -> chain_ctl w ci = bq w (ci + 1).
Proof.
  intros H. unfold chain_ctl.
  destruct (Nat.eqb_spec (ci + 1) w); [lia | reflexivity].
Qed.

(** The clearing loop stops at the first position from which the two keys
    agree on all higher bits, having emitted one step per position passed. *)
Lemma clear_loop_eq (prev next : Z) (c n ci fuel : nat) (circ : circuit) :
  (c < w)%nat -> (ci + n = c)%nat -> (n <= fuel)%nat ->
  (forall j, (j < c)%nat ->
     Z.shiftr prev (Z.of_nat (j + 1)) <> Z.shiftr next (Z.of_nat (j + 1))) ->
  Z.shiftr prev (Z.of_nat (c + 1)) = Z.shiftr next (Z.of_nat (c + 1)) ->
  clear_loop fuel addrQubits ancQubits prev next ci circ =
  Ok (c, circ ++ gates (flat_map (chain_step w prev) (seq ci n))).
Proof.
  intros Hc. revert ci fuel circ.
  induction n as [|n IH]; intros ci fuel circ Hn Hf Hne Heq.
  - replace ci with c by lia. destruct fuel; simpl;
      rewrite Heq, Z.eqb_refl, app_nil_r; reflexivity.
  - destruct fuel as [|fuel]; [lia|].
    cbn [clear_loop].
    destruct (Z.eqb_spec (Z.shiftr prev (Z.of_nat (ci + 1)))
                (Z.shiftr next (Z.of_nat (ci + 1)))) as [E|E].
    { exfalso. apply (Hne ci); [lia | exact E]. }
    rewrite !anc_index, addr_index by lia. cbn [bind].
    rewrite (IH (S ci) fuel) by (assumption || lia).
    rewrite ctl_sense_testbit.
    f_equal. f_equal. simpl seq. simpl flat_map.
    unfold gates. rewrite map_app, app_assoc. do 2 f_equal.
    unfold chain_step. now rewrite chain_ctl_below by lia.
Qed.

Lemma flip_gate_eq (c : nat) :
  (c < w)%nat ->
  flip_gate w Phs ancQubits c = Ok (CX_on (chain_ctl w c) (bq w c)).
Proof.
  intros H. unfold flip_gate, chain_ctl.
  destruct (Nat.eqb_spec (c + 1) w) as [E|E].
  - now rewrite anc_index by lia.
  - now rewrite !anc_index by lia.
Qed.

Lemma rebuild_loop_eq (key : Z) (ci : nat) (circ : circuit) :
  (ci < w)%nat ->
  rebuild_loop addrQubits ancQubits key ci circ =
  Ok (circ ++ gates (flat_map (chain_step w key) (rev (seq 0 ci)))).
Proof.
  revert circ. induction ci as [|ci IH]; intros circ H.
  - simpl. now rewrite app_nil_r.
  - cbn [rebuild_loop].
    rewrite !anc_index, addr_index by lia. cbn [bind].
    rewrite IH by lia. rewrite ctl_sense_testbit.
    f_equal. rewrite seq_S, rev_app_distr. simpl rev. simpl flat_map.
    unfold gates. rewrite map_app, app_assoc. do 2 f_equal.
    unfold chain_step. rewrite chain_ctl_below by lia.
    now replace (ci + 1)%nat with (S ci) by lia.
Qed.

(** The gates of one transition, for the position [c] at which it flips. *)
Lemma transition_eq (prev next : Z) (c : nat) (circ : circuit) :
  (c < w)%nat ->
  (forall j, (j < c)%nat ->
     Z.shiftr prev (Z.of_nat (j + 1)) <> Z.shiftr next (Z.of_nat (j + 1))) ->
  Z.shiftr prev (Z.of_nat (c + 1)) = Z.shiftr next (Z.of_nat (c + 1)) ->
  transition w Phs addrQubits ancQubits prev next circ =
  Ok (circ ++ gates (flat_map (chain_step w prev) (seq 0 c))
           ++ [Gate (CX_on (chain_ctl w c) (bq w c))]
           ++ gates (flat_map (chain_step w next) (rev (seq 0 c)))).
Proof.
  intros Hc Hne Heq. unfold transition.
  rewrite (clear_loop_eq prev next c c 0 (List.length ancQubits) circ)
    by (assumption || rewrite ?anc_length; lia).
  cbn [bind]. rewrite flip_gate_eq by exact Hc. cbn [bind].
  rewrite rebuild_loop_eq by exact Hc.
  now rewrite <- !app_assoc.
Qed.

End Emit.

End WalkFacts.

(** * The highest bit at which two keys differ *)

Module BitFacts.

Lemma shiftr_eq_iff (a b : Z) (n : Z) :
  0 <= a -> 0 <= b -> a <> b -> 0 <= n ->
  (Z.shiftr a n = Z.shiftr b n <-> Z.log2 (Z.lxor a b) < n).
Proof.
  intros Ha Hb Hab Hn.
  assert (Hx : 0 < Z.lxor a b).
  { assert (0 <= Z.lxor a b) by (apply Z.lxor_nonneg; lia).
    assert (Z.lxor a b <> 0) by (rewrite Z.lxor_eq_0_iff; exact Hab). lia. }
  rewrite <- Z.lxor_eq_0_iff, <- Z.shiftr_lxor, Z.shiftr_eq_0_iff.
  split; [intros [H|[_ H]]; [lia | exact H] | intros H; right; split; assumption].
Qed.

Lemma mod_pow2_testbit (a : Z) (c : Z) :
  0 <= c ->
  a mod 2 ^ (c + 1) = a mod 2 ^ c + 2 ^ c * Z.b2z (Z.testbit a c).
Proof.
  intros Hc. rewrite Z.pow_add_r, Z.pow_1_r by lia.
  rewrite Z.rem_mul_r by lia.
  rewrite Z.testbit_odd, Z.shiftr_div_pow2 by lia.
  rewrite Zmod_odd. destruct (Z.odd _); reflexivity.
Qed.

(** Two keys [prev < next] below [2^w] have a highest differing bit [c];
    it is 0 in [prev] and 1 in [next], and the shifts by [j + 1] agree
    exactly from [j = c] on. *)
Lemma msb_diff (w : nat) (prev next : Z) :
  0 <= prev < next -> next < 2 ^ Z.of_nat w ->
  exists c : nat,
    (c < w)%nat /\
    Z.shiftr prev (Z.of_nat (c + 1)) = Z.shiftr next (Z.of_nat (c + 1)) /\
    (forall j, (j < c)%nat ->
       Z.shiftr prev (Z.of_nat (j + 1)) <> Z.shiftr next (Z.of_nat (j + 1))) /\
    (forall j, (c < j)%nat ->
       Z.testbit prev (Z.of_nat j) = Z.testbit next (Z.of_nat j)) /\
    Z.testbit prev (Z.of_nat c) = false /\
    Z.testbit next (Z.of_nat c) = true.
Proof.
  intros Hp Hn.
  set (x := Z.lxor prev next).
  assert (Hx : 0 < x).
  { assert (0 <= x) by (apply Z.lxor_nonneg; lia).
    assert (x <> 0) by (unfold x; rewrite Z.lxor_eq_0_iff; lia). lia. }
  assert (Hw : 0 < Z.of_nat w).
  { destruct w; [simpl in Hn; lia | lia]. }
  assert (Hlog : Z.log2 x < Z.of_nat w).
  { pose proof (Z.log2_lxor prev next ltac:(lia) ltac:(lia)) as Hl. fold x in Hl.
    assert (Z.log2 next < Z.of_nat w) by (apply Z.log2_lt_pow2; lia).
    assert (Z.log2 prev < Z.of_nat w).
    { destruct (Z.eq_dec prev 0) as [->|]; [simpl; lia|].
      apply Z.log2_lt_pow2; lia. }
    lia. }
  pose proof (Z.log2_nonneg x) as Hnn.
  exists (Z.to_nat (Z.log2 x)).
  assert (Hsh : forall n, 0 <= n ->
            (Z.shiftr prev n = Z.shiftr next n <-> Z.log2 x < n)).
  { intros n Hn0. apply shiftr_eq_iff; lia. }
  assert (Heq : Z.shiftr prev (Z.of_nat (Z.to_nat (Z.log2 x) + 1)) =
                Z.shiftr next (Z.of_nat (Z.to_nat (Z.log2 x) + 1))).
  { apply Hsh; lia. }
  assert (Hhi : forall j, (Z.to_nat (Z.log2 x) < j)%nat ->
            Z.testbit prev (Z.of_nat j) = Z.testbit next (Z.of_nat j)).
  { intros j Hj.
    replace (Z.of_nat j)
      with ((Z.of_nat j - Z.of_nat (Z.to_nat (Z.log2 x) + 1))
            + Z.of_nat (Z.to_nat (Z.log2 x) + 1)) by lia.
    rewrite <- !Z.shiftr_spec by lia. now rewrite Heq. }
  assert (Hbit : Z.testbit x (Z.log2 x) = true) by (apply Z.bit_log2; lia).
  unfold x at 1 in Hbit. rewrite Z.lxor_spec in Hbit.
  rewrite Z2Nat.id by lia.
  repeat split.
  - lia.
  - exact Heq.
  - intros j Hj H. apply Hsh in H; lia.
  - exact Hhi.
  - destruct (Z.testbit prev (Z.log2 x)) eqn:Ep; [|reflexivity].
    destruct (Z.testbit next (Z.log2 x)) eqn:En; [discriminate|].
    exfalso.
    pose proof (mod_pow2_testbit prev (Z.log2 x) Hnn) as Mp.
    pose proof (mod_pow2_testbit next (Z.log2 x) Hnn) as Mn.
    rewrite Ep in Mp. rewrite En in Mn. simpl Z.b2z in *.
    rewrite !Z.shiftr_div_pow2 in Heq by lia.
    replace (Z.of_nat (Z.to_nat (Z.log2 x) + 1)) with (Z.log2 x + 1) in Heq by lia.
    assert (0 < 2 ^ Z.log2 x) by (apply Z.pow_pos_nonneg; lia).
    assert (0 < 2 ^ (Z.log2 x + 1)) by (apply Z.pow_pos_nonneg; lia).
    pose proof (Z.div_mod prev (2 ^ (Z.log2 x + 1)) ltac:(lia)).
    pose proof (Z.div_mod next (2 ^ (Z.log2 x + 1)) ltac:(lia)).
    pose proof (Z.mod_pos_bound prev (2 ^ Z.log2 x) ltac:(lia)).
    pose proof (Z.mod_pos_bound next (2 ^ Z.log2 x) ltac:(lia)).
    rewrite Heq in *. lia.
  - destruct (Z.testbit next (Z.log2 x)) eqn:En; [reflexivity|].
    destruct (Z.testbit prev (Z.log2 x)) eqn:Ep; [|discriminate].
    exfalso.
    pose proof (mod_pow2_testbit prev (Z.log2 x) Hnn) as Mp.
    pose proof (mod_pow2_testbit next (Z.log2 x) Hnn) as Mn.
    rewrite Ep in Mp. rewrite En in Mn. simpl Z.b2z in *.
    rewrite !Z.shiftr_div_pow2 in Heq by lia.
    replace (Z.of_nat (Z.to_nat (Z.log2 x) + 1)) with (Z.log2 x + 1) in Heq by lia.
    assert (0 < 2 ^ Z.log2 x) by (apply Z.pow_pos_nonneg; lia).
    assert (0 < 2 ^ (Z.log2 x + 1)) by (apply Z.pow_pos_nonneg; lia).
    pose proof (Z.div_mod prev (2 ^ (Z.log2 x + 1)) ltac:(lia)).
    pose proof (Z.div_mod next (2 ^ (Z.log2 x + 1)) ltac:(lia)).
    pose proof (Z.mod_pos_bound prev (2 ^ Z.log2 x) ltac:(lia)).
    pose proof (Z.mod_pos_bound next (2 ^ Z.log2 x) ltac:(lia)).
    rewrite Heq in *. lia.
Qed.

End BitFacts.

(** * The walk against the reference behaviour *)

Module WalkSem.

Import Sim SimFacts Walk WalkFacts BitFacts.

Section Keys.

Variable w : nat.
Variable tgts : list qubit.
Variable operators : list generator.
Hypothesis Hw : (1 <= w)%nat.

Local Abbreviation addrQubits := (rev (ctl_reg w)).
Local Abbreviation ancQubits := (rev (anc_reg w)).
Local Abbreviation body := (payload_body w tgts operators).

Lemma set_chain_top (b : state) (k k' : Z) :
  same_state (set_chain w b k w) (set_chain w b k' w).
Proof. apply set_chain_ext_key. intros j Hj. lia. Qed.

Lemma ancilla_clear_chain (st : state) (k : Z) :
  ancilla_clear w st -> same_state st (set_chain w st k w).
Proof.
  intros H [|n|n|n]; try reflexivity. unfold set_chain.
  destruct (Nat.ltb_spec n w); [|reflexivity].
  destruct (Nat.leb_spec w (w - 1 - n)); [lia|]. now apply H.
Qed.

(** A payload that writes targets only leaves a chain in place. *)
Lemma payload_keeps_chain (b : state) (k : Z) (i : nat) (gs : list gate) :
  targets_only gs = true ->
  same_state (run_gates gs (set_chain w b k i))
    (set_chain w (run_gates gs (set_chain w b k i)) k i).
Proof.
  intros Ht [|n|n|n]; try reflexivity.
  unfold set_chain at 2.
  destruct (Nat.ltb_spec n w) as [Hn|Hn]; [|reflexivity].
  rewrite targets_only_frame by (assumption || reflexivity).
  unfold set_chain at 1.
  replace (n <? w)%nat with true by (symmetry; apply Nat.ltb_lt; lia).
  destruct (Nat.leb_spec i (w - 1 - n)); [|reflexivity].
  apply pre_ext_state.
  - now rewrite targets_only_frame by (assumption || reflexivity).
  - intros j. now rewrite targets_only_frame by (assumption || reflexivity).
Qed.

(** The gates that lead from a key boundary to the complete chain of the
    next key. *)
Lemma to_next_key (prev k : Z) (circ : circuit) :
  -1 <= prev < k -> k < 2 ^ Z.of_nat w ->
  exists gs,
    (if prev =? -1 then
       chain_loop w Phs addrQubits ancQubits k (rev (seq 0 w)) circ
     else transition w Phs addrQubits ancQubits prev k circ)
    = Ok (circ ++ gates gs) /\
    forall st b, same_state st (boundary w prev b) ->
                 same_state (run_gates gs st) (set_chain w b k 0).
Proof.
  intros Hp Hk. unfold boundary.
  destruct (Z.eqb_spec prev (-1)) as [E|E].
  - exists (flat_map (chain_step w k) (rev (seq 0 w))). split.
    + apply chain_loop_eq. apply Forall_forall. intros i Hi.
      apply in_rev, in_seq in Hi. lia.
    + intros st b H. apply build_sem; [lia|]. simpl.
      eapply same_state_trans; [exact H | apply set_chain_top].
  - destruct (msb_diff w prev k ltac:(lia) Hk)
      as (c & Hc & Heq & Hne & Hhi & Hb0 & Hb1).
    exists (flat_map (chain_step w prev) (seq 0 c)
            ++ [CX_on (chain_ctl w c) (bq w c)]
            ++ flat_map (chain_step w k) (rev (seq 0 c))).
    split.
    + rewrite (transition_eq w prev k c circ Hc Hne Heq).
      unfold gates. now rewrite !map_app.
    + intros st b H. rewrite !run_gates_app.
      apply build_sem; [lia|]. simpl Nat.add.
      change (run_gates [CX_on (chain_ctl w c) (bq w c)] ?s)
        with (apply_gate (CX_on (chain_ctl w c) (bq w c)) s).
      apply (flip_sem w b prev k c); try assumption.
      * intros j Hj. apply Hhi. lia.
      * congruence.
      * apply (unbuild_sem w b prev c 0); [lia | exact H].
Qed.

Lemma ops_ok_cons (k : Z) (rest : list Z) :
  ops_ok w tgts operators (k :: rest) = true ->
  (exists op, py_index operators k = Ok op /\ body k = op (bq w 0) tgts) /\
  targets_only (body k) = true /\
  ops_ok w tgts operators rest = true.
Proof.
  unfold ops_ok. simpl. intros H.
  apply andb_prop in H. destruct H as [H Hr].
  apply andb_prop in H. destruct H as [H Ht].
  apply andb_prop in H. destruct H as [H0 H1].
  apply Z.leb_le in H0. apply Z.ltb_lt in H1.
  split; [|split; assumption].
  unfold payload_body in *.
  destruct (nth_error operators (Z.to_nat k)) as [op|] eqn:E.
  - exists op. rewrite <- (Z2Nat.id k) at 1 2 by lia.
    rewrite (py_index_nth_error _ _ _ E). split; reflexivity.
  - apply nth_error_None in E. lia.
Qed.

(** The loop over the keys follows the reference behaviour. *)
Lemma key_loop_sem (keys : list Z) :
  forall prev circ,
    -1 <= prev ->
    increasing_from w prev keys = true ->
    ops_ok w tgts operators keys = true ->
    exists ext lst,
      key_loop w Phs addrQubits ancQubits tgts operators keys prev circ
      = Ok (lst, circ ++ ext) /\
      -1 <= lst /\
      forall st f b,
        same_state st (boundary w prev b) ->
        same_state (fst (run ext (st, f)))
          (boundary w lst (fst (oracle_keys w body keys (b, f)))) /\
        snd (run ext (st, f)) = snd (oracle_keys w body keys (b, f)).
Proof.
  induction keys as [|k rest IH]; intros prev circ Hp Hinc Hok.
  - exists [], prev. simpl. rewrite app_nil_r. repeat split; assumption.
  - simpl in Hinc.
    apply andb_prop in Hinc. destruct Hinc as [Hinc Hrest].
    apply andb_prop in Hinc. destruct Hinc as [Hlo Hhi].
    apply Z.ltb_lt in Hlo. apply Z.ltb_lt in Hhi.
    destruct (ops_ok_cons k rest Hok) as ((op & Hop & Hbody) & Ht & Hok').
    destruct (to_next_key prev k circ ltac:(lia) Hhi) as (gs & Hgs & Hsem).
    destruct (IH k ((circ ++ gates gs) ++ [Payload (bq w 0) (op (bq w 0) tgts)])
                ltac:(lia) Hrest Hok') as (ext & lst & Hloop & Hlst & Hrun).
    exists (gates gs ++ [Payload (bq w 0) (body k)] ++ ext), lst.
    split; [|split; [exact Hlst|]].
    + cbn [key_loop]. rewrite Hgs. cbn [bind]. rewrite Hop. cbn [bind].
      replace (py_index ancQubits 0) with (Ok (bq w 0))
        by (symmetry; apply (anc_index w 0); lia).
      cbn [bind]. rewrite Hloop, Hbody. now rewrite <- !app_assoc.
    + intros st f b Hst.
      rewrite !run_app, run_gates_circuit.
      pose proof (Hsem st b Hst) as H1.
      cbn [run fold_left step oracle_keys].
      rewrite (H1 (bq w 0)).
      apply Hrun. unfold boundary.
      replace (k =? -1) with false by (symmetry; apply Z.eqb_neq; lia).
      eapply same_state_trans; [apply run_gates_ext, H1|].
      now apply payload_keeps_chain.
Qed.

(** [qrom] on increasing keys: the circuit exists and behaves as the
    reference oracle on every state with a clear ancilla register. *)
Lemma qrom_sem (keys : list Z) :
  increasing_from w (-1) keys = true ->
  ops_ok w tgts operators keys = true ->
  exists circ,
    qrom (ctl_reg w) (anc_reg w) Phs tgts w keys operators = Ok circ /\
    forall st f,
      ancilla_clear w st ->
      same_state (fst (run circ (st, f))) (fst (oracle w body keys (st, f))) /\
      snd (run circ (st, f)) = snd (oracle w body keys (st, f)).
Proof.
  intros Hinc Hok.
  destruct (key_loop_sem keys (-1) [] ltac:(lia) Hinc Hok)
    as (ext & lst & Hloop & Hlst & Hrun).
  unfold qrom. rewrite Hloop. cbn [bind app].
  destruct (Z.eqb_spec lst (-1)) as [E|E]; cbn [negb].
  - exists ext. split; [reflexivity|]. intros st f Hclear.
    destruct (Hrun st f st) as [Hs Hf].
    { unfold boundary. simpl. now apply ancilla_clear_chain. }
    unfold oracle. destruct (oracle_keys w body keys (st, f)) as [b' f'].
    simpl in *. split; [|exact Hf].
    unfold boundary in Hs. rewrite E in Hs. exact Hs.
  - exists (ext ++ gates (flat_map (chain_step w lst) (seq 0 w))).
    split.
    + apply chain_loop_eq. apply Forall_forall. intros i Hi.
      apply in_seq in Hi. lia.
    + intros st f Hclear.
      destruct (Hrun st f st) as [Hs Hf].
      { unfold boundary. simpl. now apply ancilla_clear_chain. }
      rewrite run_app.
      destruct (run ext (st, f)) as [s1 f1].
      rewrite run_gates_circuit.
      unfold oracle. destruct (oracle_keys w body keys (st, f)) as [b' f'].
      simpl in *. split; [|exact Hf].
      unfold boundary in Hs.
      replace (lst =? -1) with false in Hs by (symmetry; apply Z.eqb_neq; lia).
      eapply same_state_trans;
        [apply (unbuild_sem w b' lst w 0); [lia | exact Hs]|].
      apply set_chain_top.
Qed.

End Keys.

End WalkSem.

(** * What the reference oracle does *)

Module OracleFacts.

Import Codec CodecFacts Sim SimFacts WalkSem.

Lemma increasing_from_bounds (w : nat) (lo : Z) (keys : list Z) (k : Z) :
  increasing_from w lo keys = true -> In k keys ->
  lo < k < 2 ^ Z.of_nat w.
Proof.
  revert lo. induction keys as [|a rest IH]; intros lo H Hin; [destruct Hin|].
  simpl in H. apply andb_prop in H. destruct H as [H Hr].
  apply andb_prop in H. destruct H as [H0 H1].
  apply Z.ltb_lt in H0. apply Z.ltb_lt in H1.
  destruct Hin as [<-|Hin]; [lia|].
  specialize (IH a Hr Hin). lia.
Qed.

Lemma filter_none (en : bool) (a : Z) (keys : list Z) :
  ~ In a keys \/ en = false ->
  filter (fun k => en && (a =? k)) keys = [].
Proof.
  intros H. induction keys as [|k rest IH]; [reflexivity|]. simpl.
  destruct H as [H| ->].
  - destruct (Z.eqb_spec a k) as [->|_].
    + exfalso. apply H. now left.
    + rewrite andb_false_r. apply IH. left. intros Hin. apply H. now right.
  - simpl. apply IH. now right.
Qed.

Lemma filter_one (w : nat) (lo a : Z) (keys : list Z) :
  increasing_from w lo keys = true -> In a keys ->
  filter (fun k => true && (a =? k)) keys = [a].
Proof.
  revert lo. induction keys as [|k rest IH]; intros lo H Hin; [destruct Hin|].
  simpl. pose proof H as H'. simpl in H'.
  apply andb_prop in H'. destruct H' as [_ Hr].
  destruct (Z.eqb_spec a k) as [->|Hne].
  - f_equal. apply (filter_none true). left. intros Hin'.
    pose proof (increasing_from_bounds w k rest k Hr Hin'). lia.
  - destruct Hin as [->|Hin]; [congruence|]. now apply (IH k).
Qed.

Section Oracle.

Variable w : nat.
Variable body : Z -> list gate.
Hypothesis Hw : (1 <= w)%nat.

Lemma set_chain_low (b : state) (k : Z) :
  set_chain w b k 0 (bq w 0) = pre w b k 0.
Proof. now rewrite set_chain_bq by lia. Qed.

(** The bodies leave the enable bit, the address and the qubits outside
    the registers alone, and the payloads that fire are those of the keys
    whose chain is complete. *)
Lemma oracle_keys_inv (keys : list Z) :
  forall b f,
    (forall k, In k keys -> targets_only (body k) = true) ->
    let r := oracle_keys w body keys (b, f) in
    fst r Phs = b Phs /\
    (forall j, fst r (Ctl j) = b (Ctl j)) /\
    snd r = f ++ map body (filter (fun k => pre w b k 0) keys).
Proof.
  induction keys as [|k rest IH]; intros b f Hok r; subst r;
    cbn [oracle_keys filter map fst snd].
  - now rewrite app_nil_r.
  - assert (Hk : targets_only (body k) = true) by (apply Hok; now left).
    destruct (IH (run_gates (body k) (set_chain w b k 0))
                (if set_chain w b k 0 (bq w 0) then f ++ [body k] else f)
                ltac:(intros k' Hk'; apply Hok; now right))
      as (Hp & Hc & Hf).
    assert (Hpre : forall k', pre w (run_gates (body k) (set_chain w b k 0)) k' 0
                              = pre w b k' 0).
    { intros k'. apply pre_ext_state.
      - now rewrite targets_only_frame by (assumption || reflexivity).
      - intros j. now rewrite targets_only_frame by (assumption || reflexivity). }
    repeat split.
    + rewrite Hp. now rewrite targets_only_frame by (assumption || reflexivity).
    + intros j. rewrite Hc.
      now rewrite targets_only_frame by (assumption || reflexivity).
    + rewrite Hf, set_chain_low.
      rewrite (filter_ext _ _ Hpre).
      destruct (pre w b k 0); cbn [map]; [now rewrite <- app_assoc | reflexivity].
Qed.

(** After the oracle the ancilla register is clear. *)
Lemma oracle_clear (keys : list Z) (c : config) :
  ancilla_clear w (fst (oracle w body keys c)).
Proof.
  unfold oracle. destruct (oracle_keys w body keys c) as [b f]. simpl.
  intros i Hi. unfold set_chain.
  replace (i <? w)%nat with true by (symmetry; apply Nat.ltb_lt; lia).
  destruct (Nat.leb_spec w (w - 1 - i)); [lia | reflexivity].
Qed.

(** The chain of [k] is complete exactly when the oracle is enabled and
    the address is [k]. *)
Lemma pre_address (st : state) (k : Z) :
  0 <= k < 2 ^ Z.of_nat w ->
  pre w st k 0 = st Phs && (address w st =? k).
Proof.
  intros Hk. unfold pre. f_equal. rewrite Nat.sub_0_r.
  destruct (Z.eqb_spec (address w st) k) as [E|E].
  - apply forallb_forall. intros j Hj. apply in_seq in Hj.
    unfold bit_match. apply Bool.eqb_true_iff.
    unfold address in E.
    assert (Hl : map st (ctl_reg w) = encode_bits w k).
    { apply decode_unique; [|exact E].
      unfold ctl_reg. now rewrite !length_map, length_seq. }
    assert (Hn : nth_error (map st (ctl_reg w)) (w - 1 - j)
                 = Some (st (aq w j))).
    { unfold ctl_reg. rewrite !nth_error_map, nth_error_seq.
      replace (w - 1 - j <? w)%nat with true by (symmetry; apply Nat.ltb_lt; lia).
      reflexivity. }
    rewrite Hl, encode_bits_nth in Hn by lia.
    injection Hn as Hn. rewrite <- Hn. do 2 f_equal. lia.
  - apply not_true_is_false. intros H. apply E.
    rewrite forallb_forall in H. unfold address.
    rewrite <- (decode_encode_small w k Hk). f_equal.
    apply nth_error_ext. intros n.
    destruct (Nat.ltb_spec n w) as [Hn|Hn].
    + rewrite encode_bits_nth by lia.
      unfold ctl_reg. rewrite !nth_error_map, nth_error_seq.
      replace (n <? w)%nat with true by (symmetry; apply Nat.ltb_lt; lia).
      simpl. f_equal.
      specialize (H (w - 1 - n)%nat ltac:(apply in_seq; lia)).
      unfold bit_match in H. apply Bool.eqb_prop in H.
      unfold aq in H. now replace (w - 1 - (w - 1 - n))%nat with n in H by lia.
    + replace (nth_error (map st (ctl_reg w)) n) with (@None bool).
      * symmetry. apply nth_error_None. rewrite encode_bits_length. lia.
      * symmetry. apply nth_error_None.
        unfold ctl_reg. rewrite !length_map, length_seq. lia.
Qed.

(** The payloads the oracle fires on increasing keys. *)
Lemma oracle_fired (keys : list Z) (st : state) :
  increasing_from w (-1) keys = true ->
  (forall k, In k keys -> targets_only (body k) = true) ->
  snd (oracle w body keys (st, [])) =
  map body (filter (fun k => st Phs && (address w st =? k)) keys).
Proof.
  intros Hinc Hok. unfold oracle.
  pose proof (oracle_keys_inv keys st [] Hok) as (_ & _ & Hf).
  destruct (oracle_keys w body keys (st, [])) as [b f]. simpl in *.
  rewrite Hf. f_equal. apply filter_ext_in. intros k Hk.
  apply pre_address.
  pose proof (increasing_from_bounds w (-1) keys k Hinc Hk). lia.
Qed.

End Oracle.

Lemma ops_ok_targets (w : nat) (tgts : list qubit) (ops : list generator)
    (keys : list Z) (k : Z) :
  ops_ok w tgts ops keys = true -> In k keys ->
  targets_only (payload_body w tgts ops k) = true.
Proof.
  unfold ops_ok. rewrite forallb_forall. intros H Hin.
  specialize (H k Hin). apply andb_prop in H. tauto.
Qed.

End OracleFacts.

(** * The claims about the walk *)

Module WalkClaims.

Import Codec CodecFacts Sim SimFacts Walk WalkFacts BitFacts WalkSem OracleFacts.

(** C1, as stated, fails on the table with one entry and no address bit:
    with [w = 0] and the key list [[0]] every other condition of the claim
    holds (the enable bit is 0, the ancilla register is clear), and [qrom]
    raises IndexError at [ancQubits[0]], so there is no instruction
    sequence to execute. *)
Lemma C1_no_address_bit_counterexample :
  increasing_from 0 (-1) [0] = true /\
  ops_ok 0 (tgt_reg 2) demo_ops [0] = true /\
  ancilla_clear 0 (init_state 0 false 0 (fun _ => false)) /\
  init_state 0 false 0 (fun _ => false) Phs = false /\
  qrom (ctl_reg 0) (anc_reg 0) Phs (tgt_reg 2) 0 [0] demo_ops
  = Raise IndexError /\
  applyAndWalk demo_ops 0 1 (ctl_reg 0) Phs (anc_reg 0) (tgt_reg 2)
  = Raise IndexError /\
  ~ (exists circ,
       qrom (ctl_reg 0) (anc_reg 0) Phs (tgt_reg 2) 0 [0] demo_ops = Ok circ /\
       ancilla_clear 0
         (fst (run circ (init_state 0 false 0 (fun _ => false), []))) /\
       snd (run circ (init_state 0 false 0 (fun _ => false), [])) = []).
Proof.
  assert (H : qrom (ctl_reg 0) (anc_reg 0) Phs (tgt_reg 2) 0 [0] demo_ops
              = Raise IndexError) by reflexivity.
  repeat split; try reflexivity.
  intros (circ & Hc & _). rewrite H in Hc. discriminate.
Qed.

(** C1 (amended): for [w >= 1] address bits (or an empty key list),
    increasing keys in [[0, 2^w)], an address that is not one of the keys,
    or an enable bit at 0, and a clear ancilla register at the start, the
    circuit [qrom] emits leaves every ancilla bit at 0 and fires no
    payload. *)
Theorem C1_ancilla_closure (w : nat) (tgts : list qubit)
    (operators : list generator) (keys : list Z) (st : state) :
  (1 <= w)%nat \/ keys = [] ->
  increasing_from w (-1) keys = true ->
  ops_ok w tgts operators keys = true ->
  ancilla_clear w st ->
  ~ In (address w st) keys \/ st Phs = false ->
  exists circ,
    qrom (ctl_reg w) (anc_reg w) Phs tgts w keys operators = Ok circ /\
    ancilla_clear w (fst (run circ (st, []))) /\
    snd (run circ (st, [])) = [].
Proof.
  intros [Hw|Hnil] Hinc Hok Hclear Hno.
  - destruct (qrom_sem w tgts operators Hw keys Hinc Hok) as (circ & Hc & Hsem).
    exists circ. split; [exact Hc|].
    destruct (Hsem st [] Hclear) as [Hs Hf]. split.
    + intros i Hi. rewrite Hs. now apply oracle_clear.
    + rewrite Hf, oracle_fired; try assumption.
      * rewrite filter_none; [reflexivity|]. tauto.
      * intros k Hk. now apply (ops_ok_targets w tgts operators keys).
  - subst keys. exists []. repeat split. exact Hclear.
Qed.

Lemma C1_ancilla_closure_witness :
  exists circ,
    qrom (ctl_reg 2) (anc_reg 2) Phs (tgt_reg 2) 2 [0; 2] demo_ops = Ok circ /\
    ancilla_clear 2 (fst (run circ (init_state 2 true 1 (fun _ => false), []))) /\
    snd (run circ (init_state 2 true 1 (fun _ => false), [])) = [].
Proof.
  apply (C1_ancilla_closure 2 (tgt_reg 2) demo_ops [0; 2]
           (init_state 2 true 1 (fun _ => false))).
  - left. lia.
  - reflexivity.
  - reflexivity.
  - intros i Hi. reflexivity.
  - left. vm_compute. intros [H|[H|[]]]; discriminate.
Defined.

(** C2, as stated, fails on the table with one entry and no address bit:
    with [w = 0], the key list [[0]], the address 0 (the only one) and the
    enable bit at 1, [qrom] raises IndexError at [ancQubits[0]]: no circuit
    is returned and no payload fires. *)
Lemma C2_no_address_bit_counterexample :
  increasing_from 0 (-1) [0] = true /\
  ops_ok 0 (tgt_reg 2) demo_ops [0] = true /\
  ancilla_clear 0 (init_state 0 true 0 (fun _ => false)) /\
  In (address 0 (init_state 0 true 0 (fun _ => false))) [0] /\
  init_state 0 true 0 (fun _ => false) Phs = true /\
  qrom (ctl_reg 0) (anc_reg 0) Phs (tgt_reg 2) 0 [0] demo_ops
  = Raise IndexError /\
  applyAndWalk demo_ops 0 1 (ctl_reg 0) Phs (anc_reg 0) (tgt_reg 2)
  = Raise IndexError /\
  ~ (exists circ op,
       qrom (ctl_reg 0) (anc_reg 0) Phs (tgt_reg 2) 0 [0] demo_ops = Ok circ /\
       py_index demo_ops (address 0 (init_state 0 true 0 (fun _ => false)))
       = Ok op /\
       snd (run circ (init_state 0 true 0 (fun _ => false), []))
       = [op (bq 0 0) (tgt_reg 2)] /\
       ancilla_clear 0
         (fst (run circ (init_state 0 true 0 (fun _ => false), [])))).
Proof.
  assert (H : qrom (ctl_reg 0) (anc_reg 0) Phs (tgt_reg 2) 0 [0] demo_ops
              = Raise IndexError) by reflexivity.
  repeat split; try reflexivity.
  - now left.
  - intros (circ & op & Hc & _). rewrite H in Hc. discriminate.
Qed.

(** C2 (amended): for [w >= 1] address bits, increasing keys in
    [[0, 2^w)], an address that is one of the keys, the enable bit at 1 and
    a clear ancilla register at the start, the circuit [qrom] emits fires
    exactly one payload, the one of the operator at the index of the
    address, and leaves every ancilla bit at 0. *)
Theorem C2_exact_match (w : nat) (tgts : list qubit)
    (operators : list generator) (keys : list Z) (st : state) :
  (1 <= w)%nat ->
  increasing_from w (-1) keys = true ->
  ops_ok w tgts operators keys = true ->
  ancilla_clear w st ->
  In (address w st) keys -> st Phs = true ->
  exists circ op,
    qrom (ctl_reg w) (anc_reg w) Phs tgts w keys operators = Ok circ /\
    py_index operators (address w st) = Ok op /\
    snd (run circ (st, [])) = [op (bq w 0) tgts] /\
    ancilla_clear w (fst (run circ (st, []))).
Proof.
  intros Hw Hinc Hok Hclear Hin Hen.
  destruct (qrom_sem w tgts operators Hw keys Hinc Hok) as (circ & Hc & Hsem).
  destruct (Hsem st [] Hclear) as [Hs Hf].
  assert (Hop : exists op, py_index operators (address w st) = Ok op /\
                  payload_body w tgts operators (address w st)
                  = op (bq w 0) tgts).
  { unfold ops_ok in Hok. rewrite forallb_forall in Hok.
    specialize (Hok _ Hin).
    apply andb_prop in Hok. destruct Hok as [Hok _].
    apply andb_prop in Hok. destruct Hok as [H0 H1].
    apply Z.leb_le in H0. apply Z.ltb_lt in H1.
    unfold payload_body.
    destruct (nth_error operators (Z.to_nat (address w st))) as [op|] eqn:E.
    - exists op. rewrite <- (Z2Nat.id (address w st)) at 1 2 by lia.
      rewrite (py_index_nth_error _ _ _ E). split; reflexivity.
    - apply nth_error_None in E. lia. }
  destruct Hop as (op & Hop & Hbody).
  exists circ, op. repeat split; try assumption.
  - rewrite Hf, oracle_fired; try assumption.
    + rewrite Hen, (filter_one w (-1)) by assumption.
      simpl. now rewrite Hbody.
    + intros k Hk. now apply (ops_ok_targets w tgts operators keys).
  - intros i Hi. rewrite Hs. now apply oracle_clear.
Qed.

Lemma C2_exact_match_witness :
  exists circ op,
    qrom (ctl_reg 2) (anc_reg 2) Phs (tgt_reg 2) 2 [0; 2] demo_ops = Ok circ /\
    py_index demo_ops (address 2 (init_state 2 true 2 (fun _ => false)))
    = Ok op /\
    snd (run circ (init_state 2 true 2 (fun _ => false), []))
    = [op (bq 2 0) (tgt_reg 2)] /\
    ancilla_clear 2 (fst (run circ (init_state 2 true 2 (fun _ => false), []))).
Proof.
  apply (C2_exact_match 2 (tgt_reg 2) demo_ops [0; 2]
           (init_state 2 true 2 (fun _ => false))).
  - lia.
  - reflexivity.
  - reflexivity.
  - intros i Hi. reflexivity.
  - vm_compute. right. now left.
  - reflexivity.
Defined.

(** C4: for keys [prev_key < next_key] in [[0, 2^w)] there is a position
    [c], the highest bit at which the keys differ, such that the clearing
    loop stops at [c] and the transition is: the chain steps of [prev_key]
    at the positions [0 .. c-1], one controlled NOT on ancilla [c] from
    ancilla [c + 1] (from the select qubit when [c + 1 = w]), and the chain
    steps of [next_key] at the positions [c-1 .. 0]. *)
Theorem C4_transition (w : nat) (prev_key next_key : Z) (circ : circuit) :
  0 <= prev_key < next_key -> next_key < 2 ^ Z.of_nat w ->
  exists c : nat,
    (c < w)%nat /\
    Z.testbit prev_key (Z.of_nat c) = false /\
    Z.testbit next_key (Z.of_nat c) = true /\
    (forall j, (c < j)%nat ->
       Z.testbit prev_key (Z.of_nat j) = Z.testbit next_key (Z.of_nat j)) /\
    clear_loop w (rev (ctl_reg w)) (rev (anc_reg w)) prev_key next_key 0 circ
    = Ok (c, circ ++ gates (flat_map (chain_step w prev_key) (seq 0 c))) /\
    transition w Phs (rev (ctl_reg w)) (rev (anc_reg w)) prev_key next_key circ
    = Ok (circ
          ++ gates (flat_map (chain_step w prev_key) (seq 0 c))
          ++ [Gate (CX_on (if Nat.eqb (c + 1) w then Phs else bq w (c + 1))
                      (bq w c))]
          ++ gates (flat_map (chain_step w next_key) (rev (seq 0 c)))).
Proof.
  intros Hp Hn.
  destruct (msb_diff w prev_key next_key Hp Hn)
    as (c & Hc & Heq & Hne & Hhi & Hb0 & Hb1).
  exists c. repeat split; try assumption.
  - apply (clear_loop_eq w prev_key next_key c c 0 w circ); (assumption || lia).
  - now apply transition_eq.
Qed.

Lemma C4_transition_witness :
  exists c : nat,
    (c < 3)%nat /\
    Z.testbit 3 (Z.of_nat c) = false /\
    Z.testbit 4 (Z.of_nat c) = true /\
    (forall j, (c < j)%nat ->
       Z.testbit 3 (Z.of_nat j) = Z.testbit 4 (Z.of_nat j)) /\
    clear_loop 3 (rev (ctl_reg 3)) (rev (anc_reg 3)) 3 4 0 []
    = Ok (c, [] ++ gates (flat_map (chain_step 3 3) (seq 0 c))) /\
    transition 3 Phs (rev (ctl_reg 3)) (rev (anc_reg 3)) 3 4 []
    = Ok ([]
          ++ gates (flat_map (chain_step 3 3) (seq 0 c))
          ++ [Gate (CX_on (if Nat.eqb (c + 1) 3 then Phs else bq 3 (c + 1))
                      (bq 3 c))]
          ++ gates (flat_map (chain_step 3 4) (rev (seq 0 c)))).
Proof. apply (C4_transition 3 3 4 []); simpl; lia. Defined.

(** C8: on an empty key range [applyAndWalk] returns the empty circuit,
    and so does [qrom] on an empty key list. *)
Theorem C8_empty_range (operators : list generator) (pos : Z)
    (ctl_q : list qubit) (sel_q : qubit) (anc_q tgt_q : list qubit) :
  key_range pos pos = [] /\
  applyAndWalk operators pos pos ctl_q sel_q anc_q tgt_q = Ok [] /\
  qrom ctl_q anc_q sel_q tgt_q (List.length ctl_q) [] operators = Ok [].
Proof.
  assert (H : key_range pos pos = []).
  { unfold key_range. now rewrite Z.sub_diag. }
  unfold applyAndWalk. rewrite H. repeat split.
Qed.

End WalkClaims.

(** * The conversion of Hamiltonian terms *)

Module AssemblerClaims.

Import Assembler.

(** C7: the generator of a term with a negative coefficient starts with an
    unconditional [Z] on the activation qubit, followed by the per-axis
    instructions; with a non-negative coefficient it is the per-axis
    instructions alone.  Per axis: [X] gives a controlled flip, [Z] a
    controlled phase, [Y] a controlled flip between the inverse of [S] and
    [S] on the target, and [I] gives nothing. *)
Theorem C7_term_to_generator (t : term) (ctrl : qubit) (qubits : list qubit) :
  (coeff_num t < 0 ->
   term_to_generator t ctrl qubits =
   Z_on ctrl
   :: controlled_pauli_gate (list_ascii_of_string (pauli t)) ctrl qubits) /\
  (0 <= coeff_num t ->
   term_to_generator t ctrl qubits =
   controlled_pauli_gate (list_ascii_of_string (pauli t)) ctrl qubits) /\
  (forall ps tq tqs,
     controlled_pauli_gate ("X"%char :: ps) ctrl (tq :: tqs) =
     CX_on ctrl tq :: controlled_pauli_gate ps ctrl tqs) /\
  (forall ps tq tqs,
     controlled_pauli_gate ("Z"%char :: ps) ctrl (tq :: tqs) =
     CZ_on ctrl tq :: controlled_pauli_gate ps ctrl tqs) /\
  (forall ps tq tqs,
     controlled_pauli_gate ("Y"%char :: ps) ctrl (tq :: tqs) =
     S_inv_on tq :: CX_on ctrl tq :: S_on tq
     :: controlled_pauli_gate ps ctrl tqs) /\
  (forall ps tq tqs,
     controlled_pauli_gate ("I"%char :: ps) ctrl (tq :: tqs) =
     controlled_pauli_gate ps ctrl tqs).
Proof.
  split; [|split].
  - intros H. unfold term_to_generator, coeff_negative.
    replace (coeff_num t <? 0) with true by (symmetry; apply Z.ltb_lt; lia).
    reflexivity.
  - intros H. unfold term_to_generator, coeff_negative.
    replace (coeff_num t <? 0) with false by (symmetry; apply Z.ltb_ge; lia).
    reflexivity.
  - repeat split; intros; reflexivity.
Qed.

Lemma C7_term_to_generator_witness :
  term_to_generator
    {| pauli := "XY"; coeff_num := -1; coeff_den := 1 |} (Anc 0) [Tgt 0; Tgt 1]
  = [Z_on (Anc 0); CX_on (Anc 0) (Tgt 0);
     S_inv_on (Tgt 1); CX_on (Anc 0) (Tgt 1); S_on (Tgt 1)] /\
  term_to_generator
    {| pauli := "ZI"; coeff_num := 1; coeff_den := 2 |} (Anc 0) [Tgt 0; Tgt 1]
  = [CZ_on (Anc 0) (Tgt 0)].
Proof.
  split.
  - apply (proj1 (C7_term_to_generator
                    {| pauli := "XY"; coeff_num := -1; coeff_den := 1 |}
                    (Anc 0) [Tgt 0; Tgt 1])).
    simpl. lia.
  - apply (proj1 (proj2 (C7_term_to_generator
                    {| pauli := "ZI"; coeff_num := 1; coeff_den := 2 |}
                    (Anc 0) [Tgt 0; Tgt 1]))).
    simpl. lia.
Defined.

(** The operators of a Hamiltonian write target qubits only. *)
Lemma controlled_pauli_targets_only (ps : list ascii) (ctrl : qubit)
    (tqs : list qubit) :
  Forall (fun q => Sim.is_tgt q = true) tqs ->
  Sim.targets_only (controlled_pauli_gate ps ctrl tqs) = true.
Proof.
  revert tqs. induction ps as [|p ps IH]; intros tqs H; [reflexivity|].
  destruct tqs as [|tq tqs]; [reflexivity|].
  inversion H as [|? ? Htq Htqs]; subst.
  cbn [controlled_pauli_gate]. unfold Sim.targets_only.
  rewrite forallb_app. fold (Sim.targets_only (controlled_pauli_gate ps ctrl tqs)).
  rewrite (IH tqs Htqs), andb_true_r.
  destruct (Ascii.eqb p "I"); [reflexivity|].
  destruct (Ascii.eqb p "X"); [simpl; now rewrite Htq|].
  destruct (Ascii.eqb p "Y"); [simpl; now rewrite Htq|].
  destruct (Ascii.eqb p "Z"); reflexivity.
Qed.

End AssemblerClaims.

(** * Facts about the tree traversal *)

Module TreeFacts.

Import Codec CodecFacts Sim SimFacts Tree WalkFacts.

(** ** Python indices from the end, and slices *)

Lemma py_index_from_end {A : Type} (l : list A) (j : nat) (a : A) :
  nth_error (rev l) j = Some a -> py_index l (nth2last (Z.of_nat j)) = Ok a.
Proof.
  intros H. unfold py_index, nth2last.
  assert (Hlt : (j < List.length l)%nat).
  { rewrite <- length_rev. apply nth_error_Some. congruence. }
  replace (- (Z.of_nat j + 1) <? 0) with true by (symmetry; apply Z.ltb_lt; lia).
  replace (0 <=? Z.of_nat (List.length l) + - (Z.of_nat j + 1)) with true
    by (symmetry; apply Z.leb_le; lia).
  replace (Z.of_nat (List.length l) + - (Z.of_nat j + 1)
           <? Z.of_nat (List.length l)) with true
    by (symmetry; apply Z.ltb_lt; lia).
  simpl.
  replace (Z.to_nat (Z.of_nat (List.length l) + - (Z.of_nat j + 1)))
    with (List.length l - S j)%nat by lia.
  rewrite nth_error_rev in H.
  replace (j <? List.length l)%nat with true in H
    by (symmetry; apply Nat.ltb_lt; lia).
  now rewrite H.
Qed.

Lemma removelast_map_seq {A : Type} (f : nat -> A) (n : nat) :
  removelast (map f (seq 0 (S n))) = map f (seq 0 n).
Proof. rewrite seq_S, map_app. simpl. apply removelast_last. Qed.

Lemma removelast_cons_map_seq {A : Type} (a : A) (f : nat -> A) (n : nat) :
  removelast (a :: map f (seq 0 (S n))) = a :: map f (seq 0 n).
Proof.
  rewrite seq_S, map_app. simpl map.
  change (a :: map f (seq 0 n) ++ [f n])
    with ((a :: map f (seq 0 n)) ++ [f n]).
  apply removelast_last.
Qed.

(** ** The registers of [stepRight] at a depth *)

Lemma anc_from_end (n j : nat) :
  (j < n)%nat ->
  py_index (Phs :: anc_reg n) (nth2last (Z.of_nat j)) = Ok (Anc (n - 1 - j)).
Proof.
  intros H. apply py_index_from_end. simpl rev.
  rewrite nth_error_app1 by (unfold anc_reg; rewrite length_rev, length_map, length_seq; lia).
  now apply nth_error_rev_reg.
Qed.

Lemma anc_from_end_phs (n : nat) :
  py_index (Phs :: anc_reg n) (nth2last (Z.of_nat n)) = Ok Phs.
Proof.
  apply py_index_from_end. simpl rev.
  rewrite nth_error_app2 by (unfold anc_reg; rewrite length_rev, length_map, length_seq; lia).
  unfold anc_reg. rewrite length_rev, length_map, length_seq, Nat.sub_diag.
  reflexivity.
Qed.

Lemma ctl_from_end (n : nat) :
  (0 < n)%nat ->
  py_index (ctl_reg n) (nth2last 0) = Ok (Ctl (n - 1)).
Proof.
  intros H. apply (py_index_from_end (ctl_reg n) 0).
  unfold ctl_reg. rewrite nth_error_rev_reg by lia. do 2 f_equal. lia.
Qed.

(** ** Paths *)

(** The path of key [p] on [n] address bits. *)
Lemma path_as_encoding (n : nat) (p : Z) :
  0 <= p < 2 ^ Z.of_nat n ->
  true :: encode_bits n p = encode_bits (S n) (2 ^ Z.of_nat n + p).
Proof.
  intros Hp. rewrite encode_bits_succ.
  replace (2 ^ Z.of_nat n + p) with (Z.b2z true * 2 ^ Z.of_nat n + p)
    by (simpl Z.b2z; ring).
  f_equal.
  - symmetry. apply (testbit_top true p n Hp).
  - apply encode_bits_ext. intros i Hi. symmetry.
    now apply (testbit_below true p n i).
Qed.

Lemma path_increment (n : nat) (p : Z) :
  0 <= p -> p + 1 < 2 ^ Z.of_nat n ->
  incrementBooleanTree (true :: encode_bits n p)
  = Ok (true :: encode_bits n (p + 1)).
Proof.
  intros H0 H1.
  rewrite !path_as_encoding by lia.
  rewrite increment_encode.
  - do 2 f_equal. ring.
  - rewrite Nat2Z.inj_succ, Z.pow_succ_r by lia. lia.
Qed.

Lemma encode_bits_rev (n : nat) (p : Z) :
  rev (encode_bits n p) = map (fun i => Z.testbit p (Z.of_nat i)) (seq 0 n).
Proof. unfold encode_bits. now rewrite <- map_rev, rev_involutive. Qed.

Lemma encode_bits_snoc (n : nat) (p : Z) :
  encode_bits (S n) p = encode_bits n (Z.div2 p) ++ [Z.testbit p 0].
Proof.
  apply rev_inj. rewrite rev_app_distr, !encode_bits_rev.
  cbn [rev app seq map]. f_equal.
  rewrite <- seq_shift, map_map. apply map_ext. intros i.
  rewrite Z.div2_spec, Z.shiftr_spec by lia. f_equal. lia.
Qed.

Lemma path_removelast (n : nat) (p : Z) :
  removelast (true :: encode_bits (S n) p) = true :: encode_bits n (Z.div2 p).
Proof.
  rewrite encode_bits_snoc.
  change (true :: encode_bits n (Z.div2 p) ++ [Z.testbit p 0])
    with ((true :: encode_bits n (Z.div2 p)) ++ [Z.testbit p 0]).
  apply removelast_last.
Qed.

(** The distance from a path to its increment, by the two lowest bits. *)
Lemma path_distance (n : nat) (p : Z) :
  0 <= p -> p + 1 < 2 ^ Z.of_nat n ->
  h_distance (true :: encode_bits n p) (true :: encode_bits n (p + 1))
  = S (leading_ones (map (fun i => Z.testbit p (Z.of_nat i)) (seq 0 n)
                     ++ [true])).
Proof.
  intros H0 H1.
  pose proof (path_increment n p H0 H1) as Hinc.
  destruct (all_true_dec (true :: encode_bits n p)) as [Hin|Hall].
  - destruct (incrementBooleanTree_defined _ Hin) as (inc & Hi & _ & _ & Hd).
    rewrite Hinc in Hi. injection Hi as <-. rewrite Hd.
    unfold trailing_ones. simpl rev. now rewrite encode_bits_rev.
  - rewrite (incrementBooleanTree_all_true _ Hall) in Hinc. discriminate.
Qed.


(** ** Bits of a successor *)

Lemma succ_even_bits (p : Z) :
  Z.testbit p 0 = false ->
  Z.testbit (p + 1) 0 = true /\
  forall i, 0 < i -> Z.testbit (p + 1) i = Z.testbit p i.
Proof.
  intros H. rewrite Z.bit0_odd in H.
  pose proof (Z.div2_odd p) as E. rewrite H in E. simpl Z.b2z in E.
  assert (E' : p = 2 * Z.div2 p) by lia.
  generalize dependent (Z.div2 p). intros q _ ->. split.
  - apply Z.testbit_odd_0.
  - intros i Hi. replace i with (Z.succ (i - 1)) by lia.
    rewrite Z.testbit_odd_succ by lia.
    now rewrite Z.testbit_even_succ by lia.
Qed.

Lemma succ_odd_bits (p : Z) :
  Z.testbit p 0 = true ->
  p + 1 = 2 * (Z.div2 p + 1) /\
  Z.testbit (p + 1) 0 = false /\
  forall i, 0 <= i -> Z.testbit (p + 1) (i + 1) = Z.testbit (Z.div2 p + 1) i.
Proof.
  intros H. rewrite Z.bit0_odd in H.
  pose proof (Z.div2_odd p) as E. rewrite H in E. simpl Z.b2z in E.
  assert (E' : p + 1 = 2 * (Z.div2 p + 1)) by lia.
  split; [exact E'|]. rewrite E'. split.
  - apply Z.testbit_even_0.
  - intros i Hi. replace (i + 1) with (Z.succ i) by lia.
    now apply Z.testbit_even_succ.
Qed.

Lemma div2_bits (p : Z) (i : Z) :
  0 <= i -> Z.testbit (Z.div2 p) i = Z.testbit p (i + 1).
Proof. intros H. rewrite Z.div2_spec, Z.shiftr_spec by lia. reflexivity. Qed.

Lemma shiftl_bits (p : Z) (d j : nat) :
  (d <= j)%nat ->
  Z.testbit (Z.shiftl p (Z.of_nat d)) (Z.of_nat j)
  = Z.testbit p (Z.of_nat (j - d)).
Proof.
  intros H. rewrite Z.shiftl_spec by lia. f_equal. lia.
Qed.

Section Depth.

Variables w n d : nat.
Hypothesis Hnd : (n + d = w)%nat.
Hypothesis Hn : (1 <= n)%nat.

Lemma anc_last : py_index (Phs :: anc_reg n) (nth2last 0) = Ok (bq w d).
Proof.
  change (nth2last 0) with (nth2last (Z.of_nat 0)).
  rewrite (anc_from_end n 0) by lia. unfold bq. do 2 f_equal. lia.
Qed.

Lemma anc_last2 : py_index (Phs :: anc_reg n) (nth2last 1) = Ok (chain_ctl w d).
Proof.
  change (nth2last 1) with (nth2last (Z.of_nat 1)).
  unfold chain_ctl. destruct (Nat.eqb_spec (d + 1) w) as [E|E].
  - replace n with 1%nat in * by lia. apply (anc_from_end_phs 1).
  - rewrite (anc_from_end n 1) by lia. unfold bq. do 2 f_equal. lia.
Qed.

Lemma anc_last3 :
  (2 <= n)%nat ->
  py_index (Phs :: anc_reg n) (nth2last 2) = Ok (chain_ctl w (d + 1)).
Proof.
  intros H2. change (nth2last 2) with (nth2last (Z.of_nat 2)).
  unfold chain_ctl. destruct (Nat.eqb_spec (d + 1 + 1) w) as [E|E].
  - replace n with 2%nat in * by lia. apply (anc_from_end_phs 2).
  - rewrite (anc_from_end n 2) by lia. unfold bq. do 2 f_equal. lia.
Qed.

Lemma ctl_last : py_index (ctl_reg n) (nth2last 0) = Ok (aq w d).
Proof.
  rewrite ctl_from_end by lia. unfold aq. do 2 f_equal. lia.
Qed.

End Depth.

End TreeFacts.

(** * The step to the right *)

Module StepRight.

Import Codec CodecFacts Sim SimFacts Tree WalkFacts TreeFacts.

Lemma stepRight_rec_unfold (fuel : nat) (circ : circuit) (bTree : list bool)
    (qubits ancilla : list qubit) :
  stepRight_rec fuel circ bTree qubits ancilla =
  (inc <- incrementBooleanTree bTree ;;
   match h_distance bTree inc with
   | O => Ok circ
   | 1%nat =>
       if Nat.eqb (List.length ancilla) 1 then
         q0 <- py_index ancilla (nth2last 0) ;;
         Ok (circ ++ [Gate (X_on q0)])
       else
         q0 <- py_index ancilla (nth2last 0) ;;
         q1 <- py_index ancilla (nth2last 1) ;;
         Ok (circ ++ [Gate (CX_on q1 q0)])
   | 2%nat =>
       if Nat.eqb (List.length ancilla) 2 then
         q0 <- py_index ancilla (nth2last 0) ;;
         q1 <- py_index ancilla (nth2last 1) ;;
         x0 <- py_index qubits (nth2last 0) ;;
         Ok (circ ++ [Gate (CX_on q1 q0); Gate (CX_on x0 q0);
                      Gate (X_on q1); Gate (X_on q0)])
       else
         q0 <- py_index ancilla (nth2last 0) ;;
         q1 <- py_index ancilla (nth2last 1) ;;
         q2 <- py_index ancilla (nth2last 2) ;;
         x0 <- py_index qubits (nth2last 0) ;;
         Ok (circ ++ [Gate (CX_on q1 q0)]
                  ++ gates (toffoli true false q2 x0 q0)
                  ++ [Gate (CX_on q2 q1)])
   | _ =>
       x0 <- py_index qubits (nth2last 0) ;;
       q0 <- py_index ancilla (nth2last 0) ;;
       q1 <- py_index ancilla (nth2last 1) ;;
       match fuel with
       | O => Raise IndexError
       | S fuel' =>
           circ' <- stepRight_rec fuel'
                      (circ ++ gates (toffoli true true q1 x0 q0))
                      (removelast bTree) (removelast qubits)
                      (removelast ancilla) ;;
           Ok (circ' ++ gates (toffoli true false q1 x0 q0))
       end
   end).
Proof. destruct fuel; reflexivity. Qed.

Section Sem.

Variable w : nat.

Lemma set_chain_agree_above (b : state) (k k' : Z) (d c : nat) (q : qubit) :
  (forall j, (c < j < w)%nat ->
     Z.testbit k (Z.of_nat j) = Z.testbit k' (Z.of_nat j)) ->
  (forall j, (d <= j <= c)%nat -> q <> bq w j) ->
  set_chain w b k d q = set_chain w b k' d q.
Proof.
  intros Hhi Hq. destruct q as [|m|m|m]; try reflexivity. unfold set_chain.
  destruct (Nat.ltb_spec m w); [|reflexivity].
  destruct (Nat.leb_spec d (w - 1 - m)); [|reflexivity].
  apply pre_ext_key. intros j Hj. apply Hhi.
  destruct (Nat.le_gt_cases (w - 1 - m) c) as [Hle|Hgt]; [|lia].
  exfalso. apply (Hq (w - 1 - m)%nat); [lia|]. unfold bq. f_equal. lia.
Qed.

(** The three-instruction pattern of distance 2 moves the chain across a
    change of the two lowest positions from [1 0] to [0 1]. *)
Lemma distance2_sem (b : state) (k k' : Z) (d : nat) (st : state) :
  (d + 1 < w)%nat ->
  Z.testbit k (Z.of_nat d) = true ->
  Z.testbit k (Z.of_nat (d + 1)) = false ->
  Z.testbit k' (Z.of_nat d) = false ->
  Z.testbit k' (Z.of_nat (d + 1)) = true ->
  (forall j, (d + 1 < j < w)%nat ->
     Z.testbit k (Z.of_nat j) = Z.testbit k' (Z.of_nat j)) ->
  same_state st (set_chain w b k d) ->
  same_state
    (run_gates ([CX_on (chain_ctl w d) (bq w d)]
                ++ toffoli true false (chain_ctl w (d + 1)) (aq w d) (bq w d)
                ++ [CX_on (chain_ctl w (d + 1)) (chain_ctl w d)]) st)
    (set_chain w b k' d).
Proof.
  intros Hd K0 K1 K0' K1' Hhi H q.
  assert (Ec : chain_ctl w d = bq w (d + 1)) by (apply chain_ctl_below; lia).
  assert (N20 : chain_ctl w (d + 1) <> bq w d).
  { unfold chain_ctl, bq. destruct (Nat.eqb (d + 1 + 1) w); [discriminate|].
    intros E. injection E. lia. }
  assert (N21 : chain_ctl w (d + 1) <> bq w (d + 1))
    by (apply chain_ctl_neq_bq; lia).
  assert (N10 : bq w (d + 1) <> bq w d).
  { unfold bq. intros E. injection E. lia. }
  assert (V2 : st (chain_ctl w (d + 1)) = pre w b k (S (d + 1))).
  { rewrite H. apply chain_ctl_value; lia. }
  assert (V1 : st (bq w (d + 1)) = pre w b k (d + 1)).
  { rewrite H, set_chain_bq by lia.
    now replace (d <=? d + 1)%nat with true by (symmetry; apply Nat.leb_le; lia). }
  assert (V0 : st (bq w d) = pre w b k d).
  { rewrite H, set_chain_bq by lia. now rewrite Nat.leb_refl. }
  assert (Va : st (aq w d) = b (aq w d)) by (rewrite H; reflexivity).
  assert (P2 : pre w b k (S (d + 1)) = pre w b k' (S (d + 1))).
  { apply pre_ext_key. intros j Hj. apply Hhi. lia. }
  pose proof (pre_step w b k d ltac:(lia)) as S0.
  pose proof (pre_step w b k (d + 1) ltac:(lia)) as S1.
  pose proof (pre_step w b k' d ltac:(lia)) as S0'.
  pose proof (pre_step w b k' (d + 1) ltac:(lia)) as S1'.
  replace (S d) with (d + 1)%nat in * by lia.
  unfold bit_match in *. rewrite K0 in S0. rewrite K1 in S1.
  rewrite K0' in S0'. rewrite K1' in S1'.
  rewrite Ec. rewrite !run_gates_app, !run_gates_single.
  cbn [apply_gate]. unfold upd at 1.
  destruct (qubit_eqb_spec (bq w (d + 1)) q) as [<-|Hq1].
  - rewrite !toffoli_sem
      by (auto using aq_neq_bq; unfold chain_ctl, aq;
          destruct (Nat.eqb (d + 1 + 1) w); discriminate).
    rewrite !upd_other by congruence.
    rewrite V1, V2, set_chain_bq by lia.
    replace (d <=? d + 1)%nat with true by (symmetry; apply Nat.leb_le; lia).
    rewrite S1', S1, P2.
    destruct (pre w b k' (S (d + 1))), (b (aq w (d + 1))); reflexivity.
  - rewrite toffoli_sem
      by (auto using aq_neq_bq; unfold chain_ctl, aq;
          destruct (Nat.eqb (d + 1 + 1) w); discriminate).
    unfold upd at 1.
    destruct (qubit_eqb_spec (bq w d) q) as [<-|Hq0].
    + rewrite upd_same, !upd_other by (congruence || apply not_eq_sym, aq_neq_bq).
      rewrite V0, V1, V2, Va, set_chain_bq by lia.
      rewrite Nat.leb_refl, S0', S1', S0, S1, P2.
      destruct (pre w b k' (S (d + 1))), (b (aq w (d + 1))), (b (aq w d));
        reflexivity.
    + rewrite upd_other by congruence. rewrite H.
      apply (set_chain_agree_above b k k' d (d + 1)); [exact Hhi|].
      intros j Hj. assert (j = d \/ j = (d + 1)%nat) as [->| ->] by lia;
        congruence.
Qed.


Lemma leading_ones_path (p : Z) (n : nat) :
  leading_ones (map (fun i => Z.testbit p (Z.of_nat i)) (seq 0 (S n)) ++ [true])
  = if Z.testbit p 0 then
      S (leading_ones (map (fun i => Z.testbit p (Z.of_nat i)) (seq 1 n)
                       ++ [true]))
    else O.
Proof. cbn [seq map app leading_ones]. simpl Z.of_nat. reflexivity. Qed.

Lemma leading_ones_path1 (p : Z) (n : nat) :
  leading_ones (map (fun i => Z.testbit p (Z.of_nat i)) (seq 1 (S n)) ++ [true])
  = if Z.testbit p 1 then
      S (leading_ones (map (fun i => Z.testbit p (Z.of_nat i)) (seq 2 n)
                       ++ [true]))
    else O.
Proof. cbn [seq map app leading_ones]. simpl Z.of_nat. reflexivity. Qed.

(** [stepRight] at depth [d], on the path of the prefix [p] of the key:
    the circuit exists, and it moves the chain built down to position [d]
    from the prefix [p] to the prefix [p + 1]. *)
Lemma stepRight_sem (fuel : nat) :
  forall n d p circ,
    (n + d = w)%nat -> (1 <= n)%nat -> (n <= fuel)%nat ->
    0 <= p -> p + 1 < 2 ^ Z.of_nat n ->
    exists gs,
      stepRight_rec fuel circ (true :: encode_bits n p) (ctl_reg n)
        (Phs :: anc_reg n) = Ok (circ ++ gates gs) /\
      forall st b,
        same_state st (set_chain w b (Z.shiftl p (Z.of_nat d)) d) ->
        same_state (run_gates gs st)
          (set_chain w b (Z.shiftl (p + 1) (Z.of_nat d)) d).
Proof.
  induction fuel as [|fuel IH]; intros n d p circ Hnd Hn Hf Hp0 Hp1; [lia|].
  rewrite stepRight_rec_unfold, path_increment by assumption. cbn [bind].
  rewrite path_distance by assumption.
  assert (Hlen : List.length (Phs :: anc_reg n) = S n).
  { unfold anc_reg. simpl. now rewrite length_map, length_seq. }
  rewrite Hlen.
  destruct n as [|n]; [lia|]. rewrite leading_ones_path.
  destruct (Z.testbit p 0) eqn:B0.
  - (* the lowest bit is 1 *)
    destruct n as [|n].
    { exfalso. assert (p = 0) by (simpl in Hp1; lia). subst p. discriminate. }
    destruct (succ_odd_bits p B0) as (Ediv & B0' & Bhi').
    rewrite leading_ones_path1.
    destruct (Z.testbit p 1) eqn:B1.
    + (* distance at least 3: recursion on the path without its last bit *)
      rewrite (ctl_last w (S (S n)) d Hnd) by lia.
      rewrite (anc_last w (S (S n)) d Hnd) by lia.
      rewrite (anc_last2 w (S (S n)) d Hnd) by lia.
      cbn [bind].
      rewrite path_removelast.
      unfold ctl_reg at 1. rewrite removelast_map_seq.
      unfold anc_reg at 1. rewrite removelast_cons_map_seq.
      fold (ctl_reg (S n)). fold (anc_reg (S n)).
      destruct (IH (S n) (S d) (Z.div2 p)
                  (circ ++ gates (toffoli true true (chain_ctl w d) (aq w d)
                                    (bq w d))))
        as (gs & Hgs & Hsem); try lia.
      { rewrite (Nat2Z.inj_succ (S n)), Z.pow_succ_r in Hp1 by lia. lia. }
      rewrite Hgs. cbn [bind].
      exists (toffoli true true (chain_ctl w d) (aq w d) (bq w d)
              ++ gs
              ++ toffoli true false (chain_ctl w d) (aq w d) (bq w d)).
      split.
      { unfold gates. now rewrite !map_app, <- !app_assoc. }
      intros st b Hst.
      assert (K0 : Z.testbit (Z.shiftl p (Z.of_nat d)) (Z.of_nat d) = true).
      { now rewrite shiftl_bits, Nat.sub_diag by lia. }
      assert (K0' : Z.testbit (Z.shiftl (p + 1) (Z.of_nat d)) (Z.of_nat d)
                    = false).
      { now rewrite shiftl_bits, Nat.sub_diag by lia. }
      replace (toffoli true true (chain_ctl w d) (aq w d) (bq w d))
        with (chain_step w (Z.shiftl p (Z.of_nat d)) d)
        by (unfold chain_step; now rewrite K0).
      replace (toffoli true false (chain_ctl w d) (aq w d) (bq w d))
        with (chain_step w (Z.shiftl (p + 1) (Z.of_nat d)) d)
        by (unfold chain_step; now rewrite K0').
      rewrite !run_gates_app.
      apply (chain_step_build w b (Z.shiftl (p + 1) (Z.of_nat d)) d); [lia|].
      eapply same_state_trans.
      * apply Hsem.
        eapply same_state_trans.
        -- apply (chain_step_unbuild w b (Z.shiftl p (Z.of_nat d)) d);
             [lia | exact Hst].
        -- apply set_chain_ext_key. intros j Hj.
           rewrite !shiftl_bits by lia.
           rewrite div2_bits by lia. f_equal. lia.
      * apply set_chain_ext_key. intros j Hj.
        rewrite !shiftl_bits by lia.
        replace (Z.of_nat (j - d)) with (Z.of_nat (j - S d) + 1) by lia.
        now rewrite Bhi' by lia.
    + (* distance 2 *)
      replace (Nat.eqb (S (S (S n))) 2) with false by reflexivity.
      rewrite (anc_last w (S (S n)) d Hnd) by lia.
      rewrite (anc_last2 w (S (S n)) d Hnd) by lia.
      rewrite (anc_last3 w (S (S n)) d Hnd) by lia.
      rewrite (ctl_last w (S (S n)) d Hnd) by lia.
      cbn [bind].
      exists ([CX_on (chain_ctl w d) (bq w d)]
              ++ toffoli true false (chain_ctl w (d + 1)) (aq w d) (bq w d)
              ++ [CX_on (chain_ctl w (d + 1)) (chain_ctl w d)]).
      split.
      { unfold gates. now rewrite !map_app. }
      intros st b Hst.
      assert (B1' : Z.testbit (Z.div2 p) 0 = false)
        by (rewrite div2_bits by lia; exact B1).
      destruct (succ_even_bits _ B1') as (Q0 & Qhi).
      apply (distance2_sem b (Z.shiftl p (Z.of_nat d))); try assumption.
      * lia.
      * now rewrite shiftl_bits, Nat.sub_diag by lia.
      * rewrite shiftl_bits by lia.
        now replace (d + 1 - d)%nat with 1%nat by lia.
      * now rewrite shiftl_bits, Nat.sub_diag by lia.
      * rewrite shiftl_bits by lia.
        replace (d + 1 - d)%nat with 1%nat by lia.
        change (Z.of_nat 1) with (0 + 1). now rewrite Bhi' by lia.
      * intros j Hj. rewrite !shiftl_bits by lia.
        replace (Z.of_nat (j - d)) with ((Z.of_nat (j - d) - 1) + 1) by lia.
        rewrite Bhi', Qhi, div2_bits by lia. reflexivity.
  - (* the lowest bit is 0: distance 1 *)
    replace (Nat.eqb (S (S n)) 1) with false by reflexivity.
    rewrite (anc_last w (S n) d Hnd) by lia.
    rewrite (anc_last2 w (S n) d Hnd) by lia.
    cbn [bind].
    exists [CX_on (chain_ctl w d) (bq w d)]. split; [reflexivity|].
    intros st b Hst. rewrite run_gates_single.
    destruct (succ_even_bits p B0) as (Q0 & Qhi).
    apply (flip_sem w b (Z.shiftl p (Z.of_nat d))); try assumption.
    + lia.
    + intros j Hj. rewrite !shiftl_bits by lia. symmetry. apply Qhi. lia.
    + rewrite !shiftl_bits, Nat.sub_diag by lia. simpl Z.of_nat. congruence.
Qed.

End Sem.

End StepRight.

(** * The descent and its inverse *)

Module WalkDown.

Import Codec CodecFacts Sim SimFacts Tree WalkFacts TreeFacts.

Lemma toffoli_wf (b0 b1 : bool) (c0 c1 t : qubit) :
  c0 <> t -> c1 <> t -> forallb gate_wf (toffoli b0 b1 c0 c1 t) = true.
Proof.
  intros H0 H1. unfold toffoli.
  destruct b0, b1; simpl;
    rewrite (qubit_eqb_neq _ _ H0), (qubit_eqb_neq _ _ H1); reflexivity.
Qed.

(** The primitive does not depend on the order of its two controls. *)
Lemma toffoli_swap (b0 b1 : bool) (c0 c1 t : qubit) (s : state) :
  c0 <> t -> c1 <> t -> c0 <> c1 ->
  same_state (run_gates (toffoli b0 b1 c0 c1 t) s)
    (run_gates (toffoli b1 b0 c1 c0 t) s).
Proof.
  intros H0 H1 H01 q.
  rewrite !toffoli_sem by congruence.
  now rewrite (andb_comm (Bool.eqb (s c0) b0)).
Qed.

(** A well-formed gate followed by its inverse is the identity. *)
Lemma apply_gate_undo (g : gate) (s : state) :
  gate_wf g = true ->
  same_state (apply_gate (inverse_gate g) (apply_gate g s)) s.
Proof.
  intros Hwf q. destruct g; simpl in *; try reflexivity.
  - unfold upd. qubit_cases. now rewrite negb_involutive.
  - destruct (qubit_eqb_spec c t) as [|Hne]; [discriminate|].
    unfold upd. qubit_cases.
    now rewrite xorb_assoc, xorb_nilpotent, xorb_false_r.
  - destruct (qubit_eqb_spec c0 t) as [|Hne0]; [discriminate|].
    destruct (qubit_eqb_spec c1 t) as [|Hne1]; [discriminate|].
    unfold upd. qubit_cases.
    now rewrite xorb_assoc, xorb_nilpotent, xorb_false_r.
Qed.

Lemma inverse_gates (gs : list gate) :
  inverse (gates gs) = gates (rev (map inverse_gate gs)).
Proof.
  unfold inverse, gates. rewrite map_rev, !map_map. reflexivity.
Qed.

Lemma run_gates_undo (gs : list gate) (s : state) :
  forallb gate_wf gs = true ->
  same_state (run_gates (rev (map inverse_gate gs)) (run_gates gs s)) s.
Proof.
  revert s. induction gs as [|g gs IH]; intros s H; [apply same_state_refl|].
  simpl in H. apply andb_prop in H. destruct H as [Hg Hgs].
  cbn [map rev]. rewrite run_gates_app, run_gates_single.
  change (run_gates (g :: gs) s) with (run_gates gs (apply_gate g s)).
  eapply same_state_trans; [|apply (apply_gate_undo g s Hg)].
  apply apply_gate_ext. now apply IH.
Qed.

Lemma py_index_head {A : Type} (a : A) (l : list A) :
  py_index (a :: l) 0 = Ok a.
Proof. apply (py_index_nth_error (a :: l) 0 a). reflexivity. Qed.

Lemma py_index_second {A : Type} (a b : A) (l : list A) :
  py_index (a :: b :: l) 1 = Ok b.
Proof. apply (py_index_nth_error (a :: b :: l) 1 b). reflexivity. Qed.

Lemma seq_head (n : nat) : (1 <= n)%nat -> seq 0 n = O :: seq 1 (n - 1).
Proof. destruct n; [lia|]. simpl. now rewrite Nat.sub_0_r. Qed.

Section Descent.

Variable w : nat.
Variable k : Z.

Local Abbreviation e := (msb_bit w k).

Lemma encode_bits_seq : encode_bits w k = map e (seq 0 w).
Proof.
  apply nth_error_ext. intros i.
  destruct (Nat.ltb_spec i w) as [H|H].
  - rewrite encode_bits_nth, nth_error_map, nth_error_seq by lia.
    replace (i <? w)%nat with true by (symmetry; apply Nat.ltb_lt; lia).
    reflexivity.
  - replace (nth_error (encode_bits w k) i) with (@None bool)
      by (symmetry; apply nth_error_None; rewrite encode_bits_length; lia).
    symmetry. apply nth_error_None. rewrite length_map, length_seq. lia.
Qed.

(** The step of the descent at the position [j] of the control register is
    the chain step at [w - 1 - j], with its controls in the other order. *)
Lemma descent_step_sem (j : nat) (b st : state) :
  (1 <= j < w)%nat ->
  same_state st (set_chain w b k (w - j)) ->
  same_state
    (run_gates (toffoli (e j) true (Ctl j) (Anc (j - 1)) (Anc j)) st)
    (set_chain w b k (w - S j)).
Proof.
  intros Hj H.
  assert (Ea : Ctl j = aq w (w - S j)) by (unfold aq; f_equal; lia).
  assert (Eb : Anc j = bq w (w - S j)) by (unfold bq; f_equal; lia).
  assert (Ec : Anc (j - 1) = chain_ctl w (w - S j)).
  { rewrite chain_ctl_below by lia. unfold bq. f_equal. lia. }
  eapply same_state_trans.
  - apply toffoli_swap; rewrite ?Ea, ?Eb, ?Ec;
      auto using chain_ctl_neq_aq, aq_neq_bq, not_eq_sym.
    apply chain_ctl_neq_bq. lia.
  - rewrite Ea, Eb, Ec. unfold msb_bit.
    replace (w - 1 - j)%nat with (w - S j)%nat by lia.
    apply (chain_step_build w b k (w - S j)); [lia|].
    now replace (S (w - S j)) with (w - j)%nat by lia.
Qed.

Lemma walkDown_helper_sem (m : nat) :
  forall j myc,
    (1 <= j)%nat -> (j + m = w)%nat ->
    exists gs,
      walkDown_helper myc (map e (seq j m)) (map Ctl (seq j m))
        (map Anc (seq (j - 1) (S m))) = Ok (myc ++ gates gs) /\
      forallb gate_wf gs = true /\
      forall st b,
        same_state st (set_chain w b k (w - j)) ->
        same_state (run_gates gs st) (set_chain w b k 0).
Proof.
  induction m as [|m IH]; intros j myc Hj Hjm.
  - exists []. simpl. rewrite app_nil_r. repeat split.
    intros st b H. now replace (w - j)%nat with O in H by lia.
  - cbn [seq map walkDown_helper].
    rewrite !py_index_head, py_index_second.
    cbn [bind skipn].
    replace (S (j - 1)) with j by lia.
    destruct (IH (S j)
                (myc ++ gates (toffoli (e j) true (Ctl j) (Anc (j - 1)) (Anc j)))
                ltac:(lia) ltac:(lia)) as (gs & Hgs & Hwf & Hsem).
    replace (S j - 1)%nat with j in Hgs by lia.
    rewrite <- cons_seq in Hgs. cbn [map] in Hgs.
    rewrite Hgs.
    exists (toffoli (e j) true (Ctl j) (Anc (j - 1)) (Anc j) ++ gs).
    split; [|split].
    + unfold gates. now rewrite map_app, app_assoc.
    + rewrite forallb_app, Hwf, andb_true_r.
      apply toffoli_wf; [discriminate|]. intros E. injection E. lia.
    + intros st b H. rewrite run_gates_app. apply Hsem.
      apply descent_step_sem; [lia | exact H].
Qed.

(** [walkDown] on the path of [k] builds the complete chain of [k]. *)
Lemma walkDown_sem :
  (1 <= w)%nat ->
  exists gs,
    walkDown (true :: encode_bits w k) (Phs :: ctl_reg w) (anc_reg w)
    = Ok (gates gs) /\
    forallb gate_wf gs = true /\
    forall st b,
      same_state st (set_chain w b k w) ->
      same_state (run_gates gs st) (set_chain w b k 0).
Proof.
  intros Hw. rewrite encode_bits_seq. unfold ctl_reg, anc_reg.
  rewrite (seq_head w Hw). unfold walkDown. cbn [map].
  rewrite !py_index_head, !py_index_second.
  cbn [bind skipn].
  destruct (walkDown_helper_sem (w - 1) 1
              (gates (toffoli true (e 0%nat) Phs (Ctl 0) (Anc 0)))
              ltac:(lia) ltac:(lia)) as (gs & Hgs & Hwf & Hsem).
  change (Anc 0 :: map Anc (seq 1 (w - 1)))
    with (map Anc (seq (1 - 1) (S (w - 1)))).
  rewrite Hgs.
  exists (toffoli true (e 0%nat) Phs (Ctl 0) (Anc 0) ++ gs).
  split; [|split].
  - unfold gates. now rewrite map_app.
  - rewrite forallb_app, Hwf, andb_true_r.
    apply toffoli_wf; discriminate.
  - intros st b H. rewrite run_gates_app. apply Hsem.
    assert (Ec : Phs = chain_ctl w (w - 1)).
    { unfold chain_ctl.
      replace (w - 1 + 1 =? w)%nat with true
        by (symmetry; apply Nat.eqb_eq; lia). reflexivity. }
    assert (Ea : Ctl 0 = aq w (w - 1)) by (unfold aq; f_equal; lia).
    assert (Eb : Anc 0 = bq w (w - 1)) by (unfold bq; f_equal; lia).
    rewrite Ec, Ea, Eb. unfold msb_bit. rewrite Nat.sub_0_r.
    apply (chain_step_build w b k (w - 1)); [lia|].
    now replace (S (w - 1)) with w by lia.
Qed.

End Descent.

End WalkDown.

(** * The tree traversal against the reference behaviour *)

Module TreeSem.

Import Codec CodecFacts Sim SimFacts Tree WalkFacts TreeFacts StepRight
  WalkDown WalkSem.

Lemma key_range_cons (lo hi : Z) :
  lo < hi -> key_range lo hi = lo :: key_range (lo + 1) hi.
Proof.
  intros H. unfold key_range.
  replace (Z.to_nat (hi - lo)) with (S (Z.to_nat (hi - (lo + 1)))) by lia.
  cbn [seq map]. f_equal.
  rewrite <- seq_shift, map_map. apply map_ext. intros i. lia.
Qed.

Lemma key_range_nil (lo hi : Z) : hi <= lo -> key_range lo hi = [].
Proof.
  intros H. unfold key_range. now replace (Z.to_nat (hi - lo)) with O by lia.
Qed.

Lemma skipn_nth_error {A : Type} (l : list A) (n : nat) (a : A) :
  nth_error l n = Some a -> skipn n l = a :: skipn (S n) l.
Proof.
  revert l. induction n as [|n IH]; intros [|x l] H; try discriminate.
  - injection H as <-. reflexivity.
  - simpl in H. now apply IH.
Qed.

Lemma list_bool_eqb_refl (l : list bool) : list_bool_eqb l l = true.
Proof.
  unfold list_bool_eqb. destruct (list_eq_dec bool_dec l l); congruence.
Qed.

Lemma list_bool_eqb_neq (a b : list bool) : a <> b -> list_bool_eqb a b = false.
Proof.
  intros H. unfold list_bool_eqb.
  destruct (list_eq_dec bool_dec a b); congruence.
Qed.

Lemma path_inj (w : nat) (k e : Z) :
  0 <= k < 2 ^ Z.of_nat w -> 0 <= e < 2 ^ Z.of_nat w -> k <> e ->
  true :: encode_bits w k <> true :: encode_bits w e.
Proof.
  intros Hk He Hne E. injection E as E. apply Hne.
  rewrite <- (decode_encode_small w k Hk), <- (decode_encode_small w e He).
  now rewrite E.
Qed.

Section Tree.

Variable w : nat.
Variable tgts : list qubit.
Variable operators : list generator.
Hypothesis Hw : (1 <= w)%nat.

Local Abbreviation body := (payload_body w tgts operators).

Lemma ops_ok_head (k : Z) (rest : list Z) :
  ops_ok w tgts operators (k :: rest) = true ->
  (exists op, nth_error operators (Z.to_nat k) = Some op /\
              body k = op (bq w 0) tgts) /\
  targets_only (body k) = true /\
  ops_ok w tgts operators rest = true.
Proof.
  unfold ops_ok. cbn [forallb]. intros H.
  apply andb_prop in H. destruct H as [H Hr].
  apply andb_prop in H. destruct H as [H Ht].
  apply andb_prop in H. destruct H as [H0 H1].
  apply Z.leb_le in H0. apply Z.ltb_lt in H1.
  split; [|split; assumption].
  unfold payload_body in *.
  destruct (nth_error operators (Z.to_nat k)) as [op|] eqn:E.
  - exists op. split; [reflexivity|].
    rewrite <- (Z2Nat.id k) at 1 by lia.
    now rewrite (py_index_nth_error _ _ _ E).
  - apply nth_error_None in E. lia.
Qed.

(** [applyAndStep] from the key [k] to the key [e], [m] steps apart. *)
Lemma applyAndStep_sem (e : Z) (m : nat) :
  forall k myc,
    0 <= k -> k + Z.of_nat m = e -> e < 2 ^ Z.of_nat w ->
    ops_ok w tgts operators (key_range k (e + 1)) = true ->
    exists ext,
      applyAndStep_helper myc (skipn (Z.to_nat k) operators)
        (true :: encode_bits w k) (true :: encode_bits w e)
        (ctl_reg w) (Phs :: anc_reg w) tgts = Ok (myc ++ ext) /\
      forall st f b,
        same_state st (set_chain w b k 0) ->
        same_state (fst (run ext (st, f)))
          (set_chain w
             (fst (oracle_keys w body (key_range k (e + 1)) (b, f))) e 0) /\
        snd (run ext (st, f))
        = snd (oracle_keys w body (key_range k (e + 1)) (b, f)).
Proof.
  induction m as [|m IH]; intros k myc Hk Hke He Hok;
    rewrite key_range_cons in Hok |- * by lia;
    destruct (ops_ok_head _ _ Hok) as ((op & Hop & Hbody) & Ht & Hok');
    rewrite (skipn_nth_error _ _ _ Hop); cbn [applyAndStep_helper];
    change (-1) with (nth2last 0);
    rewrite (anc_last w w 0) by lia; cbn [bind]; rewrite <- Hbody.
  - (* the last key *)
    assert (k = e) by lia. subst k.
    rewrite list_bool_eqb_refl.
    exists [Payload (bq w 0) (body e)]. split; [reflexivity|].
    intros st f b H. rewrite key_range_nil by lia.
    cbn [run fold_left step oracle_keys fst snd].
    rewrite (H (bq w 0)). split; [|reflexivity].
    eapply same_state_trans; [apply run_gates_ext, H|].
    now apply payload_keeps_chain.
  - (* a key followed by a step to the right *)
    rewrite list_bool_eqb_neq by (apply path_inj; lia).
    unfold stepRight.
    destruct (stepRight_sem w (List.length (true :: encode_bits w k)) w 0 k
                (myc ++ [Payload (bq w 0) (body k)]))
      as (gs & Hgs & Hstep); try lia.
    { simpl. rewrite encode_bits_length. lia. }
    rewrite Hgs. cbn [bind].
    rewrite path_increment by lia. cbn [bind].
    destruct (IH (k + 1) ((myc ++ [Payload (bq w 0) (body k)]) ++ gates gs))
      as (ext & Hext & Hrun); try lia.
    { now replace (e + 1) with (e + 1) by lia. }
    replace (Z.to_nat (k + 1)) with (S (Z.to_nat k)) in Hext by lia.
    rewrite Hext.
    exists ([Payload (bq w 0) (body k)] ++ gates gs ++ ext).
    split; [now rewrite <- !app_assoc|].
    intros st f b H. rewrite !run_app.
    cbn [run fold_left step oracle_keys] in *.
    rewrite run_gates_circuit. rewrite (H (bq w 0)).
    apply Hrun.
    rewrite <- (Z.shiftl_0_r (k + 1)).
    apply Hstep. simpl Z.of_nat. rewrite Z.shiftl_0_r.
    eapply same_state_trans; [apply run_gates_ext, H|].
    now apply payload_keeps_chain.
Qed.

(** The three circuits of the tree traversal, on a non-empty key range. *)
Lemma decompose_tree_sem (pos1 pos2 : Z) :
  0 <= pos1 < pos2 -> pos2 <= 2 ^ Z.of_nat w ->
  ops_ok w tgts operators (key_range pos1 pos2) = true ->
  exists circ,
    decompose_tree operators pos1 pos2 (ctl_reg w) Phs (anc_reg w) tgts
    = Ok circ /\
    forall st f,
      ancilla_clear w st ->
      same_state (fst (run circ (st, f)))
        (fst (oracle w body (key_range pos1 pos2) (st, f))) /\
      snd (run circ (st, f))
      = snd (oracle w body (key_range pos1 pos2) (st, f)).
Proof.
  intros Hpos Hhi Hok. unfold decompose_tree.
  assert (Hlen : List.length (ctl_reg w) = w).
  { unfold ctl_reg. now rewrite length_map, length_seq. }
  rewrite Hlen.
  rewrite !constructBooleanTree_encode by lia. cbn [bind].
  destruct (walkDown_sem w pos1 Hw) as (down & Hdown & _ & Sdown).
  destruct (walkDown_sem w (pos2 - 1) Hw) as (up & Hup & Wup & Sup).
  rewrite Hdown, Hup. cbn [bind].
  unfold py_slice_from.
  replace (pos1 <? 0) with false by (symmetry; apply Z.ltb_ge; lia).
  unfold applyAndStep.
  destruct (applyAndStep_sem (pos2 - 1) (Z.to_nat (pos2 - 1 - pos1)) pos1 [])
    as (ext & Hext & Srun); try lia.
  { now replace (pos2 - 1 + 1) with pos2 by lia. }
  replace (pos2 - 1 + 1) with pos2 in * by lia.
  rewrite Hext. cbn [bind app].
  exists (gates down ++ ext ++ inverse (gates up)). split; [reflexivity|].
  intros st f Hclear. rewrite !run_app, run_gates_circuit.
  destruct (Srun (run_gates down st) f st) as [Hs Hf].
  { apply Sdown. now apply ancilla_clear_chain. }
  unfold oracle.
  destruct (oracle_keys w body (key_range pos1 pos2) (st, f)) as [b' f'].
  destruct (run ext (run_gates down st, f)) as [s1 f1].
  rewrite inverse_gates, run_gates_circuit. simpl in *.
  split; [|exact Hf].
  eapply same_state_trans.
  - apply run_gates_ext.
    eapply same_state_trans; [exact Hs|].
    apply same_state_sym. apply (Sup (set_chain w b' (pos2 - 1) w) b').
    apply same_state_refl.
  - eapply same_state_trans; [apply run_gates_undo; exact Wup|].
    now apply set_chain_top.
Qed.

End Tree.

End TreeSem.

(** * The two strategies, gate by gate *)

Module Equiv.

Import Codec CodecFacts Sim SimFacts Walk Tree WalkFacts BitFacts TreeFacts
  StepRight WalkDown.

Lemma gates_equiv_refl (g : list gate) : gates_equiv g g.
Proof. intros st. apply same_state_refl. Qed.

Lemma gates_equiv_sym (g1 g2 : list gate) :
  gates_equiv g1 g2 -> gates_equiv g2 g1.
Proof. intros H st. apply same_state_sym, H. Qed.

Lemma gates_equiv_trans (g1 g2 g3 : list gate) :
  gates_equiv g1 g2 -> gates_equiv g2 g3 -> gates_equiv g1 g3.
Proof. intros H1 H2 st. eapply same_state_trans; [apply H1 | apply H2]. Qed.

Lemma gates_equiv_app (g1 g1' g2 g2' : list gate) :
  gates_equiv g1 g1' -> gates_equiv g2 g2' ->
  gates_equiv (g1 ++ g2) (g1' ++ g2').
Proof.
  intros H1 H2 st. rewrite !run_gates_app.
  eapply same_state_trans; [apply run_gates_ext, H1 | apply H2].
Qed.

Lemma circuit_equiv_refl (c : circuit) : circuit_equiv c c.
Proof. intros st f. split; [apply same_state_refl | reflexivity]. Qed.

Lemma circuit_equiv_app (c1 c1' c2 c2' : circuit) :
  circuit_equiv c1 c1' -> circuit_equiv c2 c2' ->
  circuit_equiv (c1 ++ c2) (c1' ++ c2').
Proof.
  intros H1 H2 st f. rewrite !run_app.
  destruct (H1 st f) as [Hs Hf].
  destruct (run c1 (st, f)) as [s1 f1]. destruct (run c1' (st, f)) as [s1' f1'].
  cbn [fst snd] in Hs, Hf. subst f1'.
  destruct (run_ext c2 s1 s1' f1 Hs) as [Es Ef].
  destruct (H2 s1' f1) as [Hs2 Hf2].
  split; [eapply same_state_trans; eassumption | congruence].
Qed.

Lemma circuit_equiv_gates (g1 g2 : list gate) :
  gates_equiv g1 g2 -> circuit_equiv (gates g1) (gates g2).
Proof.
  intros H st f. rewrite !run_gates_circuit. split; [apply H | reflexivity].
Qed.

Lemma toffoli_swap_equiv (b0 b1 : bool) (c0 c1 t : qubit) :
  c0 <> t -> c1 <> t -> c0 <> c1 ->
  gates_equiv (toffoli b0 b1 c0 c1 t) (toffoli b1 b0 c1 c0 t).
Proof. intros H0 H1 H2 st. now apply toffoli_swap. Qed.

Lemma toffoli_inverse (b0 b1 : bool) (c0 c1 t : qubit) :
  rev (map inverse_gate (toffoli b0 b1 c0 c1 t)) = toffoli b0 b1 c0 c1 t.
Proof. destruct b0, b1; reflexivity. Qed.

(** The three gates of the distance-2 step against the three gates of the
    transition of [qrom], on every basis state. *)
Lemma distance2_equiv (q0 q1 q2 a : qubit) :
  q0 <> q1 -> q0 <> q2 -> q0 <> a -> q1 <> q2 -> q1 <> a -> q2 <> a ->
  gates_equiv
    ([CX_on q1 q0] ++ toffoli true false q2 a q0 ++ [CX_on q2 q1])
    (toffoli true true q1 a q0 ++ [CX_on q2 q1] ++ toffoli true false q1 a q0).
Proof.
  intros N01 N02 N0a N12 N1a N2a st q.
  rewrite !run_gates_app, !run_gates_single.
  repeat first [ progress cbn [apply_gate]
               | progress unfold upd
               | rewrite toffoli_sem by congruence ].
  repeat match goal with
         | |- context [qubit_eqb ?x ?y] =>
             destruct (qubit_eqb_spec x y); subst; try congruence
         end;
    repeat match goal with
           | |- context [st ?x] => destruct (st x)
           end; reflexivity.
Qed.

Lemma flat_map_ext_on {A B : Type} (f g : A -> list B) (l : list A) :
  (forall x, In x l -> f x = g x) -> flat_map f l = flat_map g l.
Proof.
  induction l as [|a l IH]; intros H; [reflexivity|].
  cbn [flat_map]. rewrite (H a (or_introl eq_refl)), IH; [reflexivity|].
  intros x Hx. apply H. now right.
Qed.

Lemma chain_ctl_neq_aq_any (w i j : nat) : chain_ctl w i <> aq w j.
Proof. unfold chain_ctl, aq, bq. destruct (Nat.eqb (i + 1) w); discriminate. Qed.

Section Steps.

Variable w : nat.

Lemma carry_gates_base (d : nat) :
  carry_gates w d d = [CX_on (chain_ctl w d) (bq w d)].
Proof. unfold carry_gates. now rewrite Nat.sub_diag. Qed.

Lemma carry_gates_step (d c : nat) :
  (d < c)%nat ->
  carry_gates w d c
  = toffoli true true (chain_ctl w d) (aq w d) (bq w d)
    ++ carry_gates w (S d) c
    ++ toffoli true false (chain_ctl w d) (aq w d) (bq w d).
Proof.
  intros H. unfold carry_gates.
  replace (c - d)%nat with (S (c - S d)) by lia.
  cbn [seq rev flat_map]. rewrite flat_map_app. cbn [flat_map].
  now rewrite app_nil_r, <- !app_assoc.
Qed.

(** [stepRight] on the path of [p], at depth [d]: its gates act as the
    transition of [qrom] from [p] to [p + 1], whose carry stops at [c]. *)
Lemma stepRight_equiv (fuel : nat) :
  forall n d p circ,
    (n + d = w)%nat -> (1 <= n)%nat -> (n <= fuel)%nat ->
    0 <= p -> p + 1 < 2 ^ Z.of_nat n ->
    exists gs c,
      stepRight_rec fuel circ (true :: encode_bits n p) (ctl_reg n)
        (Phs :: anc_reg n) = Ok (circ ++ gates gs) /\
      (d <= c < w)%nat /\
      (forall j, (j < c - d)%nat ->
         Z.testbit p (Z.of_nat j) = true /\
         Z.testbit (p + 1) (Z.of_nat j) = false) /\
      Z.testbit p (Z.of_nat (c - d)) = false /\
      Z.testbit (p + 1) (Z.of_nat (c - d)) = true /\
      (forall j, (c - d < j)%nat ->
         Z.testbit p (Z.of_nat j) = Z.testbit (p + 1) (Z.of_nat j)) /\
      gates_equiv gs (carry_gates w d c).
Proof.
  induction fuel as [|fuel IH]; intros n d p circ Hnd Hn Hf Hp0 Hp1; [lia|].
  rewrite stepRight_rec_unfold, path_increment by assumption. cbn [bind].
  rewrite path_distance by assumption.
  assert (Hlen : List.length (Phs :: anc_reg n) = S n).
  { unfold anc_reg. simpl. now rewrite length_map, length_seq. }
  rewrite Hlen.
  destruct n as [|n]; [lia|]. rewrite leading_ones_path.
  destruct (Z.testbit p 0) eqn:B0.
  - (* the lowest bit is 1 *)
    destruct n as [|n].
    { exfalso. assert (p = 0) by (simpl in Hp1; lia). subst p. discriminate. }
    destruct (succ_odd_bits p B0) as (Ediv & B0' & Bhi').
    rewrite leading_ones_path1.
    destruct (Z.testbit p 1) eqn:B1.
    + (* distance at least 3 *)
      rewrite (ctl_last w (S (S n)) d Hnd) by lia.
      rewrite (anc_last w (S (S n)) d Hnd) by lia.
      rewrite (anc_last2 w (S (S n)) d Hnd) by lia.
      cbn [bind].
      rewrite path_removelast.
      unfold ctl_reg at 1. rewrite removelast_map_seq.
      unfold anc_reg at 1. rewrite removelast_cons_map_seq.
      fold (ctl_reg (S n)). fold (anc_reg (S n)).
      destruct (IH (S n) (S d) (Z.div2 p)
                  (circ ++ gates (toffoli true true (chain_ctl w d) (aq w d)
                                    (bq w d))))
        as (gs & c & Hgs & Hc & Hlow & Hz & Ho & Hhi & Heq); try lia.
      { rewrite (Nat2Z.inj_succ (S n)), Z.pow_succ_r in Hp1 by lia. lia. }
      rewrite Hgs. cbn [bind].
      exists (toffoli true true (chain_ctl w d) (aq w d) (bq w d)
              ++ gs
              ++ toffoli true false (chain_ctl w d) (aq w d) (bq w d)), c.
      assert (Hsub : (c - d = S (c - S d))%nat) by lia.
      split; [|split; [lia|split; [|split; [|split; [|split]]]]].
      * unfold gates. now rewrite !map_app, <- !app_assoc.
      * intros j Hj. destruct j as [|j]; [split; assumption|].
        replace (Z.of_nat (S j)) with (Z.of_nat j + 1) by lia.
        rewrite Bhi', <- div2_bits by lia. apply Hlow. lia.
      * rewrite Hsub.
        replace (Z.of_nat (S (c - S d))) with (Z.of_nat (c - S d) + 1) by lia.
        now rewrite <- div2_bits by lia.
      * rewrite Hsub.
        replace (Z.of_nat (S (c - S d))) with (Z.of_nat (c - S d) + 1) by lia.
        now rewrite Bhi' by lia.
      * intros j Hj. destruct j as [|j]; [lia|].
        replace (Z.of_nat (S j)) with (Z.of_nat j + 1) by lia.
        rewrite Bhi', <- div2_bits by lia. apply Hhi. lia.
      * rewrite carry_gates_step by lia.
        apply gates_equiv_app; [apply gates_equiv_refl|].
        apply gates_equiv_app; [exact Heq | apply gates_equiv_refl].
    + (* distance 2 *)
      replace (Nat.eqb (S (S (S n))) 2) with false by reflexivity.
      rewrite (anc_last w (S (S n)) d Hnd) by lia.
      rewrite (anc_last2 w (S (S n)) d Hnd) by lia.
      rewrite (anc_last3 w (S (S n)) d Hnd) by lia.
      rewrite (ctl_last w (S (S n)) d Hnd) by lia.
      cbn [bind].
      exists ([CX_on (chain_ctl w d) (bq w d)]
              ++ toffoli true false (chain_ctl w (d + 1)) (aq w d) (bq w d)
              ++ [CX_on (chain_ctl w (d + 1)) (chain_ctl w d)]), (S d).
      assert (B1' : Z.testbit (Z.div2 p) 0 = false)
        by (rewrite div2_bits by lia; exact B1).
      destruct (succ_even_bits _ B1') as (Q0 & Qhi).
      replace (S d - d)%nat with 1%nat by lia.
      split; [|split; [lia|split; [|split; [|split; [|split]]]]].
      * unfold gates. now rewrite !map_app.
      * intros j Hj. assert (j = O) by lia. subst j. split; assumption.
      * exact B1.
      * change (Z.of_nat 1) with (0 + 1). now rewrite Bhi' by lia.
      * intros j Hj.
        replace (Z.of_nat j) with ((Z.of_nat j - 1) + 1) by lia.
        rewrite Bhi', Qhi, div2_bits by lia. reflexivity.
      * rewrite carry_gates_step, carry_gates_base by lia.
        assert (Ec : chain_ctl w d = bq w (d + 1))
          by (apply chain_ctl_below; lia).
        replace (S d) with (d + 1)%nat by lia. rewrite Ec.
        apply distance2_equiv.
        -- unfold bq. intros E. injection E. lia.
        -- apply not_eq_sym. unfold chain_ctl, bq.
           destruct (Nat.eqb (d + 1 + 1) w); [discriminate|].
           intros E. injection E. lia.
        -- apply not_eq_sym, aq_neq_bq.
        -- apply not_eq_sym, chain_ctl_neq_bq. lia.
        -- apply not_eq_sym, aq_neq_bq.
        -- apply chain_ctl_neq_aq_any.
  - (* the lowest bit is 0: distance 1 *)
    replace (Nat.eqb (S (S n)) 1) with false by reflexivity.
    rewrite (anc_last w (S n) d Hnd) by lia.
    rewrite (anc_last2 w (S n) d Hnd) by lia.
    cbn [bind].
    destruct (succ_even_bits p B0) as (Q0 & Qhi).
    exists [CX_on (chain_ctl w d) (bq w d)], d.
    rewrite Nat.sub_diag.
    split; [reflexivity|]. split; [lia|]. split; [intros j Hj; lia|].
    split; [exact B0|]. split; [exact Q0|].
    split; [intros j Hj; symmetry; apply Qhi; lia|].
    rewrite carry_gates_base. apply gates_equiv_refl.
Qed.

(** The transition of [qrom] between consecutive keys, in the same form. *)
Lemma transition_carry (k : Z) (c : nat) (circ : circuit) :
  0 <= k -> k + 1 < 2 ^ Z.of_nat w -> (c < w)%nat ->
  (forall j, (j < c)%nat ->
     Z.testbit k (Z.of_nat j) = true /\
     Z.testbit (k + 1) (Z.of_nat j) = false) ->
  Z.testbit k (Z.of_nat c) = false ->
  Z.testbit (k + 1) (Z.of_nat c) = true ->
  (forall j, (c < j)%nat ->
     Z.testbit k (Z.of_nat j) = Z.testbit (k + 1) (Z.of_nat j)) ->
  transition w Phs (rev (ctl_reg w)) (rev (anc_reg w)) k (k + 1) circ
  = Ok (circ ++ gates (carry_gates w 0 c)).
Proof.
  intros Hk Hk1 Hc Hlow Hz Ho Habove.
  destruct (msb_diff w k (k + 1) ltac:(lia) Hk1)
    as (c0 & Hc0 & Heq & Hne & Hhi & Hb0 & Hb1).
  assert (c0 = c).
  { destruct (Nat.lt_trichotomy c0 c) as [H|[H|H]]; [|exact H|].
    - destruct (Hlow c0 H) as [H1 H2]. congruence.
    - specialize (Habove c0 H). congruence. }
  subst c0.
  rewrite (transition_eq w k (k + 1) c circ Hc Hne Heq).
  f_equal. f_equal. unfold carry_gates, gates.
  rewrite Nat.sub_0_r, !map_app. f_equal; [|f_equal]; f_equal.
  - apply flat_map_ext_on. intros i Hi. apply in_seq in Hi.
    unfold chain_step. now rewrite (proj1 (Hlow i ltac:(lia))).
  - apply flat_map_ext_on. intros i Hi. apply in_rev, in_seq in Hi.
    unfold chain_step. now rewrite (proj2 (Hlow i ltac:(lia))).
Qed.

(** One step from key [k] to key [k + 1], in both strategies. *)
Lemma step_equiv (k : Z) (cw ct : circuit) :
  (1 <= w)%nat -> 0 <= k -> k + 1 < 2 ^ Z.of_nat w ->
  exists tg sg,
    transition w Phs (rev (ctl_reg w)) (rev (anc_reg w)) k (k + 1) cw
    = Ok (cw ++ gates tg) /\
    stepRight ct (true :: encode_bits w k) (ctl_reg w) (Phs :: anc_reg w)
    = Ok (ct ++ gates sg) /\
    gates_equiv sg tg.
Proof.
  intros Hw Hk Hk1. unfold stepRight.
  destruct (stepRight_equiv (List.length (true :: encode_bits w k)) w 0 k ct)
    as (sg & c & Hsg & Hc & Hlow & Hz & Ho & Hhi & Heq); try lia.
  { simpl. rewrite encode_bits_length. lia. }
  rewrite Nat.sub_0_r in *.
  exists (carry_gates w 0 c), sg. split; [|split; assumption].
  apply transition_carry; (assumption || lia).
Qed.

End Steps.

Section Descent.

Variable w : nat.
Variable k : Z.

Local Abbreviation e := (msb_bit w k).

(** The step of the descent at position [j] of the control register acts
    as the chain step at [w - 1 - j]. *)
Lemma descent_step_equiv (j m : nat) :
  (1 <= j)%nat -> (j + S m = w)%nat ->
  gates_equiv (toffoli (e j) true (Ctl j) (Anc (j - 1)) (Anc j))
    (chain_step w k m).
Proof.
  intros Hj Hjm.
  assert (Ea : Ctl j = aq w m) by (unfold aq; f_equal; lia).
  assert (Eb : Anc j = bq w m) by (unfold bq; f_equal; lia).
  assert (Ec : Anc (j - 1) = chain_ctl w m).
  { rewrite chain_ctl_below by lia. unfold bq. f_equal. lia. }
  unfold chain_step, msb_bit. rewrite Ea, Eb, Ec.
  replace (w - 1 - j)%nat with m by lia.
  apply toffoli_swap_equiv.
  - apply aq_neq_bq.
  - apply chain_ctl_neq_bq. lia.
  - apply not_eq_sym, chain_ctl_neq_aq.
Qed.

Lemma walkDown_helper_equiv (m : nat) :
  forall j myc,
    (1 <= j)%nat -> (j + m = w)%nat ->
    exists gs,
      walkDown_helper myc (map e (seq j m)) (map Ctl (seq j m))
        (map Anc (seq (j - 1) (S m))) = Ok (myc ++ gates gs) /\
      gates_equiv gs (flat_map (chain_step w k) (rev (seq 0 m))) /\
      gates_equiv (rev (map inverse_gate gs))
        (flat_map (chain_step w k) (seq 0 m)).
Proof.
  induction m as [|m IH]; intros j myc Hj Hjm.
  - exists []. simpl. rewrite app_nil_r.
    repeat split; apply gates_equiv_refl.
  - cbn [seq map walkDown_helper].
    rewrite !py_index_head, py_index_second.
    cbn [bind skipn].
    replace (S (j - 1)) with j by lia.
    destruct (IH (S j)
                (myc ++ gates (toffoli (e j) true (Ctl j) (Anc (j - 1)) (Anc j)))
                ltac:(lia) ltac:(lia)) as (gs & Hgs & Hb & Hu).
    replace (S j - 1)%nat with j in Hgs by lia.
    rewrite <- cons_seq in Hgs. cbn [map] in Hgs.
    rewrite Hgs.
    exists (toffoli (e j) true (Ctl j) (Anc (j - 1)) (Anc j) ++ gs).
    pose proof (descent_step_equiv j m Hj Hjm) as Hstep.
    split; [|split].
    + unfold gates. now rewrite map_app, app_assoc.
    + change (O :: seq 1 m) with (seq 0 (S m)).
      rewrite seq_S, rev_app_distr. cbn [rev app flat_map Nat.add].
      now apply gates_equiv_app.
    + change (O :: seq 1 m) with (seq 0 (S m)).
      rewrite seq_S, flat_map_app. cbn [flat_map Nat.add].
      rewrite app_nil_r, map_app, rev_app_distr, toffoli_inverse.
      now apply gates_equiv_app.
Qed.

(** [walkDown] on the path of [k] acts as the first loop of [qrom] on
    [k], and its inverse as the last loop. *)
Lemma walkDown_equiv :
  (1 <= w)%nat ->
  exists gs,
    walkDown (true :: encode_bits w k) (Phs :: ctl_reg w) (anc_reg w)
    = Ok (gates gs) /\
    gates_equiv gs (flat_map (chain_step w k) (rev (seq 0 w))) /\
    gates_equiv (rev (map inverse_gate gs))
      (flat_map (chain_step w k) (seq 0 w)).
Proof.
  intros Hw. rewrite encode_bits_seq. unfold ctl_reg, anc_reg.
  rewrite (seq_head w Hw). unfold walkDown. cbn [map].
  rewrite !py_index_head, !py_index_second.
  cbn [bind skipn].
  destruct (walkDown_helper_equiv (w - 1) 1
              (gates (toffoli true (e 0%nat) Phs (Ctl 0) (Anc 0)))
              ltac:(lia) ltac:(lia)) as (gs & Hgs & Hb & Hu).
  change (Anc 0 :: map Anc (seq 1 (w - 1)))
    with (map Anc (seq (1 - 1) (S (w - 1)))).
  rewrite Hgs.
  exists (toffoli true (e 0%nat) Phs (Ctl 0) (Anc 0) ++ gs).
  assert (Ec : Phs = chain_ctl w (w - 1)).
  { unfold chain_ctl.
    replace (w - 1 + 1 =? w)%nat with true
      by (symmetry; apply Nat.eqb_eq; lia). reflexivity. }
  assert (Ea : Ctl 0 = aq w (w - 1)) by (unfold aq; f_equal; lia).
  assert (Eb : Anc 0 = bq w (w - 1)) by (unfold bq; f_equal; lia).
  assert (Et : toffoli true (e 0%nat) Phs (Ctl 0) (Anc 0)
               = chain_step w k (w - 1)).
  { unfold chain_step, msb_bit. rewrite <- Ec, <- Ea, <- Eb.
    now rewrite Nat.sub_0_r. }
  assert (Es : seq 0 w = seq 0 (w - 1) ++ [(w - 1)%nat]).
  { replace w with (S (w - 1)) at 1 by lia. now rewrite seq_S. }
  split; [|split].
  - unfold gates. now rewrite map_app.
  - rewrite <- (seq_head w Hw), Es, rev_app_distr.
    cbn [rev app flat_map]. rewrite Et.
    apply gates_equiv_app; [apply gates_equiv_refl | exact Hb].
  - rewrite <- (seq_head w Hw), Es, flat_map_app. cbn [flat_map].
    rewrite app_nil_r, map_app, rev_app_distr, toffoli_inverse, Et.
    apply gates_equiv_app; [exact Hu | apply gates_equiv_refl].
Qed.

End Descent.

Lemma py_index_past_end {A : Type} (l : list A) (i : Z) :
  Z.of_nat (List.length l) <= i -> py_index l i = Raise IndexError.
Proof.
  intros H. unfold py_index.
  replace (i <? 0) with false by (symmetry; apply Z.ltb_ge; lia).
  replace (i <? Z.of_nat (List.length l)) with false
    by (symmetry; apply Z.ltb_ge; lia).
  now rewrite andb_false_r.
Qed.

Lemma py_index_at {A : Type} (l : list A) (i : Z) (a : A) :
  0 <= i -> nth_error l (Z.to_nat i) = Some a -> py_index l i = Ok a.
Proof.
  intros Hi H. rewrite <- (Z2Nat.id i) by lia. now apply py_index_nth_error.
Qed.

Lemma nth_error_below {A : Type} (l : list A) (i : Z) :
  0 <= i < Z.of_nat (List.length l) ->
  exists a, nth_error l (Z.to_nat i) = Some a.
Proof.
  intros H. destruct (nth_error l (Z.to_nat i)) as [a|] eqn:E;
    [now exists a|].
  apply nth_error_None in E. lia.
Qed.

Section Strategies.

Variable w : nat.
Variable tgts : list qubit.
Variable operators : list generator.
Hypothesis Hw : (1 <= w)%nat.

Local Abbreviation addrQubits := (rev (ctl_reg w)).
Local Abbreviation ancQubits := (rev (anc_reg w)).
Local Abbreviation block :=
  (fun op : generator => Payload (bq w 0) (op (bq w 0) tgts)).

(** The keys after [k], in the walk, against the keys from [k] on, in the
    tree traversal, when every key has an operator. *)
Lemma loops_equiv (e : Z) (m : nat) :
  forall k cw ct op,
    0 <= k -> k + Z.of_nat m = e -> e < 2 ^ Z.of_nat w ->
    e < Z.of_nat (List.length operators) ->
    nth_error operators (Z.to_nat k) = Some op ->
    exists extw extt,
      key_loop w Phs addrQubits ancQubits tgts operators
        (key_range (k + 1) (e + 1)) k cw = Ok (e, cw ++ extw) /\
      applyAndStep_helper ct (skipn (Z.to_nat k) operators)
        (true :: encode_bits w k) (true :: encode_bits w e)
        (ctl_reg w) (Phs :: anc_reg w) tgts = Ok (ct ++ extt) /\
      circuit_equiv (block op :: extw) extt.
Proof.
  induction m as [|m IH]; intros k cw ct op Hk Hke He Hlen Hop;
    rewrite (TreeSem.skipn_nth_error _ _ _ Hop); cbn [applyAndStep_helper];
    change (-1) with (nth2last 0);
    rewrite (anc_last w w 0) by lia; cbn [bind].
  - assert (k = e) by lia. subst k.
    rewrite TreeSem.key_range_nil by lia. cbn [key_loop].
    rewrite TreeSem.list_bool_eqb_refl.
    exists [], [block op]. rewrite app_nil_r.
    repeat split; apply circuit_equiv_refl.
  - rewrite TreeSem.list_bool_eqb_neq by (apply TreeSem.path_inj; lia).
    rewrite TreeSem.key_range_cons by lia. cbn [key_loop].
    replace (k =? -1) with false by (symmetry; apply Z.eqb_neq; lia).
    destruct (step_equiv w k cw (ct ++ [block op]) Hw Hk ltac:(lia))
      as (tg & sg & Htg & Hsg & Heq).
    rewrite Htg, Hsg. cbn [bind].
    rewrite path_increment by lia. cbn [bind].
    destruct (nth_error_below operators (k + 1) ltac:(lia)) as (op' & Hop').
    rewrite (py_index_at operators (k + 1) op') by (assumption || lia).
    cbn [bind].
    replace (py_index ancQubits 0) with (Ok (bq w 0))
      by (symmetry; apply (anc_index w 0); lia).
    cbn [bind].
    destruct (IH (k + 1) ((cw ++ gates tg) ++ [block op'])
                ((ct ++ [block op]) ++ gates sg) op')
      as (extw & extt & Hw' & Ht' & Heq'); try lia; try assumption.
    replace (Z.to_nat (k + 1)) with (S (Z.to_nat k)) in Ht' by lia.
    rewrite Hw', Ht'.
    exists (gates tg ++ block op' :: extw), ([block op] ++ gates sg ++ extt).
    split; [now rewrite <- !app_assoc|].
    split; [now rewrite <- !app_assoc|].
    apply (circuit_equiv_app [block op] [block op]
             (gates tg ++ block op' :: extw) (gates sg ++ extt));
      [apply circuit_equiv_refl|].
    apply circuit_equiv_app; [|exact Heq'].
    apply circuit_equiv_gates, gates_equiv_sym, Heq.
Qed.

(** When the table has no operator for the last key, both loops raise
    IndexError. *)
Lemma loops_raise (e : Z) (m : nat) :
  forall k cw ct,
    0 <= k -> k + Z.of_nat m = e -> e < 2 ^ Z.of_nat w ->
    Z.of_nat (List.length operators) <= e ->
    applyAndStep_helper ct (skipn (Z.to_nat k) operators)
      (true :: encode_bits w k) (true :: encode_bits w e)
      (ctl_reg w) (Phs :: anc_reg w) tgts = Raise IndexError /\
    (k < Z.of_nat (List.length operators) ->
     key_loop w Phs addrQubits ancQubits tgts operators
       (key_range (k + 1) (e + 1)) k cw = Raise IndexError).
Proof.
  induction m as [|m IH]; intros k cw ct Hk Hke He Hlen.
  - split; [|lia].
    rewrite skipn_all2 by lia. reflexivity.
  - destruct (Z.lt_ge_cases k (Z.of_nat (List.length operators))) as [Hin|Hout].
    + destruct (nth_error_below operators k ltac:(lia)) as (op & Hop).
      destruct (step_equiv w k cw (ct ++ [block op]) Hw Hk ltac:(lia))
        as (tg & sg & Htg & Hsg & Heq).
      destruct (IH (k + 1) ((cw ++ gates tg)) ((ct ++ [block op]) ++ gates sg))
        as (Ht' & Hw'); try lia.
      split.
      * rewrite (TreeSem.skipn_nth_error _ _ _ Hop). cbn [applyAndStep_helper].
        change (-1) with (nth2last 0).
        rewrite (anc_last w w 0) by lia. cbn [bind].
        rewrite TreeSem.list_bool_eqb_neq by (apply TreeSem.path_inj; lia).
        rewrite Hsg. cbn [bind].
        rewrite path_increment by lia. cbn [bind].
        replace (Z.to_nat (k + 1)) with (S (Z.to_nat k)) in Ht' by lia.
        exact Ht'.
      * intros _. rewrite TreeSem.key_range_cons by lia. cbn [key_loop].
        replace (k =? -1) with false by (symmetry; apply Z.eqb_neq; lia).
        rewrite Htg. cbn [bind].
        destruct (Z.lt_ge_cases (k + 1) (Z.of_nat (List.length operators)))
          as [Hin'|Hout'].
        -- destruct (nth_error_below operators (k + 1) ltac:(lia))
             as (op' & Hop').
           rewrite (py_index_at operators (k + 1) op') by (assumption || lia).
           cbn [bind].
           replace (py_index ancQubits 0) with (Ok (bq w 0))
             by (symmetry; apply (anc_index w 0); lia).
           cbn [bind].
           destruct (IH (k + 1) ((cw ++ gates tg) ++ [block op']) ct)
             as (_ & Hw''); try lia.
           now apply Hw''.
        -- now rewrite py_index_past_end by lia.
    + split; [|lia]. rewrite skipn_all2 by lia. reflexivity.
Qed.

Lemma ctl_reg_length : List.length (ctl_reg w) = w.
Proof. unfold ctl_reg. now rewrite length_map, length_seq. Qed.

Lemma seq_below (n : nat) : Forall (fun ci => (ci < n)%nat) (seq 0 n).
Proof. apply Forall_forall. intros i Hi. apply in_seq in Hi. lia. Qed.

Lemma rev_seq_below (n : nat) : Forall (fun ci => (ci < n)%nat) (rev (seq 0 n)).
Proof. apply Forall_forall. intros i Hi. apply in_rev, in_seq in Hi. lia. Qed.

(** With an operator for every key of a non-empty range, both strategies
    return a circuit, and the two circuits act alike on every
    configuration. *)
Lemma strategies_equiv (pos1 pos2 : Z) :
  0 <= pos1 < pos2 -> pos2 <= 2 ^ Z.of_nat w ->
  pos2 <= Z.of_nat (List.length operators) ->
  exists cw ct,
    applyAndWalk operators pos1 pos2 (ctl_reg w) Phs (anc_reg w) tgts = Ok cw /\
    decompose_tree operators pos1 pos2 (ctl_reg w) Phs (anc_reg w) tgts
    = Ok ct /\
    circuit_equiv cw ct.
Proof.
  intros Hpos Hhi Hlen.
  destruct (nth_error_below operators pos1 ltac:(lia)) as (op & Hop).
  destruct (walkDown_equiv w pos1 Hw) as (down & Hdown & Bdown & _).
  destruct (walkDown_equiv w (pos2 - 1) Hw) as (up & Hup & _ & Uup).
  destruct (loops_equiv (pos2 - 1) (Z.to_nat (pos2 - 1 - pos1)) pos1
              (gates (flat_map (chain_step w pos1) (rev (seq 0 w)))
               ++ [block op]) [] op)
    as (extw & extt & Hloopw & Hloopt & Heq); try lia; try assumption.
  replace (pos2 - 1 + 1) with pos2 in Hloopw by lia.
  exists (((gates (flat_map (chain_step w pos1) (rev (seq 0 w)))
            ++ [block op]) ++ extw)
          ++ gates (flat_map (chain_step w (pos2 - 1)) (seq 0 w))),
         (gates down ++ extt ++ inverse (gates up)).
  split; [|split].
  - unfold applyAndWalk. rewrite ctl_reg_length.
    rewrite TreeSem.key_range_cons by lia. unfold qrom. cbn [key_loop].
    replace (-1 =? -1) with true by reflexivity.
    rewrite (chain_loop_eq w pos1 _ [] (rev_seq_below w)). cbn [bind app].
    rewrite (py_index_at operators pos1 op) by (assumption || lia).
    cbn [bind].
    replace (py_index ancQubits 0) with (Ok (bq w 0))
      by (symmetry; apply (anc_index w 0); lia).
    cbn [bind]. rewrite Hloopw. cbn [bind].
    replace (pos2 - 1 =? -1) with false by (symmetry; apply Z.eqb_neq; lia).
    cbn [negb].
    apply (chain_loop_eq w (pos2 - 1) _ _ (seq_below w)).
  - unfold decompose_tree. rewrite ctl_reg_length.
    rewrite !constructBooleanTree_encode by lia. cbn [bind].
    rewrite Hdown, Hup. cbn [bind].
    unfold py_slice_from.
    replace (pos1 <? 0) with false by (symmetry; apply Z.ltb_ge; lia).
    unfold applyAndStep. rewrite Hloopt. reflexivity.
  - rewrite <- !app_assoc.
    apply circuit_equiv_app.
    { apply circuit_equiv_gates, gates_equiv_sym, Bdown. }
    apply (circuit_equiv_app (block op :: extw) extt); [exact Heq|].
    rewrite inverse_gates.
    apply circuit_equiv_gates, gates_equiv_sym, Uup.
Qed.

(** With no operator for the last key of the range, both raise
    IndexError. *)
Lemma strategies_raise (pos1 pos2 : Z) :
  0 <= pos1 < pos2 -> pos2 <= 2 ^ Z.of_nat w ->
  Z.of_nat (List.length operators) < pos2 ->
  applyAndWalk operators pos1 pos2 (ctl_reg w) Phs (anc_reg w) tgts
  = Raise IndexError /\
  decompose_tree operators pos1 pos2 (ctl_reg w) Phs (anc_reg w) tgts
  = Raise IndexError.
Proof.
  intros Hpos Hhi Hlen.
  destruct (walkDown_equiv w pos1 Hw) as (down & Hdown & _ & _).
  split.
  - unfold applyAndWalk. rewrite ctl_reg_length.
    rewrite TreeSem.key_range_cons by lia. unfold qrom. cbn [key_loop].
    replace (-1 =? -1) with true by reflexivity.
    rewrite (chain_loop_eq w pos1 _ [] (rev_seq_below w)). cbn [bind app].
    destruct (Z.lt_ge_cases pos1 (Z.of_nat (List.length operators)))
      as [Hin|Hout].
    + destruct (nth_error_below operators pos1 ltac:(lia)) as (op & Hop).
      rewrite (py_index_at operators pos1 op) by (assumption || lia).
      cbn [bind].
      replace (py_index ancQubits 0) with (Ok (bq w 0))
        by (symmetry; apply (anc_index w 0); lia).
      cbn [bind].
      destruct (loops_raise (pos2 - 1) (Z.to_nat (pos2 - 1 - pos1)) pos1
                  (gates (flat_map (chain_step w pos1) (rev (seq 0 w)))
                   ++ [block op]) [])
        as (_ & Hraise); try lia.
      replace (pos2 - 1 + 1) with pos2 in Hraise by lia.
      now rewrite Hraise.
    + now rewrite py_index_past_end by lia.
  - unfold decompose_tree. rewrite ctl_reg_length.
    rewrite !constructBooleanTree_encode by lia. cbn [bind].
    rewrite Hdown. cbn [bind].
    unfold py_slice_from.
    replace (pos1 <? 0) with false by (symmetry; apply Z.ltb_ge; lia).
    unfold applyAndStep.
    destruct (loops_raise (pos2 - 1) (Z.to_nat (pos2 - 1 - pos1)) pos1 [] [])
      as (Hraise & _); try lia.
    now rewrite Hraise.
Qed.

End Strategies.

(** Without an address bit both strategies raise IndexError on the one
    key the range can hold. *)
Lemma strategies_raise_no_bits (tgts : list qubit)
    (operators : list generator) (pos1 pos2 : Z) :
  0 <= pos1 < pos2 -> pos2 <= 2 ^ Z.of_nat 0 ->
  applyAndWalk operators pos1 pos2 (ctl_reg 0) Phs (anc_reg 0) tgts
  = Raise IndexError /\
  decompose_tree operators pos1 pos2 (ctl_reg 0) Phs (anc_reg 0) tgts
  = Raise IndexError.
Proof.
  intros Hpos Hhi. simpl in Hhi.
  assert (pos1 = 0) by lia. assert (pos2 = 1) by lia. subst pos1 pos2.
  split; [|reflexivity].
  unfold applyAndWalk. replace (key_range 0 1) with [0] by reflexivity.
  unfold qrom.
  cbn [key_loop List.length ctl_reg anc_reg map seq rev app].
  replace (-1 =? -1) with true by reflexivity.
  cbn [chain_loop bind].
  destruct operators as [|op ops]; reflexivity.
Qed.

End Equiv.

(** * The claims about the tree traversal *)

Module TreeClaims.

Import Codec CodecFacts Sim SimFacts Walk Tree WalkFacts TreeFacts StepRight
  WalkSem TreeSem Equiv.

Lemma key_range_increasing (w : nat) (n : nat) :
  forall prev lo,
    prev < lo -> lo + Z.of_nat n <= 2 ^ Z.of_nat w ->
    increasing_from w prev (key_range lo (lo + Z.of_nat n)) = true.
Proof.
  induction n as [|n IH]; intros prev lo Hp Hhi.
  - rewrite key_range_nil by lia. reflexivity.
  - rewrite key_range_cons by lia. cbn [increasing_from].
    replace (prev <? lo) with true by (symmetry; apply Z.ltb_lt; lia).
    replace (lo <? 2 ^ Z.of_nat w) with true by (symmetry; apply Z.ltb_lt; lia).
    replace (lo + Z.of_nat (S n)) with (lo + 1 + Z.of_nat n) by lia.
    apply IH; lia.
Qed.

(** C3, as stated, fails on an empty key range: on [pos1 = pos2 = 0] with
    two address bits the walk emits nothing, while the tree traversal takes
    [pos2 - 1 = -1] for its last key, walks the keys 0 and 1, and at address
    0 fires the payload of key 0 and flips a target bit. *)
Lemma C3_empty_range_counterexample :
  exists cw ct,
    applyAndWalk demo_ops 0 0 (ctl_reg 2) Phs (anc_reg 2) (tgt_reg 2) = Ok cw /\
    decompose_tree demo_ops 0 0 (ctl_reg 2) Phs (anc_reg 2) (tgt_reg 2)
    = Ok ct /\
    snd (run cw (init_state 2 true 0 (fun _ => false), [])) = [] /\
    snd (run ct (init_state 2 true 0 (fun _ => false), []))
    = [[CX_on (Anc 1) (Tgt 0)]] /\
    fst (run cw (init_state 2 true 0 (fun _ => false), [])) (Tgt 0) = false /\
    fst (run ct (init_state 2 true 0 (fun _ => false), [])) (Tgt 0) = true.
Proof.
  eexists. eexists.
  split; [vm_compute; reflexivity|].
  split; [vm_compute; reflexivity|].
  repeat split; vm_compute; reflexivity.
Qed.

(** C3 (amended): on a non-empty key range [0 <= pos1 < pos2 <= 2^w], for
    every operator table and every target register, [applyAndWalk] and the
    tree traversal ([walkDown], [applyAndStep], inverse of [walkDown] on the
    end path) either both return a circuit or both raise IndexError.  They
    return when there is an address bit and an operator for every key; the
    two circuits then end in the same basis state on every qubit and fire
    the same payloads, from every basis state (whatever the ancilla
    register holds, whatever qubits the payloads write) and every list of
    payloads fired so far.  They raise IndexError when [w = 0] or the table
    is shorter than [pos2]. *)
Theorem C3_strategies_equivalent (w : nat) (tgts : list qubit)
    (operators : list generator) (pos1 pos2 : Z) :
  0 <= pos1 < pos2 -> pos2 <= 2 ^ Z.of_nat w ->
  ((1 <= w)%nat -> pos2 <= Z.of_nat (List.length operators) ->
   exists cw ct,
     applyAndWalk operators pos1 pos2 (ctl_reg w) Phs (anc_reg w) tgts = Ok cw /\
     decompose_tree operators pos1 pos2 (ctl_reg w) Phs (anc_reg w) tgts
     = Ok ct /\
     forall st fired,
       same_state (fst (run cw (st, fired))) (fst (run ct (st, fired))) /\
       snd (run cw (st, fired)) = snd (run ct (st, fired))) /\
  (w = 0%nat \/ Z.of_nat (List.length operators) < pos2 ->
   applyAndWalk operators pos1 pos2 (ctl_reg w) Phs (anc_reg w) tgts
   = Raise IndexError /\
   decompose_tree operators pos1 pos2 (ctl_reg w) Phs (anc_reg w) tgts
   = Raise IndexError).
Proof.
  intros Hpos Hhi. split.
  - intros Hw Hlen.
    destruct (strategies_equiv w tgts operators Hw pos1 pos2 Hpos Hhi Hlen)
      as (cw & ct & Hcw & Hct & Heq).
    exists cw, ct. repeat split; try assumption; apply Heq.
  - intros [H0|Hlen].
    + subst w. now apply strategies_raise_no_bits.
    + destruct w as [|w'].
      * now apply strategies_raise_no_bits.
      * apply strategies_raise; (assumption || lia).
Qed.

Lemma C3_strategies_equivalent_witness :
  exists cw ct,
    applyAndWalk demo_ops 0 3 (ctl_reg 2) Phs (anc_reg 2) (tgt_reg 2) = Ok cw /\
    decompose_tree demo_ops 0 3 (ctl_reg 2) Phs (anc_reg 2) (tgt_reg 2)
    = Ok ct /\
    forall st fired,
      same_state (fst (run cw (st, fired))) (fst (run ct (st, fired))) /\
      snd (run cw (st, fired)) = snd (run ct (st, fired)).
Proof.
  refine (proj1 (C3_strategies_equivalent 2 (tgt_reg 2) demo_ops 0 3 _ _) _ _).
  - lia.
  - simpl. lia.
  - lia.
  - simpl. lia.
Defined.

(** ** The distance-0 branch of [stepRight] *)

Ltac bind_ok H :=
  repeat match type of H with
         | bind ?r _ = Ok _ =>
             let E := fresh "E" in
             destruct r eqn:E; cbn [bind] in H; [|discriminate H]
         end.

(** [stepRight] never shortens the circuit, and it lengthens it whenever
    the distance is not 0. *)
Lemma stepRight_rec_grows (fuel : nat) :
  forall circ bTree qubits ancilla circ',
    stepRight_rec fuel circ bTree qubits ancilla = Ok circ' ->
    (List.length circ <= List.length circ')%nat /\
    (forall inc, incrementBooleanTree bTree = Ok inc ->
                 h_distance bTree inc <> O ->
                 (List.length circ < List.length circ')%nat).
Proof.
  induction fuel as [|fuel IH]; intros circ bTree qubits ancilla circ' H;
    rewrite stepRight_rec_unfold in H;
    destruct (incrementBooleanTree bTree) as [inc|] eqn:Einc;
    cbn [bind] in H; try discriminate H;
    destruct (h_distance bTree inc) as [|[|[|dd]]] eqn:Hd.
  all: try (injection H as <-; split; [lia | intros ? [= <-]; congruence]).
  all: try (match type of H with
            | (if ?c then _ else _) = _ => destruct c
            end;
            bind_ok H; injection H as <-;
            rewrite ?length_app; simpl List.length;
            (split; [lia | intros; lia])).
  - bind_ok H. discriminate H.
  - bind_ok H.
    match type of E2 with
    | stepRight_rec _ ?c _ _ _ = _ =>
        destruct (IH c _ _ _ _ E2) as [Hle _]
    end.
    injection H as <-. rewrite !length_app in *.
    simpl List.length. split; [lia | intros; lia].
Qed.

(** C10: on every path with a [False] bit [incrementBooleanTree] is
    defined and the Hamming distance from the path to its increment is one
    more than the length of the trailing run of [True], hence at least 1;
    so whenever [stepRight] returns on such a path it has taken one of the
    branches that append gates. *)
Theorem C10_distance_at_least_one (bTree : list bool) :
  In false bTree ->
  exists inc,
    incrementBooleanTree bTree = Ok inc /\
    h_distance bTree inc = S (trailing_ones bTree) /\
    (1 <= h_distance bTree inc)%nat /\
    forall circ qubits ancilla circ',
      stepRight circ bTree qubits ancilla = Ok circ' ->
      (List.length circ < List.length circ')%nat.
Proof.
  intros Hin.
  destruct (incrementBooleanTree_defined bTree Hin) as (inc & Hinc & _ & _ & Hd).
  exists inc. repeat split; try assumption; [lia|].
  intros circ qubits ancilla circ' H. unfold stepRight in H.
  destruct (stepRight_rec_grows _ _ _ _ _ _ H) as [_ Hlt].
  apply (Hlt inc Hinc). lia.
Qed.

Lemma C10_distance_at_least_one_witness :
  exists inc,
    incrementBooleanTree [true; false; true; true] = Ok inc /\
    h_distance [true; false; true; true] inc
    = S (trailing_ones [true; false; true; true]) /\
    (1 <= h_distance [true; false; true; true] inc)%nat /\
    forall circ qubits ancilla circ',
      stepRight circ [true; false; true; true] qubits ancilla = Ok circ' ->
      (List.length circ < List.length circ')%nat.
Proof.
  apply (C10_distance_at_least_one [true; false; true; true]).
  simpl. right. now left.
Defined.

End TreeClaims.

(** * The fuel of the two loops is never used up *)

Module Fuel.

Import Codec CodecFacts Sim Walk Tree WalkFacts StepRight.

Lemma py_index_out_of_range {A : Type} (l : list A) (i : nat) :
  (List.length l <= i)%nat -> py_index l (Z.of_nat i) = Raise IndexError.
Proof.
  intros H. unfold py_index.
  replace (Z.of_nat i <? 0) with false by (symmetry; apply Z.ltb_ge; lia).
  replace (Z.of_nat i <? Z.of_nat (List.length l)) with false
    by (symmetry; apply Z.ltb_ge; lia).
  now rewrite andb_false_r.
Qed.

Lemma clear_loop_unfold (fuel : nat) (addrQubits ancQubits : list qubit)
    (prev_key_val key_val : Z) (ci : nat) (circ : circuit) :
  clear_loop fuel addrQubits ancQubits prev_key_val key_val ci circ =
  if Z.shiftr prev_key_val (Z.of_nat (ci + 1))
       =? Z.shiftr key_val (Z.of_nat (ci + 1))
  then Ok (ci, circ)
  else
    c <- py_index ancQubits (Z.of_nat (ci + 1)) ;;
    a <- py_index addrQubits (Z.of_nat ci) ;;
    b <- py_index ancQubits (Z.of_nat ci) ;;
    match fuel with
    | O => Raise IndexError
    | S fuel' =>
        clear_loop fuel' addrQubits ancQubits prev_key_val key_val (S ci)
          (circ ++ gates (toffoli true (ctl_sense prev_key_val ci) c a b))
    end.
Proof. destruct fuel; reflexivity. Qed.

(** Any fuel that covers the rest of the ancilla register gives the result
    of the clearing loop. *)
Lemma clear_loop_fuel (addrQubits ancQubits : list qubit) (prev key : Z)
    (f1 : nat) :
  forall f2 ci circ,
    (List.length ancQubits <= ci + f1)%nat ->
    (List.length ancQubits <= ci + f2)%nat ->
    clear_loop f1 addrQubits ancQubits prev key ci circ =
    clear_loop f2 addrQubits ancQubits prev key ci circ.
Proof.
  induction f1 as [|f1 IH]; intros f2 ci circ H1 H2;
    rewrite (clear_loop_unfold _ _ _ _ _ ci), (clear_loop_unfold f2);
    destruct (_ =? _); try reflexivity.
  - rewrite py_index_out_of_range by lia. reflexivity.
  - destruct f2 as [|f2].
    + rewrite py_index_out_of_range by lia. reflexivity.
    + destruct (py_index ancQubits (Z.of_nat (ci + 1))); [|reflexivity].
      destruct (py_index addrQubits (Z.of_nat ci)); [|reflexivity].
      destruct (py_index ancQubits (Z.of_nat ci)); [|reflexivity].
      cbn [bind]. apply IH; lia.
Qed.

Lemma h_distance_le (a b : list bool) :
  (h_distance a b <= List.length a)%nat.
Proof.
  revert b. induction a as [|x a IH]; intros [|y b]; simpl; try lia.
  specialize (IH b). destruct (Bool.eqb x y); lia.
Qed.

Lemma length_removelast {A : Type} (l : list A) :
  List.length (removelast l) = Nat.pred (List.length l).
Proof.
  rewrite removelast_firstn_len, length_firstn. lia.
Qed.

(** Any fuel from the length of the path on gives the result of
    [stepRight]. *)
Lemma stepRight_rec_fuel (f1 : nat) :
  forall f2 circ bTree qubits ancilla,
    (List.length bTree <= f1)%nat -> (List.length bTree <= f2)%nat ->
    stepRight_rec f1 circ bTree qubits ancilla =
    stepRight_rec f2 circ bTree qubits ancilla.
Proof.
  induction f1 as [|f1 IH]; intros f2 circ bTree qubits ancilla H1 H2;
    rewrite (stepRight_rec_unfold _ circ), (stepRight_rec_unfold f2);
    destruct (incrementBooleanTree bTree) as [inc|]; cbn [bind];
    try reflexivity;
    pose proof (h_distance_le bTree inc) as Hd;
    destruct (h_distance bTree inc) as [|[|[|dd]]]; try reflexivity;
    try lia.
  destruct f2 as [|f2]; [lia|].
  destruct (py_index qubits (nth2last 0)); [|reflexivity].
  destruct (py_index ancilla (nth2last 0)); [|reflexivity].
  destruct (py_index ancilla (nth2last 1)); [|reflexivity].
  cbn [bind]. rewrite (IH f2); [reflexivity| |];
    rewrite length_removelast; lia.
Qed.

End Fuel.

(** * Further properties of the primitive and of the tree traversal *)

Module TreeProps.

Import Codec CodecFacts Sim SimFacts Walk Tree WalkFacts TreeFacts StepRight
  WalkDown WalkSem OracleFacts TreeSem TreeClaims.

(** X1: on three distinct qubits, [toffoli(b0,b1,ctl0,ctl1,trgt)] flips the
    target exactly when [ctl0] holds [b0] and [ctl1] holds [b1], and leaves
    every other qubit, the two controls included, as it was. *)
Theorem X1_toffoli_action (b0 b1 : bool) (c0 c1 t : qubit) (s : state) :
  c0 <> t -> c1 <> t -> c0 <> c1 ->
  run_gates (toffoli b0 b1 c0 c1 t) s t
  = xorb (s t) (Bool.eqb (s c0) b0 && Bool.eqb (s c1) b1) /\
  forall q, q <> t -> run_gates (toffoli b0 b1 c0 c1 t) s q = s q.
Proof.
  intros H0 H1 H01. split.
  - rewrite toffoli_sem by assumption. apply upd_same.
  - intros q Hq. rewrite toffoli_sem by assumption.
    apply upd_other. congruence.
Qed.

Lemma X1_toffoli_action_witness :
  run_gates (toffoli false true (Ctl 0) (Anc 0) (Anc 1))
    (init_state 2 true 1 (fun _ => false)) (Anc 1)
  = xorb false (Bool.eqb false false && Bool.eqb false true) /\
  forall q, q <> Anc 1 ->
    run_gates (toffoli false true (Ctl 0) (Anc 0) (Anc 1))
      (init_state 2 true 1 (fun _ => false)) q
    = init_state 2 true 1 (fun _ => false) q.
Proof.
  apply (X1_toffoli_action false true (Ctl 0) (Anc 0) (Anc 1)
           (init_state 2 true 1 (fun _ => false))); discriminate.
Defined.

(** X2: the gate list of [toffoli] reads the same backwards, it is its own
    [cirq.inverse], and on three distinct qubits running it twice gives
    back the state. *)
Theorem X2_toffoli_self_inverse (b0 b1 : bool) (c0 c1 t : qubit) (s : state) :
  c0 <> t -> c1 <> t -> c0 <> c1 ->
  rev (toffoli b0 b1 c0 c1 t) = toffoli b0 b1 c0 c1 t /\
  inverse (gates (toffoli b0 b1 c0 c1 t)) = gates (toffoli b0 b1 c0 c1 t) /\
  same_state
    (run_gates (toffoli b0 b1 c0 c1 t ++ toffoli b0 b1 c0 c1 t) s) s.
Proof.
  intros H0 H1 H01.
  assert (Hrev : rev (toffoli b0 b1 c0 c1 t) = toffoli b0 b1 c0 c1 t).
  { destruct b0, b1; reflexivity. }
  split; [exact Hrev|]. split.
  - rewrite inverse_gates. f_equal.
    rewrite <- Hrev at 2. f_equal. destruct b0, b1; reflexivity.
  - intros q. rewrite run_gates_app.
    destruct (qubit_eqb_spec q t) as [->|Hq].
    + rewrite toffoli_sem by assumption. rewrite upd_same.
      rewrite !toffoli_sem by assumption.
      rewrite upd_same, !upd_other by congruence.
      now rewrite xorb_assoc, xorb_nilpotent, xorb_false_r.
    + rewrite toffoli_sem by assumption. rewrite upd_other by congruence.
      rewrite toffoli_sem by assumption. apply upd_other. congruence.
Qed.

Lemma X2_toffoli_self_inverse_witness :
  rev (toffoli true false Phs (Ctl 0) (Anc 0))
  = toffoli true false Phs (Ctl 0) (Anc 0) /\
  inverse (gates (toffoli true false Phs (Ctl 0) (Anc 0)))
  = gates (toffoli true false Phs (Ctl 0) (Anc 0)) /\
  same_state
    (run_gates (toffoli true false Phs (Ctl 0) (Anc 0)
                ++ toffoli true false Phs (Ctl 0) (Anc 0))
       (init_state 1 true 0 (fun _ => false)))
    (init_state 1 true 0 (fun _ => false)).
Proof.
  apply (X2_toffoli_self_inverse true false Phs (Ctl 0) (Anc 0)
           (init_state 1 true 0 (fun _ => false))); discriminate.
Defined.

(** A state holds the chain of [k] down to position 0 exactly when it
    agrees with [set_chain] on it. *)
Lemma chain_state (w : nat) (st : state) (k : Z) :
  (forall i, (i < w)%nat -> st (bq w i) = pre w st k i) ->
  same_state st (set_chain w st k 0).
Proof.
  intros H [|n|n|n]; try reflexivity. unfold set_chain.
  destruct (Nat.ltb_spec n w) as [Hn|Hn]; [|reflexivity].
  cbn [Nat.leb]. rewrite <- (H (w - 1 - n)%nat) by lia.
  unfold bq. now replace (w - 1 - (w - 1 - n))%nat with n by lia.
Qed.

Lemma set_chain_outside (w : nat) (st : state) (k : Z) (i : nat) (q : qubit) :
  (forall j, (j < w)%nat -> q <> Anc j) -> set_chain w st k i q = st q.
Proof.
  intros H. destruct q as [|n|n|n]; try reflexivity. unfold set_chain.
  destruct (Nat.ltb_spec n w) as [Hn|Hn]; [|reflexivity].
  exfalso. now apply (H n).
Qed.

(** X3: for [w >= 1] and a key [k] in [[0, 2^w)], [walkDown] on the path
    [[True] + encode(k)] returns a circuit of gates that, from a clear
    ancilla register, sets ancilla position [i] (counted from the last
    ancilla) to "enable and the address agrees with [k] on the bits from
    [i] up"; the last ancilla holds "enable and address = k", and no qubit
    outside the ancilla register changes. *)
Theorem X3_walkDown_builds_chain (w : nat) (k : Z) (st : state) :
  (1 <= w)%nat -> 0 <= k < 2 ^ Z.of_nat w -> ancilla_clear w st ->
  exists gs,
    walkDown (true :: encode_bits w k) (Phs :: ctl_reg w) (anc_reg w)
    = Ok (gates gs) /\
    (forall i, (i < w)%nat -> run_gates gs st (bq w i) = pre w st k i) /\
    run_gates gs st (Anc (w - 1)) = st Phs && (address w st =? k) /\
    forall q, (forall j, (j < w)%nat -> q <> Anc j) ->
              run_gates gs st q = st q.
Proof.
  intros Hw Hk Hclear.
  destruct (walkDown_sem w k Hw) as (gs & Hgs & _ & Hsem).
  exists gs. split; [exact Hgs|].
  pose proof (Hsem st st (ancilla_clear_chain w Hw st k Hclear)) as H.
  split; [|split].
  - intros i Hi. rewrite H, set_chain_bq by lia. reflexivity.
  - replace (Anc (w - 1)) with (bq w 0) by (unfold bq; f_equal; lia).
    rewrite H, set_chain_bq by lia. cbn [Nat.leb].
    now apply pre_address.
  - intros q Hq. rewrite H. now apply set_chain_outside.
Qed.

Lemma X3_walkDown_builds_chain_witness :
  exists gs,
    walkDown (true :: encode_bits 2 2) (Phs :: ctl_reg 2) (anc_reg 2)
    = Ok (gates gs) /\
    (forall i, (i < 2)%nat ->
       run_gates gs (init_state 2 true 2 (fun _ => false)) (bq 2 i)
       = pre 2 (init_state 2 true 2 (fun _ => false)) 2 i) /\
    run_gates gs (init_state 2 true 2 (fun _ => false)) (Anc (2 - 1))
    = init_state 2 true 2 (fun _ => false) Phs
      && (address 2 (init_state 2 true 2 (fun _ => false)) =? 2) /\
    forall q, (forall j, (j < 2)%nat -> q <> Anc j) ->
              run_gates gs (init_state 2 true 2 (fun _ => false)) q
              = init_state 2 true 2 (fun _ => false) q.
Proof.
  apply (X3_walkDown_builds_chain 2 2 (init_state 2 true 2 (fun _ => false))).
  - lia.
  - simpl. lia.
  - intros i Hi. reflexivity.
Defined.

(** X4: [walkDown] followed by its [cirq.inverse] is the identity on every
    basis state, whatever the ancilla register holds at the start. *)
Theorem X4_walkDown_inverse (w : nat) (k : Z) (st : state)
    (fired : list (list gate)) :
  (1 <= w)%nat ->
  exists down,
    walkDown (true :: encode_bits w k) (Phs :: ctl_reg w) (anc_reg w)
    = Ok down /\
    same_state (fst (run (down ++ inverse down) (st, fired))) st /\
    snd (run (down ++ inverse down) (st, fired)) = fired.
Proof.
  intros Hw. destruct (walkDown_sem w k Hw) as (gs & Hgs & Hwf & _).
  exists (gates gs). split; [exact Hgs|].
  rewrite inverse_gates, run_app, !run_gates_circuit. simpl. split.
  - now apply run_gates_undo.
  - reflexivity.
Qed.

Lemma X4_walkDown_inverse_witness :
  exists down,
    walkDown (true :: encode_bits 2 1) (Phs :: ctl_reg 2) (anc_reg 2)
    = Ok down /\
    same_state
      (fst (run (down ++ inverse down)
              (init_state 2 true 3 (fun _ => true), [])))
      (init_state 2 true 3 (fun _ => true)) /\
    snd (run (down ++ inverse down) (init_state 2 true 3 (fun _ => true), []))
    = [].
Proof.
  apply (X4_walkDown_inverse 2 1 (init_state 2 true 3 (fun _ => true)) []).
  lia.
Defined.

(** X5: for [w >= 1] and keys [k] and [k + 1] in [[0, 2^w)], [stepRight] on
    the path of [k] appends gates only, and they turn the complete chain of
    [k] into the complete chain of [k + 1]: afterwards ancilla position [i]
    holds "enable and the address agrees with [k + 1] from bit [i] up", and
    no qubit outside the ancilla register has changed. *)
Theorem X5_stepRight_moves_chain (w : nat) (k : Z) (circ : circuit)
    (st : state) :
  (1 <= w)%nat -> 0 <= k -> k + 1 < 2 ^ Z.of_nat w ->
  (forall i, (i < w)%nat -> st (bq w i) = pre w st k i) ->
  exists gs,
    stepRight circ (true :: encode_bits w k) (ctl_reg w) (Phs :: anc_reg w)
    = Ok (circ ++ gates gs) /\
    (forall i, (i < w)%nat -> run_gates gs st (bq w i) = pre w st (k + 1) i) /\
    forall q, (forall j, (j < w)%nat -> q <> Anc j) ->
              run_gates gs st q = st q.
Proof.
  intros Hw Hk0 Hk1 Hchain. unfold stepRight.
  destruct (stepRight_sem w (List.length (true :: encode_bits w k)) w 0 k circ)
    as (gs & Hgs & Hsem); try lia.
  { simpl. rewrite encode_bits_length. lia. }
  exists gs. split; [exact Hgs|].
  assert (H : same_state (run_gates gs st) (set_chain w st (k + 1) 0)).
  { rewrite <- (Z.shiftl_0_r (k + 1)). apply Hsem.
    simpl Z.of_nat. rewrite Z.shiftl_0_r. now apply chain_state. }
  split.
  - intros i Hi. rewrite H, set_chain_bq by lia. reflexivity.
  - intros q Hq. rewrite H. now apply set_chain_outside.
Qed.

Lemma X5_stepRight_moves_chain_witness :
  exists gs,
    stepRight [] (true :: encode_bits 2 1) (ctl_reg 2) (Phs :: anc_reg 2)
    = Ok ([] ++ gates gs) /\
    (forall i, (i < 2)%nat ->
       run_gates gs (set_chain 2 (init_state 2 true 2 (fun _ => false)) 1 0)
         (bq 2 i)
       = pre 2 (set_chain 2 (init_state 2 true 2 (fun _ => false)) 1 0)
           (1 + 1) i) /\
    forall q, (forall j, (j < 2)%nat -> q <> Anc j) ->
              run_gates gs
                (set_chain 2 (init_state 2 true 2 (fun _ => false)) 1 0) q
              = set_chain 2 (init_state 2 true 2 (fun _ => false)) 1 0 q.
Proof.
  apply (X5_stepRight_moves_chain 2 1 []
           (set_chain 2 (init_state 2 true 2 (fun _ => false)) 1 0)).
  - lia.
  - lia.
  - simpl. lia.
  - intros i Hi. destruct i as [|[|i]]; [reflexivity | reflexivity | lia].
Defined.

(** X6: on a path without a [False] bit (the largest key, or the empty
    path) [stepRight] raises IndexError, whatever the registers and the
    circuit so far. *)
Theorem X6_stepRight_maximum_key (circ : circuit) (bTree : list bool)
    (qubits ancilla : list qubit) :
  ~ In false bTree ->
  stepRight circ bTree qubits ancilla = Raise IndexError.
Proof.
  intros H. unfold stepRight. rewrite stepRight_rec_unfold.
  now rewrite incrementBooleanTree_all_true.
Qed.

Lemma X6_stepRight_maximum_key_witness :
  stepRight [] [true; true; true] (ctl_reg 2) (Phs :: anc_reg 2)
  = Raise IndexError.
Proof.
  apply X6_stepRight_maximum_key. intros [H|[H|[H|[]]]]; discriminate.
Defined.

End TreeProps.

(** * Further properties of the walk and of the tree oracle *)

Module OracleProps.

Import Codec CodecFacts Sim SimFacts Walk Tree WalkFacts WalkSem OracleFacts
  TreeSem TreeClaims SelV.

Lemma in_key_range (lo hi a : Z) :
  In a (key_range lo hi) <-> lo <= a < hi.
Proof.
  unfold key_range. rewrite in_map_iff. split.
  - intros (i & <- & Hi). apply in_seq in Hi. lia.
  - intros H. exists (Z.to_nat (a - lo)). split; [lia|].
    apply in_seq. lia.
Qed.

(** X7: the tree traversal, on a non-empty range [0 <= pos1 < pos2 <= 2^w]
    with [w >= 1], operators that write target qubits only and a clear
    ancilla register, fires the payload of the address when the enable bit
    is 1 and the address lies in the range, fires nothing otherwise, and
    leaves every ancilla bit at 0. *)
Theorem X7_tree_exact_match (w : nat) (tgts : list qubit)
    (operators : list generator) (pos1 pos2 : Z) (st : state) :
  (1 <= w)%nat ->
  0 <= pos1 < pos2 -> pos2 <= 2 ^ Z.of_nat w ->
  ops_ok w tgts operators (key_range pos1 pos2) = true ->
  ancilla_clear w st ->
  exists ct,
    decompose_tree operators pos1 pos2 (ctl_reg w) Phs (anc_reg w) tgts
    = Ok ct /\
    ancilla_clear w (fst (run ct (st, []))) /\
    snd (run ct (st, []))
    = if st Phs && (pos1 <=? address w st) && (address w st <? pos2)
      then [payload_body w tgts operators (address w st)]
      else [].
Proof.
  intros Hw Hpos Hhi Hok Hclear.
  assert (Hinc : increasing_from w (-1) (key_range pos1 pos2) = true).
  { replace pos2 with (pos1 + Z.of_nat (Z.to_nat (pos2 - pos1))) by lia.
    apply key_range_increasing; lia. }
  destruct (decompose_tree_sem w tgts operators Hw pos1 pos2 Hpos Hhi Hok)
    as (ct & Hct & Sem).
  destruct (Sem st [] Hclear) as [Hs Hf].
  exists ct. split; [exact Hct|]. split.
  - intros i Hi. rewrite Hs. now apply oracle_clear.
  - rewrite Hf, oracle_fired; try assumption.
    2:{ intros k Hk. now apply (ops_ok_targets w tgts operators _ k Hok). }
    destruct (st Phs) eqn:En.
    + destruct (Z.leb_spec pos1 (address w st)), (Z.ltb_spec (address w st) pos2).
      * rewrite (filter_one w (-1)); [reflexivity | assumption |].
        apply in_key_range. lia.
      * rewrite (filter_none true); [reflexivity|]. left.
        rewrite in_key_range. lia.
      * rewrite (filter_none true); [reflexivity|]. left.
        rewrite in_key_range. lia.
      * rewrite (filter_none true); [reflexivity|]. left.
        rewrite in_key_range. lia.
    + rewrite (filter_none false); [reflexivity|]. now right.
Qed.

Lemma X7_tree_exact_match_witness :
  exists ct,
    decompose_tree demo_ops 1 3 (ctl_reg 2) Phs (anc_reg 2) (tgt_reg 2)
    = Ok ct /\
    ancilla_clear 2 (fst (run ct (init_state 2 true 2 (fun _ => false), []))) /\
    snd (run ct (init_state 2 true 2 (fun _ => false), []))
    = if init_state 2 true 2 (fun _ => false) Phs
         && (1 <=? address 2 (init_state 2 true 2 (fun _ => false)))
         && (address 2 (init_state 2 true 2 (fun _ => false)) <? 3)
      then [payload_body 2 (tgt_reg 2) demo_ops
              (address 2 (init_state 2 true 2 (fun _ => false)))]
      else [].
Proof.
  apply (X7_tree_exact_match 2 (tgt_reg 2) demo_ops 1 3
           (init_state 2 true 2 (fun _ => false))).
  - lia.
  - lia.
  - simpl. lia.
  - reflexivity.
  - intros i Hi. reflexivity.
Defined.

(** X8: under the preconditions of the walk (increasing keys in
    [[0, 2^w)], [w >= 1], payloads on target qubits only, clear ancilla),
    the circuit of [qrom] leaves the enable bit and every address bit as
    they were, although it flips address bits on the way: the address read
    after the circuit is the address read before. *)
Theorem X8_walk_keeps_address (w : nat) (tgts : list qubit)
    (operators : list generator) (keys : list Z) (st : state) :
  (1 <= w)%nat ->
  increasing_from w (-1) keys = true ->
  ops_ok w tgts operators keys = true ->
  ancilla_clear w st ->
  exists circ,
    qrom (ctl_reg w) (anc_reg w) Phs tgts w keys operators = Ok circ /\
    fst (run circ (st, [])) Phs = st Phs /\
    (forall j, fst (run circ (st, [])) (Ctl j) = st (Ctl j)) /\
    address w (fst (run circ (st, []))) = address w st.
Proof.
  intros Hw Hinc Hok Hclear.
  destruct (qrom_sem w tgts operators Hw keys Hinc Hok) as (circ & Hc & Hsem).
  destruct (Hsem st [] Hclear) as [Hs _].
  exists circ. split; [exact Hc|].
  pose proof (oracle_keys_inv w (payload_body w tgts operators) Hw keys st []
                (fun k Hk => ops_ok_targets w tgts operators keys k Hok Hk))
    as (Hp & Hctl & _).
  unfold oracle in Hs.
  destruct (oracle_keys w (payload_body w tgts operators) keys (st, []))
    as [b f]. simpl in Hs, Hp, Hctl.
  assert (HC : forall j, fst (run circ (st, [])) (Ctl j) = st (Ctl j)).
  { intros j. rewrite Hs. simpl. apply Hctl. }
  split; [|split].
  - rewrite Hs. simpl. exact Hp.
  - exact HC.
  - unfold address, ctl_reg. f_equal. rewrite !map_map.
    apply map_ext. intros j. apply HC.
Qed.

Lemma X8_walk_keeps_address_witness :
  exists circ,
    qrom (ctl_reg 2) (anc_reg 2) Phs (tgt_reg 2) 2 [0; 1; 2] demo_ops
    = Ok circ /\
    fst (run circ (init_state 2 true 1 (fun _ => false), [])) Phs
    = init_state 2 true 1 (fun _ => false) Phs /\
    (forall j, fst (run circ (init_state 2 true 1 (fun _ => false), [])) (Ctl j)
               = init_state 2 true 1 (fun _ => false) (Ctl j)) /\
    address 2 (fst (run circ (init_state 2 true 1 (fun _ => false), [])))
    = address 2 (init_state 2 true 1 (fun _ => false)).
Proof.
  apply (X8_walk_keeps_address 2 (tgt_reg 2) demo_ops [0; 1; 2]
           (init_state 2 true 1 (fun _ => false))).
  - lia.
  - reflexivity.
  - reflexivity.
  - intros i Hi. reflexivity.
Defined.

Lemma py_index_raise {A : Type} (l : list A) (i : Z) (e : exn) :
  py_index l i = Raise e -> e = IndexError.
Proof.
  unfold py_index. destruct (_ && _); [|congruence].
  destruct (nth_error l _); congruence.
Qed.

Lemma py_index_nil {A : Type} (i : Z) :
  py_index (@nil A) i = Raise IndexError.
Proof.
  unfold py_index. cbn [List.length]. simpl Z.of_nat.
  destruct (Z.ltb_spec i 0).
  - replace (0 <=? 0 + i) with false by (symmetry; apply Z.leb_gt; lia).
    reflexivity.
  - replace (i <? 0) with false by (symmetry; apply Z.ltb_ge; lia).
    now rewrite andb_false_r.
Qed.

(** X10: with an empty ancilla register [applyAndWalk] raises IndexError
    on every non-empty key range, whatever the other registers and the
    operators: such a call never returns a circuit. *)
Theorem X10_walk_needs_ancilla (operators : list generator) (pos1 pos2 : Z)
    (ctl_q : list qubit) (sel_q : qubit) (tgt_q : list qubit) :
  pos1 < pos2 ->
  applyAndWalk operators pos1 pos2 ctl_q sel_q [] tgt_q = Raise IndexError.
Proof.
  intros H. unfold applyAndWalk, qrom. rewrite key_range_cons by exact H.
  cbn [key_loop]. change (-1 =? -1) with true. cbv iota.
  destruct (List.length ctl_q) as [|n] eqn:El.
  - cbn [seq rev chain_loop bind].
    destruct (py_index operators pos1) as [op|e] eqn:Eo; cbn [bind].
    + now rewrite py_index_nil.
    + now rewrite (py_index_raise _ _ _ Eo).
  - rewrite seq_S, rev_app_distr. cbn [rev app chain_loop].
    unfold chain_toffoli.
    replace (Nat.eqb (0 + n + 1) (S n)) with true
      by (symmetry; apply Nat.eqb_eq; lia).
    destruct (py_index (rev ctl_q) (Z.of_nat (0 + n))) as [q|e] eqn:Eq;
      cbn [bind].
    + now rewrite py_index_nil.
    + now rewrite (py_index_raise _ _ _ Eq).
Qed.

Lemma X10_walk_needs_ancilla_witness :
  applyAndWalk demo_ops 0 1 [] Phs [] (tgt_reg 2) = Raise IndexError.
Proof. apply X10_walk_needs_ancilla. lia. Defined.

End OracleProps.

(** * Properties of the Hamiltonian operators and of the active range *)

Module SelVProps.

Import Codec CodecFacts Sim SimFacts Walk WalkFacts WalkSem OracleFacts
  TreeSem TreeClaims Assembler SelV OracleProps.

Lemma if_same {A : Type} (b : bool) (x : A) : (if b then x else x) = x.
Proof. destruct b; reflexivity. Qed.

Lemma pauli_flips_cons (p : ascii) (ps : list ascii) (i : nat) :
  pauli_flips (p :: ps) (S i) = pauli_flips ps i.
Proof. reflexivity. Qed.

(** The action of the per-axis gates on targets [Tgt j .. Tgt (j+n-1)]. *)
Lemma controlled_pauli_action (ps : list ascii) (ctrl : qubit) :
  is_tgt ctrl = false ->
  forall j n s i,
    run_gates (controlled_pauli_gate ps ctrl (map Tgt (seq j n))) s (Tgt i)
    = xorb (s (Tgt i))
        (s ctrl && ((j <=? i)%nat && (i <? j + n)%nat
                    && pauli_flips ps (i - j))).
Proof.
  intros Hc. induction ps as [|p ps IH]; intros j n s i.
  - simpl. unfold pauli_flips. destruct (i - j)%nat; simpl;
      now rewrite !andb_false_r, xorb_false_r.
  - destruct n as [|n].
    + assert (E : ((j <=? i)%nat && (i <? j + 0)%nat) = false).
      { destruct (Nat.leb_spec j i), (Nat.ltb_spec i (j + 0));
          try reflexivity; lia. }
      rewrite E. cbn [seq map controlled_pauli_gate andb].
      now rewrite andb_false_r, xorb_false_r.
    + cbn [seq map controlled_pauli_gate]. rewrite run_gates_app, IH.
      assert (Hctrl : forall gs', targets_only gs' = true ->
                 run_gates gs' s ctrl = s ctrl).
      { intros gs' H'. now apply targets_only_frame. }
      set (head := if Ascii.eqb p "I" then []
                   else if Ascii.eqb p "X" then [CX_on ctrl (Tgt j)]
                   else if Ascii.eqb p "Y"
                        then [S_inv_on (Tgt j); CX_on ctrl (Tgt j); S_on (Tgt j)]
                   else if Ascii.eqb p "Z" then [CZ_on ctrl (Tgt j)]
                   else []).
      assert (Hhead : targets_only head = true).
      { unfold head. destruct (Ascii.eqb p "I"); [reflexivity|].
        destruct (Ascii.eqb p "X"); [reflexivity|].
        destruct (Ascii.eqb p "Y"); [reflexivity|].
        destruct (Ascii.eqb p "Z"); reflexivity. }
      rewrite (Hctrl head Hhead).
      assert (Hact : forall q, run_gates head s q
                = if qubit_eqb (Tgt j) q
                  then xorb (s q) (s ctrl && pauli_flips (p :: ps) 0)
                  else s q).
      { intros q. unfold head, pauli_flips. cbn [nth_error].
        destruct (Ascii.eqb p "I") eqn:EI.
        { apply Ascii.eqb_eq in EI. subst p. simpl.
          rewrite andb_false_r, xorb_false_r.
          symmetry. apply if_same. }
        destruct (Ascii.eqb p "X") eqn:EX.
        { cbn [orb]. rewrite andb_true_r. unfold run_gates.
          cbn [fold_left apply_gate]. unfold upd.
          destruct (qubit_eqb_spec (Tgt j) q) as [<-|]; reflexivity. }
        destruct (Ascii.eqb p "Y") eqn:EY.
        { cbn [orb]. rewrite andb_true_r. unfold run_gates.
          cbn [fold_left apply_gate]. unfold upd.
          destruct (qubit_eqb_spec (Tgt j) q) as [<-|]; reflexivity. }
        cbn [orb]. rewrite andb_false_r, xorb_false_r.
        destruct (Ascii.eqb p "Z"); unfold run_gates; simpl;
          symmetry; apply if_same. }
      rewrite Hact. cbn [qubit_eqb].
      destruct (Nat.eqb_spec j i) as [->|Hji].
      * replace (S i <=? i)%nat with false by (symmetry; apply Nat.leb_gt; lia).
        rewrite Nat.leb_refl, Nat.sub_diag.
        replace (i <? i + S n)%nat with true by (symmetry; apply Nat.ltb_lt; lia).
        cbn [andb]. now rewrite andb_false_r, xorb_false_r.
      * destruct (Nat.leb_spec (S j) i) as [Hle|Hgt].
        -- replace (j <=? i)%nat with true by (symmetry; apply Nat.leb_le; lia).
           replace (S j + n)%nat with (j + S n)%nat by lia.
           replace (i - j)%nat with (S (i - S j)) by lia.
           now rewrite pauli_flips_cons.
        -- replace (j <=? i)%nat with false by (symmetry; apply Nat.leb_gt; lia).
           reflexivity.
Qed.

Lemma term_to_generator_targets_only (t : term) (ctrl : qubit) (k : nat) :
  targets_only (term_to_generator t ctrl (tgt_reg k)) = true.
Proof.
  unfold term_to_generator.
  assert (H : targets_only
                (controlled_pauli_gate (list_ascii_of_string (pauli t)) ctrl
                   (tgt_reg k)) = true).
  { apply AssemblerClaims.controlled_pauli_targets_only.
    unfold tgt_reg. apply Forall_forall. intros q Hq.
    apply in_map_iff in Hq. destruct Hq as (i & <- & _). reflexivity. }
  destruct (coeff_negative t); [|exact H].
  unfold targets_only in *. cbn [app forallb writes]. exact H.
Qed.

Lemma term_to_generator_action (t : term) (ctrl : qubit) (k : nat)
    (s : state) (i : nat) :
  is_tgt ctrl = false ->
  run_gates (term_to_generator t ctrl (tgt_reg k)) s (Tgt i)
  = xorb (s (Tgt i))
      (s ctrl && ((i <? k)%nat
                  && pauli_flips (list_ascii_of_string (pauli t)) i)).
Proof.
  intros Hc.
  assert (H : run_gates
                (controlled_pauli_gate (list_ascii_of_string (pauli t)) ctrl
                   (tgt_reg k)) s (Tgt i)
              = xorb (s (Tgt i))
                  (s ctrl && ((i <? k)%nat
                     && pauli_flips (list_ascii_of_string (pauli t)) i))).
  { unfold tgt_reg. rewrite controlled_pauli_action by exact Hc.
    cbn [Nat.leb andb Nat.add]. now rewrite Nat.sub_0_r. }
  unfold term_to_generator. destruct (coeff_negative t); exact H.
Qed.

(** X11: the generator of a Hamiltonian term, called on an activation
    qubit that is not a target and on the target register, acts on a basis
    state as a controlled bit flip: target [i] flips exactly when the
    activation qubit is 1 and the label at position [i] is X or Y; no other
    qubit changes, and with the activation qubit at 0 nothing changes. *)
Theorem X11_generator_action (t : term) (ctrl : qubit) (k : nat) (s : state) :
  is_tgt ctrl = false ->
  (forall i,
     run_gates (term_to_generator t ctrl (tgt_reg k)) s (Tgt i)
     = xorb (s (Tgt i))
         (s ctrl && ((i <? k)%nat
                     && pauli_flips (list_ascii_of_string (pauli t)) i))) /\
  (forall q, is_tgt q = false ->
             run_gates (term_to_generator t ctrl (tgt_reg k)) s q = s q) /\
  (s ctrl = false ->
   same_state (run_gates (term_to_generator t ctrl (tgt_reg k)) s) s).
Proof.
  intros Hc. split; [|split].
  - intros i. now apply term_to_generator_action.
  - intros q Hq. apply targets_only_frame; [|exact Hq].
    apply term_to_generator_targets_only.
  - intros H0 q. destruct q as [| | |i];
      try (apply targets_only_frame;
           [apply term_to_generator_targets_only | reflexivity]).
    rewrite term_to_generator_action by exact Hc.
    rewrite H0. apply xorb_false_r.
Qed.

Lemma X11_generator_action_witness :
  (forall i,
     run_gates (term_to_generator
                  {| pauli := "XZY"; coeff_num := -1; coeff_den := 2 |}
                  (Anc 1) (tgt_reg 3))
       (fun q => match q with Anc 1 => true | _ => false end) (Tgt i)
     = xorb false
         (true && ((i <? 3)%nat
                   && pauli_flips (list_ascii_of_string "XZY") i))) /\
  (forall q, is_tgt q = false ->
     run_gates (term_to_generator
                  {| pauli := "XZY"; coeff_num := -1; coeff_den := 2 |}
                  (Anc 1) (tgt_reg 3))
       (fun q => match q with Anc 1 => true | _ => false end) q
     = (fun q => match q with Anc 1 => true | _ => false end) q) /\
  ((fun q => match q with Anc 1 => true | _ => false end) (Anc 1) = false ->
   same_state
     (run_gates (term_to_generator
                   {| pauli := "XZY"; coeff_num := -1; coeff_den := 2 |}
                   (Anc 1) (tgt_reg 3))
        (fun q => match q with Anc 1 => true | _ => false end))
     (fun q => match q with Anc 1 => true | _ => false end)).
Proof.
  apply (X11_generator_action
           {| pauli := "XZY"; coeff_num := -1; coeff_den := 2 |} (Anc 1) 3
           (fun q => match q with Anc 1 => true | _ => false end)).
  reflexivity.
Defined.


(** ** The active range *)

Lemma find_from_spec (check : list bool) :
  forall idx,
    match find_from idx check with
    | None => forall j b, nth_error check j = Some b -> b = true
    | Some r =>
        exists n, r = (idx + n)%nat /\ nth_error check n = Some false /\
                  forall j, (j < n)%nat -> nth_error check j = Some true
    end.
Proof.
  induction check as [|k rest IH]; intros idx; cbn [find_from].
  - intros j b H. destruct j; discriminate.
  - destruct k; cbn [negb].
    + specialize (IH (S idx)). destruct (find_from (S idx) rest) as [r|].
      * destruct IH as (n & -> & Hn & Hlt). exists (S n).
        repeat split; [lia | exact Hn |].
        intros [|j] Hj; [reflexivity|]. apply Hlt. lia.
      * intros [|j] b H; [now injection H as <-|]. now apply (IH j).
    + exists O. repeat split; [lia|]. intros j Hj. lia.
Qed.

Lemma ham_check_nth (terms : list term) (j : nat) :
  nth_error (ham_ps_is_identity terms) j
  = option_map term_is_identity (nth_error terms j).
Proof. unfold ham_ps_is_identity. apply nth_error_map. Qed.

(** X12: when every term of the Hamiltonian is an identity term (all
    labels I, or coefficient 0), and in particular when there is no term,
    the range computation of [_decompose_] raises TypeError and so does
    the decomposition, whatever the registers. *)
Theorem X12_no_active_term (terms : list term) (phs_q : qubit)
    (ctl_q anc_q tgt_q : list qubit) :
  (forall t, In t terms -> term_is_identity t = true) ->
  active_range terms = Raise TypeError /\
  decompose terms phs_q ctl_q anc_q tgt_q = Raise TypeError.
Proof.
  intros H.
  assert (E : active_range terms = Raise TypeError).
  { unfold active_range, find_first_non_identity_term.
    pose proof (find_from_spec (rev (ham_ps_is_identity terms)) 0) as S.
    destruct (find_from 0 (rev (ham_ps_is_identity terms))) as [r|];
      [|reflexivity].
    destruct S as (n & _ & Hn & _). exfalso.
    apply nth_error_In, in_rev in Hn.
    unfold ham_ps_is_identity in Hn. apply in_map_iff in Hn.
    destruct Hn as (t & Ht & Hin). rewrite (H t Hin) in Ht. discriminate. }
  split; [exact E|]. unfold decompose. now rewrite E.
Qed.

Lemma X12_no_active_term_witness :
  active_range [ {| pauli := "II"; coeff_num := 3; coeff_den := 1 |};
                 {| pauli := "XZ"; coeff_num := 0; coeff_den := 1 |} ]
  = Raise TypeError /\
  decompose [ {| pauli := "II"; coeff_num := 3; coeff_den := 1 |};
              {| pauli := "XZ"; coeff_num := 0; coeff_den := 1 |} ]
    Phs (ctl_reg 1) (anc_reg 1) (tgt_reg 2) = Raise TypeError.
Proof.
  apply X12_no_active_term.
  intros t [<-|[<-|[]]]; reflexivity.
Defined.

(** The range, when there is a term that is not an identity term. *)
Lemma active_range_spec (terms : list term) :
  (exists t, In t terms /\ term_is_identity t = false) ->
  exists n1 n2 : nat,
    active_range terms = Ok (Some (Z.of_nat n1), Z.of_nat n2) /\
    (n1 < n2 <= List.length terms)%nat /\
    (exists t, nth_error terms n1 = Some t /\ term_is_identity t = false) /\
    (exists t, nth_error terms (n2 - 1) = Some t /\
               term_is_identity t = false) /\
    forall j t, nth_error terms j = Some t -> (j < n1 \/ n2 <= j)%nat ->
                term_is_identity t = true.
Proof.
  intros (t0 & Hin0 & Ht0).
  set (check := ham_ps_is_identity terms).
  assert (Hlen : List.length check = List.length terms)
    by (unfold check, ham_ps_is_identity; apply length_map).
  assert (Hfalse : In false check).
  { unfold check, ham_ps_is_identity. apply in_map_iff. now exists t0. }
  unfold active_range, find_first_non_identity_term. fold check.
  pose proof (find_from_spec check 0) as S1.
  pose proof (find_from_spec (rev check) 0) as S2.
  destruct (find_from 0 (rev check)) as [r|].
  2:{ exfalso. apply in_rev in Hfalse.
      apply In_nth_error in Hfalse. destruct Hfalse as (j & Hj).
      specialize (S2 j false Hj). discriminate. }
  destruct (find_from 0 check) as [p|].
  2:{ exfalso. apply In_nth_error in Hfalse. destruct Hfalse as (j & Hj).
      specialize (S1 j false Hj). discriminate. }
  destruct S1 as (n1 & -> & Hn1 & Hlt1).
  destruct S2 as (n2 & -> & Hn2 & Hlt2).
  cbn [Nat.add option_map].
  assert (Hr : (n2 < List.length check)%nat).
  { rewrite <- length_rev. apply nth_error_Some. congruence. }
  assert (Hp : (n1 < List.length check)%nat).
  { apply nth_error_Some. congruence. }
  assert (Hlast : nth_error check (List.length check - S n2) = Some false).
  { rewrite nth_error_rev in Hn2.
    replace (n2 <? List.length check)%nat with true in Hn2
      by (symmetry; apply Nat.ltb_lt; lia). exact Hn2. }
  assert (Hafter : forall j, (List.length check - n2 <= j < List.length check)%nat ->
                             nth_error check j = Some true).
  { intros j Hj.
    specialize (Hlt2 (List.length check - S j)%nat ltac:(lia)).
    rewrite nth_error_rev in Hlt2.
    replace (List.length check - S j <? List.length check)%nat with true in Hlt2
      by (symmetry; apply Nat.ltb_lt; lia).
    now replace (List.length check - S (List.length check - S j))%nat
      with j in Hlt2 by lia. }
  assert (Hord : (n1 <= List.length check - S n2)%nat).
  { destruct (Nat.le_gt_cases n1 (List.length check - S n2)) as [|Hgt];
      [assumption|].
    specialize (Hlt1 _ Hgt). congruence. }
  subst check.
  exists n1, (List.length terms - n2)%nat.
  rewrite <- Hlen. split.
  { do 2 f_equal. lia. }
  split; [lia|].
  rewrite ham_check_nth in Hn1, Hlast.
  split; [|split].
  - destruct (nth_error terms n1) as [t|]; [|discriminate].
    exists t. split; [reflexivity|]. now injection Hn1.
  - replace (List.length (ham_ps_is_identity terms) - n2 - 1)%nat
      with (List.length (ham_ps_is_identity terms) - S n2)%nat by lia.
    destruct (nth_error terms
                (List.length (ham_ps_is_identity terms) - S n2)) as [t|];
      [|discriminate].
    exists t. split; [reflexivity|]. now injection Hlast.
  - intros j t Hj Hrange.
    assert (Hjl : (j < List.length terms)%nat)
      by (apply nth_error_Some; congruence).
    assert (E : nth_error (ham_ps_is_identity terms) j = Some true).
    { destruct Hrange as [H1|H2]; [now apply Hlt1|].
      apply Hafter. lia. }
    rewrite ham_check_nth, Hj in E. now injection E.
Qed.

(** X13: when some term is not an identity term, the range computation
    returns [pos1 < pos2 <= len(terms)], the terms at [pos1] and at
    [pos2 - 1] are not identity terms, and every term before [pos1] or from
    [pos2] on is an identity term. *)
Theorem X13_active_range (terms : list term) :
  (exists t, In t terms /\ term_is_identity t = false) ->
  exists n1 n2 : nat,
    active_range terms = Ok (Some (Z.of_nat n1), Z.of_nat n2) /\
    (n1 < n2 <= List.length terms)%nat /\
    (exists t, nth_error terms n1 = Some t /\ term_is_identity t = false) /\
    (exists t, nth_error terms (n2 - 1) = Some t /\
               term_is_identity t = false) /\
    forall j t, nth_error terms j = Some t -> (j < n1 \/ n2 <= j)%nat ->
                term_is_identity t = true.
Proof. exact (active_range_spec terms). Qed.

Lemma X13_active_range_witness :
  exists n1 n2 : nat,
    active_range [ {| pauli := "II"; coeff_num := 3; coeff_den := 1 |};
                   {| pauli := "XZ"; coeff_num := 1; coeff_den := 1 |};
                   {| pauli := "ZZ"; coeff_num := 0; coeff_den := 1 |} ]
    = Ok (Some (Z.of_nat n1), Z.of_nat n2) /\
    (n1 < n2 <= 3)%nat /\
    (exists t, nth_error
                 [ {| pauli := "II"; coeff_num := 3; coeff_den := 1 |};
                   {| pauli := "XZ"; coeff_num := 1; coeff_den := 1 |};
                   {| pauli := "ZZ"; coeff_num := 0; coeff_den := 1 |} ] n1
               = Some t /\ term_is_identity t = false) /\
    (exists t, nth_error
                 [ {| pauli := "II"; coeff_num := 3; coeff_den := 1 |};
                   {| pauli := "XZ"; coeff_num := 1; coeff_den := 1 |};
                   {| pauli := "ZZ"; coeff_num := 0; coeff_den := 1 |} ]
                 (n2 - 1)
               = Some t /\ term_is_identity t = false) /\
    forall j t,
      nth_error [ {| pauli := "II"; coeff_num := 3; coeff_den := 1 |};
                  {| pauli := "XZ"; coeff_num := 1; coeff_den := 1 |};
                  {| pauli := "ZZ"; coeff_num := 0; coeff_den := 1 |} ] j
      = Some t -> (j < n1 \/ n2 <= j)%nat -> term_is_identity t = true.
Proof.
  apply (X13_active_range
           [ {| pauli := "II"; coeff_num := 3; coeff_den := 1 |};
             {| pauli := "XZ"; coeff_num := 1; coeff_den := 1 |};
             {| pauli := "ZZ"; coeff_num := 0; coeff_den := 1 |} ]).
  exists {| pauli := "XZ"; coeff_num := 1; coeff_den := 1 |}.
  split; [right; now left | reflexivity].
Defined.


(** ** The walk on the operators of a Hamiltonian *)

Lemma payload_body_ham (w : nat) (tgts : list qubit) (terms : list term)
    (k : Z) (t : term) :
  0 <= k -> nth_error terms (Z.to_nat k) = Some t ->
  payload_body w tgts (convert_hamiltonian_terms_to_operators terms) k
  = term_to_generator t (bq w 0) tgts.
Proof.
  intros Hk Ht. unfold payload_body, convert_hamiltonian_terms_to_operators.
  rewrite <- (Z2Nat.id k) at 1 by exact Hk.
  rewrite (py_index_nth_error _ _ (term_to_generator t)); [reflexivity|].
  now rewrite nth_error_map, Ht.
Qed.

Lemma hamiltonian_ops_ok (w n_tgt : nat) (terms : list term) (keys : list Z) :
  (forall k, In k keys -> 0 <= k < Z.of_nat (List.length terms)) ->
  ops_ok w (tgt_reg n_tgt) (convert_hamiltonian_terms_to_operators terms) keys
  = true.
Proof.
  intros H. unfold ops_ok. apply forallb_forall. intros k Hk.
  specialize (H k Hk).
  unfold convert_hamiltonian_terms_to_operators at 1. rewrite length_map.
  replace (0 <=? k) with true by (symmetry; apply Z.leb_le; lia).
  replace (k <? Z.of_nat (List.length terms)) with true
    by (symmetry; apply Z.ltb_lt; lia).
  cbn [andb].
  destruct (nth_error terms (Z.to_nat k)) as [t|] eqn:E.
  - rewrite (payload_body_ham w _ terms k t) by (lia || assumption).
    apply term_to_generator_targets_only.
  - apply nth_error_None in E. lia.
Qed.

Section Targets.

Variable w : nat.
Variable body : Z -> list gate.
Variable flip : Z -> nat -> bool.
Hypothesis Hw : (1 <= w)%nat.

(** The target bits after the reference oracle, for payloads that act as
    controlled flips. *)
Lemma oracle_keys_targets (keys : list Z) (i : nat) :
  (forall k, In k keys ->
     targets_only (body k) = true /\
     forall s, run_gates (body k) s (Tgt i)
               = xorb (s (Tgt i)) (s (bq w 0) && flip k i)) ->
  forall b f,
    fst (oracle_keys w body keys (b, f)) (Tgt i)
    = xorb (b (Tgt i))
        (fold_right xorb false
           (map (fun k => pre w b k 0 && flip k i) keys)).
Proof.
  induction keys as [|k rest IH]; intros Hact b f.
  - simpl. now rewrite xorb_false_r.
  - destruct (Hact k ltac:(now left)) as [Hto Hk].
    cbn [oracle_keys map fold_right].
    rewrite IH by (intros k' Hk'; apply Hact; now right).
    rewrite Hk, set_chain_tgt, (set_chain_low w Hw).
    rewrite xorb_assoc. do 2 f_equal. f_equal.
    apply map_ext. intros k'. f_equal.
    apply pre_ext_state.
    + now rewrite targets_only_frame by (assumption || reflexivity).
    + intros j. now rewrite targets_only_frame by (assumption || reflexivity).
Qed.

Lemma parity_none (en : bool) (a : Z) (i : nat) (keys : list Z) :
  ~ In a keys \/ en = false ->
  fold_right xorb false
    (map (fun k => en && (a =? k) && flip k i) keys) = false.
Proof.
  intros H. induction keys as [|k rest IH]; [reflexivity|].
  cbn [map fold_right]. rewrite IH.
  - destruct H as [H| ->]; [|reflexivity].
    destruct (Z.eqb_spec a k) as [->|_].
    + exfalso. apply H. now left.
    + now rewrite andb_false_r.
  - destruct H as [H|H]; [left|now right]. intros Hin. apply H. now right.
Qed.

Lemma parity_one (lo a : Z) (i : nat) (keys : list Z) :
  increasing_from w lo keys = true -> In a keys ->
  fold_right xorb false
    (map (fun k => true && (a =? k) && flip k i) keys) = flip a i.
Proof.
  revert lo. induction keys as [|k rest IH]; intros lo H Hin; [destruct Hin|].
  cbn [map fold_right]. pose proof H as H'. simpl in H'.
  apply andb_prop in H'. destruct H' as [_ Hr].
  destruct (Z.eqb_spec a k) as [->|Hne].
  - rewrite (parity_none true); [now rewrite xorb_false_r|].
    left. intros Hin'.
    pose proof (increasing_from_bounds w k rest k Hr Hin'). lia.
  - destruct Hin as [->|Hin]; [congruence|].
    rewrite (IH k Hr Hin). reflexivity.
Qed.

End Targets.

(** The walk on the operators of a Hamiltonian, on a range of its terms. *)
Lemma walk_hamiltonian (w n_tgt : nat) (terms : list term) (pos1 pos2 : Z)
    (st : state) :
  (1 <= w)%nat ->
  0 <= pos1 < pos2 -> pos2 <= 2 ^ Z.of_nat w ->
  pos2 <= Z.of_nat (List.length terms) ->
  ancilla_clear w st ->
  exists circ,
    applyAndWalk (convert_hamiltonian_terms_to_operators terms) pos1 pos2
      (ctl_reg w) Phs (anc_reg w) (tgt_reg n_tgt) = Ok circ /\
    ancilla_clear w (fst (run circ (st, []))) /\
    forall i,
      fst (run circ (st, [])) (Tgt i)
      = xorb (st (Tgt i))
          (st Phs && (pos1 <=? address w st) && (address w st <? pos2)
           && term_flips terms n_tgt (address w st) i).
Proof.
  intros Hw Hpos Hhi Hlen Hclear.
  set (ops := convert_hamiltonian_terms_to_operators terms).
  assert (Hinc : increasing_from w (-1) (key_range pos1 pos2) = true).
  { replace pos2 with (pos1 + Z.of_nat (Z.to_nat (pos2 - pos1))) by lia.
    apply key_range_increasing; lia. }
  assert (Hok : ops_ok w (tgt_reg n_tgt) ops (key_range pos1 pos2) = true).
  { apply hamiltonian_ops_ok. intros k Hk. apply in_key_range in Hk. lia. }
  destruct (qrom_sem w (tgt_reg n_tgt) ops Hw _ Hinc Hok) as (circ & Hc & Hsem).
  destruct (Hsem st [] Hclear) as [Hs _].
  exists circ. split; [|split].
  - unfold applyAndWalk. unfold ctl_reg at 2.
    now rewrite length_map, length_seq.
  - intros i Hi. rewrite Hs. now apply oracle_clear.
  - intros i. rewrite Hs. unfold oracle.
    pose proof (oracle_keys_targets w (payload_body w (tgt_reg n_tgt) ops)
                  (term_flips terms n_tgt) Hw (key_range pos1 pos2) i) as HT.
    destruct (oracle_keys w (payload_body w (tgt_reg n_tgt) ops)
                (key_range pos1 pos2) (st, [])) as [b f] eqn:E.
    cbn [fst]. rewrite set_chain_tgt.
    specialize (HT ltac:(
      intros k Hk; apply in_key_range in Hk;
      destruct (nth_error terms (Z.to_nat k)) as [t|] eqn:Et;
        [| apply nth_error_None in Et; lia];
      unfold ops; rewrite (payload_body_ham w _ terms k t) by (lia || assumption);
      split; [apply term_to_generator_targets_only|];
      intros s; rewrite term_to_generator_action by reflexivity;
      unfold term_flips; rewrite Et; reflexivity) st []).
    rewrite E in HT. cbn [fst] in HT. rewrite HT. f_equal.
    rewrite (map_ext_in _
               (fun k => st Phs && (address w st =? k)
                         && term_flips terms n_tgt k i)).
    2:{ intros k Hk. apply in_key_range in Hk.
        now rewrite (pre_address w Hw st k) by lia. }
    destruct (st Phs) eqn:En.
    + destruct (Z.leb_spec pos1 (address w st)),
               (Z.ltb_spec (address w st) pos2); cbn [andb].
      * apply parity_one with (w := w) (lo := -1);
          [exact Hw | exact Hinc | apply in_key_range; lia].
      * apply parity_none with (en := true). left. rewrite in_key_range. lia.
      * apply parity_none with (en := true). left. rewrite in_key_range. lia.
      * apply parity_none with (en := true). left. rewrite in_key_range. lia.
    + etransitivity;
        [apply parity_none with (en := false); now right | reflexivity].
Qed.

(** X14: for a Hamiltonian with at least [pos2] terms, [w >= 1] address
    bits, a range [0 <= pos1 < pos2 <= 2^w] and a clear ancilla register,
    [applyAndWalk] on the operators of the Hamiltonian returns a circuit
    that flips target [i] exactly when the enable bit is 1, the address lies
    in the range, and the term at the address has the label X or Y at
    position [i]; every ancilla bit ends at 0. *)
Theorem X14_walk_applies_term (w n_tgt : nat) (terms : list term)
    (pos1 pos2 : Z) (st : state) :
  (1 <= w)%nat ->
  0 <= pos1 < pos2 -> pos2 <= 2 ^ Z.of_nat w ->
  pos2 <= Z.of_nat (List.length terms) ->
  ancilla_clear w st ->
  exists circ,
    applyAndWalk (convert_hamiltonian_terms_to_operators terms) pos1 pos2
      (ctl_reg w) Phs (anc_reg w) (tgt_reg n_tgt) = Ok circ /\
    ancilla_clear w (fst (run circ (st, []))) /\
    forall i,
      fst (run circ (st, [])) (Tgt i)
      = xorb (st (Tgt i))
          (st Phs && (pos1 <=? address w st) && (address w st <? pos2)
           && term_flips terms n_tgt (address w st) i).
Proof. exact (walk_hamiltonian w n_tgt terms pos1 pos2 st). Qed.

Lemma X14_walk_applies_term_witness :
  exists circ,
    applyAndWalk (convert_hamiltonian_terms_to_operators demo_terms) 1 3
      (ctl_reg 2) Phs (anc_reg 2) (tgt_reg 2) = Ok circ /\
    ancilla_clear 2 (fst (run circ (init_state 2 true 2 (fun _ => false), []))) /\
    forall i,
      fst (run circ (init_state 2 true 2 (fun _ => false), [])) (Tgt i)
      = xorb (init_state 2 true 2 (fun _ => false) (Tgt i))
          (init_state 2 true 2 (fun _ => false) Phs
           && (1 <=? address 2 (init_state 2 true 2 (fun _ => false)))
           && (address 2 (init_state 2 true 2 (fun _ => false)) <? 3)
           && term_flips demo_terms 2
                (address 2 (init_state 2 true 2 (fun _ => false))) i).
Proof.
  apply (X14_walk_applies_term 2 2 demo_terms 1 3
           (init_state 2 true 2 (fun _ => false))).
  - lia.
  - lia.
  - simpl. lia.
  - simpl. lia.
  - intros i Hi. reflexivity.
Defined.

(** X15: [_decompose_] end to end.  For a Hamiltonian with a term that is
    not an identity term and at most [2^w] terms, [w >= 1], and a clear
    ancilla register, the decomposition returns a circuit; with
    [(pos1, pos2)] the active range, it flips target [i] exactly when the
    enable bit is 1, the address lies in [[pos1, pos2)] and the term at the
    address has the label X or Y at position [i], and it leaves every
    ancilla bit at 0. *)
Theorem X15_decompose_applies_term (w n_tgt : nat) (terms : list term)
    (st : state) :
  (1 <= w)%nat ->
  Z.of_nat (List.length terms) <= 2 ^ Z.of_nat w ->
  (exists t, In t terms /\ term_is_identity t = false) ->
  ancilla_clear w st ->
  exists (n1 n2 : nat) circ,
    active_range terms = Ok (Some (Z.of_nat n1), Z.of_nat n2) /\
    decompose terms Phs (ctl_reg w) (anc_reg w) (tgt_reg n_tgt) = Ok circ /\
    ancilla_clear w (fst (run circ (st, []))) /\
    forall i,
      fst (run circ (st, [])) (Tgt i)
      = xorb (st (Tgt i))
          (st Phs && (Z.of_nat n1 <=? address w st)
           && (address w st <? Z.of_nat n2)
           && term_flips terms n_tgt (address w st) i).
Proof.
  intros Hw Hlen Hex Hclear.
  destruct (active_range_spec terms Hex) as (n1 & n2 & Har & Hn & _).
  destruct (walk_hamiltonian w n_tgt terms (Z.of_nat n1) (Z.of_nat n2) st)
    as (circ & Hc & Hcl & Ht); try (assumption || lia).
  exists n1, n2, circ. split; [exact Har|]. split; [|split; assumption].
  unfold decompose. rewrite Har. cbn [bind option_map]. exact Hc.
Qed.

Lemma X15_decompose_applies_term_witness :
  exists (n1 n2 : nat) circ,
    active_range demo_terms = Ok (Some (Z.of_nat n1), Z.of_nat n2) /\
    decompose demo_terms Phs (ctl_reg 2) (anc_reg 2) (tgt_reg 2) = Ok circ /\
    ancilla_clear 2 (fst (run circ (init_state 2 true 1 (fun _ => false), []))) /\
    forall i,
      fst (run circ (init_state 2 true 1 (fun _ => false), [])) (Tgt i)
      = xorb (init_state 2 true 1 (fun _ => false) (Tgt i))
          (init_state 2 true 1 (fun _ => false) Phs
           && (Z.of_nat n1 <=? address 2 (init_state 2 true 1 (fun _ => false)))
           && (address 2 (init_state 2 true 1 (fun _ => false)) <? Z.of_nat n2)
           && term_flips demo_terms 2
                (address 2 (init_state 2 true 1 (fun _ => false))) i).
Proof.
  apply (X15_decompose_applies_term 2 2 demo_terms
           (init_state 2 true 1 (fun _ => false))).
  - lia.
  - simpl. lia.
  - exists {| pauli := "XZ"; coeff_num := -1; coeff_den := 2 |}.
    split; [right; now left | reflexivity].
  - intros i Hi. reflexivity.
Defined.

End SelVProps.

(** * Further properties of the codec *)

Module CodecProps.

Import Codec CodecFacts.

(** X16: [constructBooleanTree] accepts a negative key without an error:
    the sign of [bin(n)] is dropped by the slice and the letter of the
    prefix reads as a 0, so that for [w >= 1] and [0 < p < 2^(w-1)] the
    key [-p] gives the [w]-bit encoding of [p]. *)
Theorem X16_negative_key (w : nat) (p : positive) :
  (1 <= w)%nat -> Zpos p < 2 ^ Z.of_nat (w - 1) ->
  constructBooleanTree (Zneg p) (Z.of_nat w) = Ok (encode_bits w (Zpos p)).
Proof.
  intros Hw Hp. unfold constructBooleanTree. cbn [bin String.append string_drop].
  rewrite list_ascii_app, map_app, map_is_one_zeros.
  cbn [list_ascii_of_string map String.length]. fold (digits p).
  rewrite string_length_list.
  assert (El : List.length (list_ascii_of_string (bin_pos p))
               = List.length (digits p))
    by (unfold digits; now rewrite length_map).
  rewrite El.
  pose proof (digits_length_le p (w - 1) Hp) as Hl.
  f_equal. apply decode_unique.
  - rewrite length_app, repeat_length. cbn [List.length]. lia.
  - rewrite decode_repeat_false.
    change (decode (is_one "b" :: digits p) = Zpos p).
    cbn [decode]. change (is_one "b") with false. cbn [Z.b2z].
    rewrite decode_digits. lia.
Qed.

Lemma X16_negative_key_witness :
  constructBooleanTree (Zneg 1) (Z.of_nat 2) = Ok (encode_bits 2 (Zpos 1)).
Proof. apply (X16_negative_key 2 1); simpl; lia. Defined.

(** X17: on every bit vector with a [False], of any length,
    [incrementBooleanTree] returns a vector of the same length whose value
    (most significant bit first) is one more. *)
Theorem X17_increment_adds_one (n : list bool) :
  In false n ->
  exists inc,
    incrementBooleanTree n = Ok inc /\
    List.length inc = List.length n /\
    decode inc = decode n + 1.
Proof.
  intros H.
  destruct (incrementBooleanTree_defined n H) as (inc & Hi & Hl & Hd & _).
  now exists inc.
Qed.

Lemma X17_increment_adds_one_witness :
  exists inc,
    incrementBooleanTree [true; false; true; true] = Ok inc /\
    List.length inc = List.length [true; false; true; true] /\
    decode inc = decode [true; false; true; true] + 1.
Proof.
  apply (X17_increment_adds_one [true; false; true; true]).
  right. now left.
Defined.

Lemma h_distance_sym (a : list bool) :
  forall b, h_distance a b = h_distance b a.
Proof.
  induction a as [|x a IH]; intros [|y b]; try reflexivity.
  cbn [h_distance]. rewrite IH.
  now replace (Bool.eqb y x) with (Bool.eqb x y) by (destruct x, y; reflexivity).
Qed.

(** X18: [h_distance] of [stepRight] is symmetric, it is at most the
    length of the shorter list (the [zip] drops the rest), and on lists of
    the same length it is 0 exactly when the lists are equal. *)
Theorem X18_h_distance (a b : list bool) :
  h_distance a b = h_distance b a /\
  (h_distance a b <= Nat.min (List.length a) (List.length b))%nat /\
  (List.length a = List.length b -> (h_distance a b = O <-> a = b)).
Proof.
  split; [apply h_distance_sym|]. split.
  - revert b. induction a as [|x a IH]; intros [|y b]; cbn; try lia.
    specialize (IH b). destruct (Bool.eqb x y); lia.
  - revert b. induction a as [|x a IH]; intros [|y b] Hl; try discriminate.
    + split; reflexivity.
    + cbn [h_distance]. injection Hl as Hl. specialize (IH b Hl).
      destruct x, y; cbn [Bool.eqb]; split; intros H;
        try discriminate; try lia.
      * f_equal. apply IH. lia.
      * injection H as ->. cbn. now apply IH.
      * f_equal. apply IH. lia.
      * injection H as ->. cbn. now apply IH.
Qed.

Lemma X18_h_distance_witness :
  h_distance [true; false] [true; true] = O <-> [true; false] = [true; true].
Proof.
  apply (proj2 (proj2 (X18_h_distance [true; false] [true; true]))).
  reflexivity.
Defined.

End CodecProps.

(** * Properties of the utilities *)

Module UtilsProps.

Import Utils.

Lemma string_app_nil_r (s : string) : (s ++ "")%string = s.
Proof.
  induction s as [|c s IH]; [reflexivity | cbn; now rewrite IH].
Qed.

Lemma string_app_assoc (s t u : string) :
  ((s ++ t) ++ u)%string = (s ++ (t ++ u))%string.
Proof.
  induction s as [|c s IH]; [reflexivity | cbn; now rewrite IH].
Qed.

Lemma split_space_cons (s : string) :
  exists f fs, split_space s = f :: fs.
Proof.
  induction s as [|c s (f & fs & E)]; [now exists EmptyString, [] |].
  cbn [split_space]. destruct (Ascii.eqb c " "); [now eexists; eexists |].
  rewrite E. now eexists; eexists.
Qed.

Lemma py_index_first {A : Type} (a : A) (l : list A) :
  py_index (a :: l) 0 = Ok a.
Proof.
  unfold py_index. cbn [List.length].
  replace (0 <? 0) with false by reflexivity.
  replace (0 <=? 0) with true by reflexivity.
  replace (0 <? Z.of_nat (S (List.length l))) with true
    by (symmetry; apply Z.ltb_lt; lia).
  reflexivity.
Qed.

Section QasmProps.

Variable py_int : string -> result Z.
Variable str_int : Z -> string.
Variable rotation_text : string -> result string.

Local Abbreviation convert_line := (Utils.convert_line py_int str_int rotation_text).
Local Abbreviation convert_lines := (Utils.convert_lines py_int str_int rotation_text).
Local Abbreviation to_qasm := (Utils.open_fermion_to_qasm py_int str_int rotation_text).

(** The loop only appends to what it is given. *)
Lemma convert_lines_acc (reg : string) (l : list string) :
  forall (out : string) (pr : list string),
    convert_lines reg l out pr
    = (r <- convert_lines reg l EmptyString [] ;;
       Ok ((out ++ fst r)%string, pr ++ snd r)).
Proof.
  induction l as [|m l IH]; intros out pr.
  - cbn. now rewrite string_app_nil_r, app_nil_r.
  - cbn [Utils.convert_lines].
    destruct (convert_line reg m) as [[piece msgs]|e]; [|reflexivity].
    cbn [bind]. rewrite IH. symmetry. rewrite IH.
    destruct (convert_lines reg l EmptyString []) as [[t p]|e]; [|reflexivity].
    cbn [bind fst snd String.append app].
    now rewrite string_app_assoc, app_assoc.
Qed.

Lemma convert_lines_app (reg : string) (xs ys : list string) :
  forall (out : string) (pr : list string),
    convert_lines reg (xs ++ ys) out pr
    = (r <- convert_lines reg xs out pr ;;
       convert_lines reg ys (fst r) (snd r)).
Proof.
  induction xs as [|m xs IH]; intros out pr; [reflexivity|].
  cbn [app Utils.convert_lines].
  destruct (convert_line reg m) as [[piece msgs]|e]; [|reflexivity].
  cbn [bind]. apply IH.
Qed.

Lemma to_qasm_app (n : Z) (xs ys : list string) (reg : string) (h : bool) :
  to_qasm n (xs ++ ys) reg h
  = (r1 <- to_qasm n xs reg h ;;
     r2 <- to_qasm n ys reg false ;;
     Ok ((fst r1 ++ fst r2)%string, snd r1 ++ snd r2)).
Proof.
  unfold Utils.open_fermion_to_qasm. rewrite convert_lines_app.
  destruct (convert_lines reg xs _ []) as [[t p]|e]; [|reflexivity].
  cbn [bind fst snd]. apply convert_lines_acc.
Qed.

Lemma convert_line_unknown (reg l g : string) :
  hd EmptyString (split_space l) = g ->
  dict_get qasm_convert_one_qubit_gates g = None ->
  dict_get qasm_convert_two_qubit_gates g = None ->
  dict_get qasm_convert_rotation_gates g = None ->
  convert_line reg l
  = Ok (EmptyString, [("> Gate = " ++ g ++ " not in gate tables")%string]).
Proof.
  intros Hg H1 H2 H3. unfold Utils.convert_line.
  destruct (split_space_cons l) as (f & fs & E). rewrite E in *.
  cbn [hd] in Hg. subst f. rewrite py_index_first. cbn [bind].
  now rewrite H1, H2, H3.
Qed.

(** X19: translating the moments [xs] followed by [ys] gives the text of
    [xs] followed by the text of [ys] translated without a heading, and
    the printed lines in the same order; an exception of either part is
    the exception of the whole, the one of [xs] first. *)
Theorem X19_qasm_concatenation
    (n : Z) (xs ys : list string) (reg : string) (h : bool) :
  open_fermion_to_qasm py_int str_int rotation_text n (xs ++ ys) reg h
  = (r1 <- open_fermion_to_qasm py_int str_int rotation_text n xs reg h ;;
     r2 <- open_fermion_to_qasm py_int str_int rotation_text n ys reg false ;;
     Ok ((fst r1 ++ fst r2)%string, snd r1 ++ snd r2)).
Proof. apply to_qasm_app. Qed.

(** X20: [include_heading] only puts the four heading lines in front:
    the translation with the heading is the heading followed by the
    translation without it, with the same printed lines and the same
    exceptions. *)
Theorem X20_qasm_heading_prefix (n : Z) (l : list string) (reg : string) :
  open_fermion_to_qasm py_int str_int rotation_text n l reg true
  = (r <- open_fermion_to_qasm py_int str_int rotation_text n l reg false ;;
     Ok ((heading str_int n reg ++ fst r)%string, snd r)).
Proof.
  unfold Utils.open_fermion_to_qasm. rewrite convert_lines_acc.
  destruct (convert_lines reg l EmptyString []) as [[t p]|e]; reflexivity.
Qed.

(** X21: a moment whose first field is in none of the three gate tables
    adds nothing to the OpenQASM text and raises nothing: with it the
    text is the one without it, and exactly one more line is printed,
    the message naming the gate. *)
Theorem X21_qasm_unknown_gate
    (n : Z) (xs ys : list string) (l g reg : string) (h : bool)
    (r : string * list string) :
  hd EmptyString (split_space l) = g ->
  dict_get qasm_convert_one_qubit_gates g = None ->
  dict_get qasm_convert_two_qubit_gates g = None ->
  dict_get qasm_convert_rotation_gates g = None ->
  open_fermion_to_qasm py_int str_int rotation_text n (xs ++ ys) reg h = Ok r ->
  exists printed,
    open_fermion_to_qasm py_int str_int rotation_text n (xs ++ l :: ys) reg h = Ok (fst r, printed) /\
    List.length printed = S (List.length (snd r)) /\
    In ("> Gate = " ++ g ++ " not in gate tables")%string printed.
Proof.
  intros Hg H1 H2 H3 Hr.
  rewrite to_qasm_app in Hr.
  replace (xs ++ l :: ys) with (xs ++ [l] ++ ys) by reflexivity.
  rewrite to_qasm_app, to_qasm_app.
  destruct (to_qasm n xs reg h) as [[t1 p1]|e]; [|discriminate].
  cbn [bind fst snd] in *.
  unfold Utils.open_fermion_to_qasm at 1. cbn [Utils.convert_lines].
  rewrite (convert_line_unknown reg l g Hg H1 H2 H3).
  cbn [bind fst snd String.append app].
  destruct (to_qasm n ys reg false) as [[t2 p2]|e]; [|discriminate].
  cbn [bind fst snd String.append app] in *.
  injection Hr as <-.
  eexists. split; [reflexivity|]. cbn [fst snd]. split.
  - rewrite !length_app. cbn [List.length]. lia.
  - apply in_or_app. right. now left.
Qed.

Lemma map_result_length {A B : Type} (f : A -> result B) (l : list A) :
  forall ys, map_result f l = Ok ys -> List.length ys = List.length l.
Proof.
  induction l as [|x l IH]; intros ys H; cbn in H.
  - now injection H as <-.
  - destruct (f x) as [y|e]; [|discriminate]. cbn [bind] in H.
    destruct (map_result f l) as [zs|e]; [|discriminate]. cbn [bind] in H.
    injection H as <-. cbn. now rewrite (IH zs eq_refl).
Qed.

(** X22: a two-qubit gate line needs two qubit fields: when the gate is
    in the two-qubit table and fewer than two fields follow it, each an
    integer, the line raises IndexError, and so does the translation of
    any list of moments that reaches it. *)
Theorem X22_qasm_two_qubit_arity
    (n : Z) (xs ys : list string) (l g reg : string) (fields : list string)
    (h : bool) (q : string) (r : string * list string) :
  split_space l = g :: fields ->
  dict_get qasm_convert_one_qubit_gates g = None ->
  dict_get qasm_convert_two_qubit_gates g = Some q ->
  (List.length fields < 2)%nat ->
  (forall x, In x fields -> exists z, py_int x = Ok z) ->
  open_fermion_to_qasm py_int str_int rotation_text n xs reg h = Ok r ->
  open_fermion_to_qasm py_int str_int rotation_text n (xs ++ l :: ys) reg h = Raise IndexError.
Proof.
  intros E H1 H2 Hlen Hint Hr.
  assert (Hl : convert_line reg l = Raise IndexError).
  { unfold Utils.convert_line. rewrite E, py_index_first. cbn [bind].
    rewrite H1, H2. cbn [skipn].
    destruct fields as [|a [|b fs]]; [| |cbn in Hlen; lia].
    - reflexivity.
    - destruct (Hint a (or_introl eq_refl)) as (z & Hz).
      cbn [map_result]. rewrite Hz. cbn [bind].
      rewrite py_index_first. cbn [bind].
      reflexivity. }
  replace (xs ++ l :: ys) with (xs ++ [l] ++ ys) by reflexivity.
  rewrite to_qasm_app, Hr. cbn [bind]. rewrite to_qasm_app.
  unfold Utils.open_fermion_to_qasm at 1. cbn [Utils.convert_lines].
  now rewrite Hl.
Qed.

End QasmProps.

Lemma X21_qasm_unknown_gate_witness :
  exists printed,
    open_fermion_to_qasm (fun _ => Ok 7) (fun _ => "7"%string)
      (fun _ => Ok "0.5"%string) 2
      (["H 7"%string] ++ "T 7"%string :: ["CNOT 7 7"%string]) "reg" false
    = Ok (fst (("h reg[7];" ++ nl ++ "cx reg[7],reg[7];" ++ nl)%string,
               @nil string), printed) /\
    List.length printed = S (List.length (@nil string)) /\
    In ("> Gate = " ++ "T" ++ " not in gate tables")%string printed.
Proof.
  apply (X21_qasm_unknown_gate (fun _ => Ok 7) (fun _ => "7"%string)
           (fun _ => Ok "0.5"%string) 2 ["H 7"%string] ["CNOT 7 7"%string]
           "T 7" "T" "reg" false
           (("h reg[7];" ++ nl ++ "cx reg[7],reg[7];" ++ nl)%string, []));
    reflexivity.
Defined.

Lemma X22_qasm_two_qubit_arity_witness :
  open_fermion_to_qasm (fun _ => Ok 7) (fun _ => "7"%string)
    (fun _ => Ok "0.5"%string) 2 ([] ++ "CNOT 7"%string :: ["H 7"%string])
    "reg" true
  = Raise IndexError.
Proof.
  apply (X22_qasm_two_qubit_arity (fun _ => Ok 7) (fun _ => "7"%string)
           (fun _ => Ok "0.5"%string) 2 [] ["H 7"%string] "CNOT 7" "CNOT"
           "reg" ["7"%string] true "cx"
           (heading (fun _ => "7"%string) 2 "reg", []));
    [reflexivity | reflexivity | reflexivity | simpl; lia
    | intros x _; now exists 7 | reflexivity].
Defined.

Section CountProps.

Variable op : Type.
Variable str : op -> string.

Local Abbreviation is_T := (fun o : op => starts_with_T (str o)).

Lemma count_moment (moment : list op) :
  forall c : nat,
    fold_left (fun c o => if starts_with_T (str o) then S c else c) moment c
    = (c + List.length (filter is_T moment))%nat.
Proof.
  induction moment as [|o moment IH]; intros c; cbn [fold_left filter].
  - cbn. lia.
  - rewrite IH. destruct (starts_with_T (str o)); cbn [List.length]; lia.
Qed.

Lemma count_from (circuit : list (list op)) :
  forall c : nat,
    fold_left
      (fun counter moment =>
         fold_left (fun c o => if starts_with_T (str o) then S c else c)
           moment counter)
      circuit c
    = (c + List.length (filter is_T (List.concat circuit)))%nat.
Proof.
  induction circuit as [|m circuit IH]; intros c; cbn [fold_left List.concat].
  - cbn. lia.
  - rewrite IH, count_moment, filter_app, length_app. lia.
Qed.

(** X23: [count_T_gates] does not depend on how the operations are
    grouped into moments: it is the number of operations, over all
    moments, whose text starts with the letter T, and so it is at most
    the number of operations of the circuit. *)
Theorem X23_count_T_flat (circuit : list (list op)) :
  count_T_gates op str circuit
  = List.length (filter is_T (List.concat circuit)) /\
  (count_T_gates op str circuit <= List.length (List.concat circuit))%nat.
Proof.
  unfold count_T_gates. rewrite count_from. split; [reflexivity|].
  cbn [Nat.add]. apply filter_length_le.
Qed.

(** X24: the count of a circuit followed by another is the sum of the
    two counts. *)
Theorem X24_count_T_additive (c1 c2 : list (list op)) :
  count_T_gates op str (c1 ++ c2)
  = (count_T_gates op str c1 + count_T_gates op str c2)%nat.
Proof.
  unfold count_T_gates. rewrite !count_from, List.concat_app, filter_app, length_app.
  lia.
Qed.

End CountProps.

End UtilsProps.
